(** * json-to-md-tree: the two tree renderers and the indentation heuristic

  A shallow embedding of [app.py] (JSON value -> tree text) and [app2.py]
  (TypeScript [const] object -> tree text), with the properties of the
  repository's specification stated and proved over it.

  Conventions of the embedding:
  - a Python [str] is the list of its Unicode code points ([str]);
  - a Python [int] is a [Z];
  - a Python [dict] is an association list in insertion order;
  - a raised exception is the [Err] case of [result]. *)

From Stdlib Require Import ZArith NArith String Ascii List Lia.
From stdpp Require Import base list gmap sorting.

Set Warnings "-register-all".
Local Open Scope Z_scope.

(** ** Python strings *)

(** A code point, and a string as the sequence of its code points. *)
Definition char := N.
Definition str := list char.

(** Rocq string literals are byte strings: [utf8_decode] reads the UTF-8
    bytes of a literal back into code points, so that the box-drawing
    characters of the source can be written as they are there. *)
Fixpoint utf8_decode (bs : list N) : str :=
  match bs with
  | [] => []
  | b0 :: r0 =>
      if (b0 <? 128)%N then b0 :: utf8_decode r0
      else match r0 with
      | [] => [b0]
      | b1 :: r1 =>
          if (b0 <? 224)%N then ((b0 - 192) * 64 + (b1 - 128))%N :: utf8_decode r1
          else match r1 with
          | [] => [b0; b1]
          | b2 :: r2 =>
              if (b0 <? 240)%N
              then ((b0 - 224) * 4096 + (b1 - 128) * 64 + (b2 - 128))%N :: utf8_decode r2
              else match r2 with
              | [] => [b0; b1; b2]
              | b3 :: r3 =>
                  ((b0 - 240) * 262144 + (b1 - 128) * 4096
                   + (b2 - 128) * 64 + (b3 - 128))%N :: utf8_decode r3
              end
          end
      end
  end.

Definition u (s : string) : str :=
  utf8_decode (List.map N_of_ascii (list_ascii_of_string s)).

(** [s * n]: repetition; a count below one gives the empty string. *)
Definition str_mul (s : str) (n : Z) : str :=
  List.concat (List.repeat s (Z.to_nat n)).

(** Truth value of a string: only the empty string is false. *)
Definition str_truthy (s : str) : bool :=
  match s with [] => false | _ :: _ => true end.

Definition char_eqb (a b : char) : bool := (a =? b)%N.

Fixpoint str_eqb (a b : str) : bool :=
  match a, b with
  | [], [] => true
  | x :: a', y :: b' => char_eqb x y && str_eqb a' b'
  | _, _ => false
  end.

(** Decimal rendering of a non-negative index, as [f"{idx}"] gives it. *)
Fixpoint digits_fuel (fuel : nat) (n : N) (acc : str) : str :=
  match fuel with
  | O => acc
  | S fuel' =>
      let acc' := (48 + n mod 10)%N :: acc in
      if (n <? 10)%N then acc' else digits_fuel fuel' (n / 10)%N acc'
  end.

Definition str_of_index (idx : Z) : str :=
  let n := Z.to_N idx in
  digits_fuel (S (N.to_nat (N.log2 n))) n [].

(** The three pieces the renderers assemble lines from. *)
Definition PIPE : str := u "│   ".
Definition TEE : str := u "├── ".
Definition ELBOW : str := u "└── ".
Definition BLANK : str := u "    ".

(** ** Errors *)

Inductive error :=
| DeclarationNotFound
| EmptyDeclarationBody
| NoKeysRecovered
| MinOfEmpty
| ZeroDivision
| IndexError
| KeyError.

Inductive result (A : Type) :=
| Ok (a : A)
| Err (e : error).
Arguments Ok {A} a.
Arguments Err {A} e.

Definition bind {A B} (r : result A) (k : A -> result B) : result B :=
  match r with
  | Ok a => k a
  | Err e => Err e
  end.

Notation "'let*' x ':=' r 'in' k" := (bind r (fun x => k))
  (at level 10, x name, r at level 100, k at level 200).

(** ** app.py: the structured-tree renderer *)

(** What [json.load] returns. A scalar's content never reaches the output;
    a float is kept as the text of its literal. *)
Inductive scalar :=
| SNull
| SBool (b : bool)
| SInt (n : Z)
| SFloat (literal : str)
| SStr (s : str).

Inductive value :=
| VDict (items : list (str * value))
| VList (items : list value)
| VScalar (s : scalar).

Definition is_container (v : value) : bool :=
  match v with
  | VDict _ | VList _ => true
  | VScalar _ => false
  end.

(** [build_tree(data, indent)]. The local [prefix] of the source is never
    read and is left out; [lines] grows by [append] and [extend], which is
    list concatenation here; [i] is the index [enumerate] counts. *)
Fixpoint build_tree (data : value) (indent : Z) : list str :=
  match data with
  | VDict items =>
      (fix loop (i : Z) (rest : list (str * value)) {struct rest} : list str :=
         match rest with
         | [] => []
         | (key, value) :: rest' =>
             let is_last := i =? Z.of_nat (length items) - 1 in
             let connector := if is_last then ELBOW else TEE in
             let head_line :=
               if indent =? 0 then key
               else str_mul PIPE (indent - 1) ++ connector ++ key in
             let below :=
               match value with
               | VDict _ | VList _ => build_tree value (indent + 1)
               | VScalar _ => [str_mul PIPE indent ++ u "└── value"]
               end in
             (head_line :: below) ++ loop (i + 1) rest'
         end) 0 items
  | VList items =>
      (fix loop (idx : Z) (rest : list value) {struct rest} : list str :=
         match rest with
         | [] => []
         | item :: rest' =>
             let is_last := idx =? Z.of_nat (length items) - 1 in
             let connector := if is_last then ELBOW else TEE in
             let head_line :=
               str_mul PIPE (indent - 1) ++ connector
               ++ u "[" ++ str_of_index idx ++ u "]" in
             let below :=
               match item with
               | VDict _ | VList _ => build_tree item (indent + 1)
               | VScalar _ => [str_mul PIPE indent ++ u "└── value"]
               end in
             (head_line :: below) ++ loop (idx + 1) rest'
         end) 0 items
  | VScalar _ => []
  end.

(** ** app2.py: the [re] patterns the source uses *)

(** [\s] on a [str] pattern, [str.strip()] and [str.isspace()] share one
    table of white space. *)
Definition is_space (c : char) : bool :=
  ((9 <=? c) && (c <=? 13) || (28 <=? c) && (c <=? 32)
   || (c =? 133) || (c =? 160) || (c =? 5760)
   || (8192 <=? c) && (c <=? 8202)
   || (c =? 8232) || (c =? 8233) || (c =? 8239) || (c =? 8287)
   || (c =? 12288))%N.

(** The boundaries [str.splitlines()] cuts at. *)
Definition is_linebreak (c : char) : bool :=
  ((10 <=? c) && (c <=? 13) || (28 <=? c) && (c <=? 30)
   || (c =? 133) || (c =? 8232) || (c =? 8233))%N.

Definition is_ascii_alnum (c : char) : bool :=
  ((48 <=? c) && (c <=? 57) || (65 <=? c) && (c <=? 90)
   || (97 <=? c) && (c <=? 122))%N.

(** The class [[A-Za-z0-9_$]] of [ident_key_re]. *)
Definition is_ident_char (c : char) : bool :=
  (is_ascii_alnum c || (c =? 95) || (c =? 36))%N.

(** The two classes of [quoted_key_re]: a single or a double quote
    (code points 39 and 34), and any character that is neither. *)
Definition is_quote (c : char) : bool := ((c =? 34) || (c =? 39))%N.
Definition not_quote (c : char) : bool := negb (is_quote c).

(** [source.splitlines()]: cut at every line boundary, a carriage return
    followed by a line feed counting once; no empty last line. [cur] is the
    line being read, last character first. *)
Fixpoint splitlines_from (cur : str) (s : str) : list str :=
  match s with
  | [] => match cur with [] => [] | _ :: _ => [rev cur] end
  | c :: s' =>
      if is_linebreak c then
        match s' with
        | c' :: s'' =>
            if char_eqb c 13%N && char_eqb c' 10%N
            then rev cur :: splitlines_from [] s''
            else rev cur :: splitlines_from [] s'
        | [] => [rev cur]
        end
      else splitlines_from (c :: cur) s'
  end.

Definition splitlines (source : str) : list str := splitlines_from [] source.

Fixpoint lstrip (s : str) : str :=
  match s with
  | c :: s' => if is_space c then lstrip s' else s
  | [] => []
  end.

(** [line.strip()] *)
Definition strip (s : str) : str := rev (lstrip (rev (lstrip s))).

(** [s.startswith(prefix)] *)
Fixpoint startswith (s prefix : str) {struct prefix} : bool :=
  match prefix, s with
  | [], _ => true
  | p :: prefix', c :: s' => char_eqb p c && startswith s' prefix'
  | _ :: _, [] => false
  end.

(** [sep.join(lines)] *)
Fixpoint join (sep : str) (lines : list str) : str :=
  match lines with
  | [] => []
  | [l] => l
  | l :: rest => l ++ sep ++ join sep rest
  end.

(** One element of a pattern. Repetition is only ever applied to a
    character class in the source, and groups are never nested. *)
Inductive atom :=
| Lit (c : char)
| Class (p : char -> bool)
| Star (p : char -> bool)
| Plus (p : char -> bool)
| WordBoundary
| StartOfString
| EndOfString
| GroupOpen
| GroupClose.

Definition pattern := list atom.

Definition lits (s : str) : pattern := List.map Lit s.

(** A successful match: the text of the groups closed so far, in order,
    and the position at which the group being read was opened. *)
Record match_state := MatchState {
  groups : list str;
  opened : option str
}.

Definition no_groups : match_state := MatchState [] None.

Definition group (m : match_state) (n : nat) : str :=
  nth (n - 1) (groups m) [].

(** Greedy repetition of a class: the longest run first, then shorter ones
    while the rest of the pattern fails. [prev] is the character before
    the position, [None] at the start of the string. *)
Fixpoint star_greedy {R} (p : char -> bool)
    (k : option char -> str -> option R)
    (prev : option char) (s : str) : option R :=
  match s with
  | c :: s' =>
      if p c then
        match star_greedy p k (Some c) s' with
        | Some r => Some r
        | None => k prev s
        end
      else k prev s
  | [] => k prev s
  end.

Section Regex.

(** [\b] needs [\w], which on a [str] pattern is Python's Unicode
    alphanumeric table plus the underscore. The ASCII part is written
    out; beyond ASCII the table belongs to the interpreter and is taken
    as given. *)
Variable unicode_alnum : char -> bool.

Definition is_word (c : char) : bool :=
  if (c <? 128)%N then is_ascii_alnum c || (c =? 95)%N
  else unicode_alnum c.

Definition word_at (o : option char) : bool :=
  match o with
  | Some c => is_word c
  | None => false
  end.

(** The pattern from a position on (backtracking, first success wins). *)
Fixpoint match_here (pat : pattern) (m : match_state)
    (prev : option char) (s : str) {struct pat} : option match_state :=
  match pat with
  | [] => Some m
  | Lit c :: pat' =>
      match s with
      | c' :: s' => if char_eqb c c' then match_here pat' m (Some c') s' else None
      | [] => None
      end
  | Class p :: pat' =>
      match s with
      | c' :: s' => if p c' then match_here pat' m (Some c') s' else None
      | [] => None
      end
  | Star p :: pat' => star_greedy p (match_here pat' m) prev s
  | Plus p :: pat' =>
      match s with
      | c' :: s' =>
          if p c' then star_greedy p (match_here pat' m) (Some c') s' else None
      | [] => None
      end
  | WordBoundary :: pat' =>
      if xorb (word_at prev) (word_at (head s)) then match_here pat' m prev s
      else None
  | StartOfString :: pat' =>
      match prev with
      | None => match_here pat' m prev s
      | Some _ => None
      end
  | EndOfString :: pat' =>
      match s with
      | [] => match_here pat' m prev s
      | [c] => if char_eqb c 10%N then match_here pat' m prev s else None
      | _ => None
      end
  | GroupOpen :: pat' => match_here pat' (MatchState (groups m) (Some s)) prev s
  | GroupClose :: pat' =>
      let text :=
        match opened m with
        | Some s0 => take (length s0 - length s)%nat s0
        | None => []
        end in
      match_here pat' (MatchState (groups m ++ [text]) None) prev s
  end.

(** [pattern.match(line)]: at the start of the line only. *)
Definition re_match (pat : pattern) (line : str) : option match_state :=
  match_here pat no_groups None line.

(** [pattern.search(line)]: the leftmost position that matches. *)
Fixpoint search_from (pat : pattern) (prev : option char) (s : str)
    : option match_state :=
  match match_here pat no_groups prev s with
  | Some m => Some m
  | None =>
      match s with
      | c :: s' => search_from pat (Some c) s'
      | [] => None
      end
  end.

Definition re_search (pat : pattern) (line : str) : option match_state :=
  search_from pat None line.

(** A match object is true, [None] is false. *)
Definition matched (o : option match_state) : bool :=
  match o with Some _ => true | None => false end.

(** The declaration start: a word boundary, [const], one or more white
    space, [re.escape(const_name)], white space and an equals sign. An
    escaped name matches itself, character by character. *)
Definition const_pattern (const_name : str) : pattern :=
  [WordBoundary] ++ lits (u "const") ++ [Plus is_space]
  ++ lits const_name ++ [Star is_space; Lit 61%N].

(** The closing line: white space, a closing brace and a semicolon,
    white space, end of the string. *)
Definition close_pattern : pattern :=
  [Star is_space; Lit 125%N; Lit 59%N; Star is_space; EndOfString].

(** A word boundary, [export], one or more white space, [default], a
    word boundary. *)
Definition export_pattern : pattern :=
  [WordBoundary] ++ lits (u "export") ++ [Plus is_space]
  ++ lits (u "default") ++ [WordBoundary].

(** The identifier shape: start, group 1 of white space, group 2 of one
    or more of [A-Za-z0-9_$], white space and a colon. *)
Definition ident_key_re : pattern :=
  [StartOfString; GroupOpen; Star is_space; GroupClose;
   GroupOpen; Plus is_ident_char; GroupClose; Star is_space; Lit 58%N].

(** The quoted shape: start, group 1 of white space, a quote, group 2 of
    one or more characters that are no quote, a quote, white space and
    a colon. *)
Definition quoted_key_re : pattern :=
  [StartOfString; GroupOpen; Star is_space; GroupClose; Class is_quote;
   GroupOpen; Plus not_quote; GroupClose; Class is_quote;
   Star is_space; Lit 58%N].

(** *** extract_const_block *)

(** The [for line in lines] loop with its two variables; the second
    component of the result is [block_lines] when the loop is left, by
    [break] or at the end of the input. *)
Fixpoint scan_lines (const_name : str) (lines : list str)
    (in_const : bool) (block_lines : list str) : bool * list str :=
  match lines with
  | [] => (in_const, block_lines)
  | line :: lines' =>
      if negb in_const then
        if matched (re_search (const_pattern const_name) line)
        then scan_lines const_name lines' true block_lines
        else scan_lines const_name lines' in_const block_lines
      else if matched (re_match close_pattern line)
              || matched (re_search export_pattern line)
      then (in_const, block_lines)
      else scan_lines const_name lines' in_const (block_lines ++ [line])
  end.

Definition extract_const_block (source const_name : str)
    : result (list str) :=
  let lines := splitlines source in
  let '(in_const, block_lines) := scan_lines const_name lines false [] in
  if negb in_const then Err DeclarationNotFound
  else match block_lines with
       | [] => Err EmptyDeclarationBody
       | _ :: _ => Ok block_lines
       end.

(** *** find_property_keys *)

Definition KeyRecord : Type := Z * str.

Fixpoint collect_keys (block_lines : list str) (records : list KeyRecord)
    : list KeyRecord :=
  match block_lines with
  | [] => records
  | line :: rest =>
      let stripped := strip line in
      if negb (str_truthy stripped) then collect_keys rest records
      else if startswith stripped (u "//") || startswith stripped (u "/*")
              || startswith stripped (u "*")
      then collect_keys rest records
      else
        let m :=
          match re_match ident_key_re line with
          | Some m => Some m
          | None => re_match quoted_key_re line
          end in
        match m with
        | None => collect_keys rest records
        | Some m =>
            let indent := Z.of_nat (length (group m 1)) in
            let key := group m 2 in
            collect_keys rest (records ++ [(indent, key)])
        end
  end.

Definition find_property_keys (block_lines : list str)
    : result (list KeyRecord) :=
  match collect_keys block_lines [] with
  | [] => Err NoKeysRecovered
  | records => Ok records
  end.

End Regex.

(** *** build_tree_from_keys *)

(** The nested [Dict[str, Dict]] the builder fills: the children of a node,
    by name, in insertion order. *)
Inductive dict :=
| Dict (items : list (str * dict)).

Definition items (d : dict) : list (str * dict) :=
  match d with Dict l => l end.

(** [key in d] *)
Fixpoint contains (l : list (str * dict)) (key : str) : bool :=
  match l with
  | [] => false
  | (k, _) :: l' => str_eqb k key || contains l' key
  end.

(** [d[key]] *)
Fixpoint getitem (l : list (str * dict)) (key : str) : result dict :=
  match l with
  | [] => Err KeyError
  | (k, v) :: l' => if str_eqb k key then Ok v else getitem l' key
  end.

(** [if key not in parent: parent[key] = {}] on the dict [parent]: a new
    key goes last. *)
Definition add_key (key : str) (parent : dict) : dict :=
  if contains (items parent) key then parent
  else Dict (items parent ++ [(key, Dict [])]).

(** The containers on the stack are references into the one tree under
    construction. No container is ever removed or moved, so a reference is
    the list of keys that leads to the container from [root_container],
    and a write through a reference is a write at that place of the tree. *)
Definition ref := list str.

Fixpoint change_child (key : str) (f : dict -> dict) (l : list (str * dict))
    : list (str * dict) :=
  match l with
  | [] => []
  | (k, v) :: l' =>
      if str_eqb k key then (k, f v) :: l' else (k, v) :: change_child key f l'
  end.

Fixpoint write_at (r : ref) (f : dict -> dict) (d : dict) : dict :=
  match r with
  | [] => f d
  | k :: r' => Dict (change_child k (write_at r' f) (items d))
  end.

Fixpoint deref (r : ref) (d : dict) : result dict :=
  match r with
  | [] => Ok d
  | k :: r' => let* child := getitem (items d) k in deref r' child
  end.

(** The variables of the loop: the tree and the stack of
    [(level, container)]. The head of [stack] is [stack[-1]]. *)
Record builder := Builder {
  root_container : dict;
  stack : list (Z * ref)
}.

(** [min(...)], which raises on an empty sequence. *)
Definition py_min (l : list Z) : result Z :=
  match l with
  | [] => Err MinOfEmpty
  | x :: l' => Ok (fold_left Z.min l' x)
  end.

(** [a // b] *)
Definition floordiv (a b : Z) : result Z :=
  if b =? 0 then Err ZeroDivision else Ok (a / b).

(** [sorted({indent - base_indent for indent, _ in records
             if indent - base_indent > 0})] *)
Definition sorted_diffs (base_indent : Z) (records : list (Z * str)) : list Z :=
  let diffs : gset Z :=
    list_to_set
      (List.map (fun r => fst r - base_indent)
         (List.filter (fun r => 0 <? fst r - base_indent) records)) in
  merge_sort Z.le (elements diffs).

(** [level] of a record, after the clamp. *)
Definition level_of (base_indent indent_step indent : Z) : result Z :=
  let* q := floordiv (indent - base_indent) indent_step in
  let level := 1 + q in
  Ok (if level <? 1 then 1 else level).

(** [while stack and stack[-1][0] >= level: stack.pop()] *)
Fixpoint pop_to (level : Z) (stack : list (Z * ref)) : list (Z * ref) :=
  match stack with
  | [] => []
  | (l, c) :: stack' => if l >=? level then pop_to level stack' else stack
  end.

(** The body of [for indent, key in records]. *)
Definition attach (base_indent indent_step : Z) (b : builder)
    (record : Z * str) : result builder :=
  let '(indent, key) := record in
  let* level := level_of base_indent indent_step indent in
  let stack1 := pop_to level (stack b) in
  match stack1 with
  | [] => Err IndexError
  | (_, parent) :: _ =>
      let root' := write_at parent (add_key key) (root_container b) in
      Ok (Builder root' ((level, parent ++ [key]) :: stack1))
  end.

Fixpoint attach_all (base_indent indent_step : Z) (records : list (Z * str))
    (b : builder) : result builder :=
  match records with
  | [] => Ok b
  | record :: records' =>
      let* b' := attach base_indent indent_step b record in
      attach_all base_indent indent_step records' b'
  end.

Definition base_indent_of (records : list (Z * str)) : result Z :=
  py_min (List.map fst records).

Definition indent_step_of (base_indent : Z) (records : list (Z * str)) : Z :=
  match sorted_diffs base_indent records with
  | d :: _ => d
  | [] => 2
  end.

Definition initial_builder : builder := Builder (Dict []) [(-1, [])].

Definition build_tree_from_keys (const_name : str) (records : list (Z * str))
    : result dict :=
  let* base_indent := base_indent_of records in
  let indent_step := indent_step_of base_indent records in
  let* b := attach_all base_indent indent_step records initial_builder in
  Ok (Dict [(const_name, root_container b)]).

(** *** tree_to_md_lines *)

Fixpoint tree_to_md_lines (name : str) (subtree : dict) (prefix : str)
    (is_last : bool) : list str :=
  match subtree with
  | Dict children =>
      let connector := if is_last then ELBOW else TEE in
      let line :=
        if str_truthy prefix then prefix ++ connector ++ name else name in
      let child_prefix := prefix ++ (if is_last then BLANK else PIPE) in
      line ::
      (fix loop (idx : Z) (rest : list (str * dict)) {struct rest} : list str :=
         match rest with
         | [] => []
         | (child_name, child_subtree) :: rest' =>
             let last_child := idx =? Z.of_nat (length children) - 1 in
             tree_to_md_lines child_name child_subtree child_prefix last_child
             ++ loop (idx + 1) rest'
         end) 0 children
  end.

(** *** convert_ts_const_to_md, from the text of the file on

    The bound of the interpreter on the depth of recursion is not part of
    the model: the renderer is a total function here. *)

Definition convert_ts_const_to_md (unicode_alnum : char -> bool)
    (source const_name : str) : result str :=
  let* block_lines := extract_const_block unicode_alnum source const_name in
  let* records := find_property_keys unicode_alnum block_lines in
  let* tree := build_tree_from_keys const_name records in
  let* root_subtree := getitem (items tree) const_name in
  let lines := tree_to_md_lines const_name root_subtree [] true in
  Ok (u "```text" ++ [10%N] ++ join [10%N] lines ++ [10%N] ++ u "```").

(** [convert_json_to_md], from the parsed document on. *)
Definition convert_json_to_md (data : value) : str :=
  let tree_lines := build_tree data 0 in
  u "```text" ++ [10%N] ++ join [10%N] tree_lines ++ [10%N] ++ u "```".

(** * Vocabulary of the properties *)

(** ** The structured-tree renderer *)

(** The lines the renderer writes, named. *)
Definition marker (indent : Z) : str := str_mul PIPE indent ++ u "└── value".

Definition connector_at (n i : Z) : str := if i =? n - 1 then ELBOW else TEE.

Definition dict_head (indent n i : Z) (key : str) : str :=
  if indent =? 0 then key
  else str_mul PIPE (indent - 1) ++ connector_at n i ++ key.

Definition list_head (indent n idx : Z) : str :=
  str_mul PIPE (indent - 1) ++ connector_at n idx
  ++ u "[" ++ str_of_index idx ++ u "]".

Definition below (v : value) (indent : Z) : list str :=
  match v with
  | VScalar _ => [marker indent]
  | _ => build_tree v (indent + 1)
  end.

(** The two loops of [build_tree], from entry number [i] on. *)
Fixpoint dict_rows (indent n i : Z) (rest : list (str * value)) : list str :=
  match rest with
  | [] => []
  | (key, v) :: rest' =>
      (dict_head indent n i key :: below v indent)
      ++ dict_rows indent n (i + 1) rest'
  end.

Fixpoint list_rows (indent n idx : Z) (rest : list value) : list str :=
  match rest with
  | [] => []
  | item :: rest' =>
      (list_head indent n idx :: below item indent)
      ++ list_rows indent n (idx + 1) rest'
  end.

(** Which statement of [build_tree] wrote a line: the line of a key or an
    index, or the marker under a scalar. *)
Inductive line_kind :=
| EntryLine
| LeafMarker.

Definition is_entry_line (row : line_kind * str) : bool :=
  match fst row with
  | EntryLine => true
  | LeafMarker => false
  end.

(** [build_tree] again, every line paired with the statement that wrote it. *)
Fixpoint build_tree_kinds (data : value) (indent : Z)
    : list (line_kind * str) :=
  match data with
  | VDict items =>
      (fix loop (i : Z) (rest : list (str * value)) {struct rest} :=
         match rest with
         | [] => []
         | (key, value) :: rest' =>
             let is_last := i =? Z.of_nat (length items) - 1 in
             let connector := if is_last then ELBOW else TEE in
             let head_line :=
               if indent =? 0 then key
               else str_mul PIPE (indent - 1) ++ connector ++ key in
             let below :=
               match value with
               | VDict _ | VList _ => build_tree_kinds value (indent + 1)
               | VScalar _ =>
                   [(LeafMarker, str_mul PIPE indent ++ u "└── value")]
               end in
             ((EntryLine, head_line) :: below) ++ loop (i + 1) rest'
         end) 0 items
  | VList items =>
      (fix loop (idx : Z) (rest : list value) {struct rest} :=
         match rest with
         | [] => []
         | item :: rest' =>
             let is_last := idx =? Z.of_nat (length items) - 1 in
             let connector := if is_last then ELBOW else TEE in
             let head_line :=
               str_mul PIPE (indent - 1) ++ connector
               ++ u "[" ++ str_of_index idx ++ u "]" in
             let below :=
               match item with
               | VDict _ | VList _ => build_tree_kinds item (indent + 1)
               | VScalar _ =>
                   [(LeafMarker, str_mul PIPE indent ++ u "└── value")]
               end in
             ((EntryLine, head_line) :: below) ++ loop (idx + 1) rest'
         end) 0 items
  | VScalar _ => []
  end.

(** The keys and the indices of a value, over all levels of the nesting. *)
Fixpoint count_entries (v : value) : nat :=
  match v with
  | VDict items =>
      (fix go (l : list (str * value)) : nat :=
         match l with
         | [] => O
         | (_, x) :: l' => S (count_entries x + go l')
         end) items
  | VList items =>
      (fix go (l : list value) : nat :=
         match l with
         | [] => O
         | x :: l' => S (count_entries x + go l')
         end) items
  | VScalar _ => O
  end.

Definition entry_lines (v : value) (indent : Z) : list str :=
  List.map snd (List.filter is_entry_line (build_tree_kinds v indent)).

(** The value [{"a": {"b": 1, "c": 2}}]. *)
Definition nested_pair : value :=
  VDict [(u "a", VDict [(u "b", VScalar (SInt 1)); (u "c", VScalar (SInt 2))])].

(** The value [{"a": {"x": 1}, "b": {"x": 1}}]. *)
Definition twin_maps : value :=
  VDict [(u "a", VDict [(u "x", VScalar (SInt 1))]);
         (u "b", VDict [(u "x", VScalar (SInt 1))])].

(** ** The named-tree renderer *)

(** The loop over [children] of [tree_to_md_lines], from child [idx] on. *)
Fixpoint child_rows (child_prefix : str) (n idx : Z)
    (rest : list (str * dict)) : list str :=
  match rest with
  | [] => []
  | (child_name, child_subtree) :: rest' =>
      tree_to_md_lines child_name child_subtree child_prefix (idx =? n - 1)
      ++ child_rows child_prefix n (idx + 1) rest'
  end.

(** The body lines and the tree of the scenario with [foo], [bar] and
    [baz]. *)
Definition foo_bar_body : list str :=
  [u "  foo: 1"; u "  bar: {"; u "    baz: 2"; u "  }"].

Definition foo_bar_tree : dict :=
  Dict [(u "foo", Dict []); (u "bar", Dict [(u "baz", Dict [])])].

(** ** The hierarchy builder *)

(** The order of two neighbours on the stack, the upper one first. *)
Definition falls (x y : Z * ref) : Prop := fst y < fst x.

(** What holds of the builder between two records: the bottom of the stack
    is the entry of the root, the levels fall strictly from the top of the
    stack down, and every container on the stack is in the tree. *)
Record stack_inv (b : builder) : Prop := StackInv {
  inv_bottom : last (stack b) = Some (-1, []);
  inv_sorted : StronglySorted falls (stack b);
  inv_refs :
    Forall (fun e => exists d, deref (snd e) (root_container b) = Ok d)
      (stack b)
}.

(** The stack as the Python list has it: the entry of the root first,
    [stack[-1]] last. *)
Definition py_stack (b : builder) : list (Z * ref) := reverse (stack b).

(** ** The block extractor *)

(** The two tests of the scan, named: the line starts the declaration, the
    line ends the body. *)
Definition is_start_line (ua : char -> bool) (const_name line : str) : bool :=
  matched (re_search ua (const_pattern const_name) line).

Definition is_end_line (ua : char -> bool) (line : str) : bool :=
  matched (re_match ua close_pattern line)
  || matched (re_search ua export_pattern line).

(** A table for texts in ASCII, where it is never consulted. *)
Definition no_letters_beyond_ascii : char -> bool := fun _ => false.

(** The character before the position reached by reading [w] from a
    position after [prev]. *)
Definition after_run (prev : option char) (w : str) : option char :=
  match last w with
  | Some c => Some c
  | None => prev
  end.

(** * Further vocabulary *)

(** The scalar entries of a value, over all levels of the nesting: the
    places where [build_tree] writes a marker. *)
Fixpoint count_leaves (v : value) : nat :=
  match v with
  | VDict items =>
      (fix go (l : list (str * value)) : nat :=
         match l with
         | [] => O
         | (_, x) :: l' =>
             (match x with VScalar _ => 1%nat | _ => count_leaves x end
              + go l')%nat
         end) items
  | VList items =>
      (fix go (l : list value) : nat :=
         match l with
         | [] => O
         | x :: l' =>
             (match x with VScalar _ => 1%nat | _ => count_leaves x end
              + go l')%nat
         end) items
  | VScalar _ => O
  end.

(** The body of the loop of [find_property_keys] for one line: the record
    the line adds, if it adds one. *)
Definition key_of_line (ua : char -> bool) (line : str) : option KeyRecord :=
  let stripped := strip line in
  if negb (str_truthy stripped) then None
  else if startswith stripped (u "//") || startswith stripped (u "/*")
          || startswith stripped (u "*")
  then None
  else
    match
      match re_match ua ident_key_re line with
      | Some m => Some m
      | None => re_match ua quoted_key_re line
      end
    with
    | None => None
    | Some m => Some (Z.of_nat (length (group m 1)), group m 2)
    end.

(** The two shapes of a key line, with the indent and the key they carry:
    white space, an identifier, white space and a colon (code point 58); or
    white space, a quote, a text without quotes, a quote, white space and a
    colon. *)
Definition ident_shape (line : str) (indent : Z) (key : str) : Prop :=
  exists ws ws2 rest : str,
    line = ws ++ key ++ ws2 ++ [58%N] ++ rest
    /\ Forall (fun c => is_space c = true) ws
    /\ key <> []
    /\ Forall (fun c => is_ident_char c = true) key
    /\ Forall (fun c => is_space c = true) ws2
    /\ indent = Z.of_nat (length ws).

Definition quoted_shape (line : str) (indent : Z) (key : str) : Prop :=
  exists (ws : str) (q1 q2 : char) (ws2 rest : str),
    line = ws ++ [q1] ++ key ++ [q2] ++ ws2 ++ [58%N] ++ rest
    /\ Forall (fun c => is_space c = true) ws
    /\ is_quote q1 = true
    /\ is_quote q2 = true
    /\ key <> []
    /\ Forall (fun c => is_quote c = false) key
    /\ Forall (fun c => is_space c = true) ws2
    /\ indent = Z.of_nat (length ws).

Definition key_shape (line : str) (indent : Z) (key : str) : Prop :=
  ident_shape line indent key \/ quoted_shape line indent key.

(** The keys of a tree, over all its levels, a key once for every node that
    bears it. *)
Fixpoint all_keys (d : dict) : list str :=
  match d with
  | Dict l =>
      (fix go (l : list (str * dict)) : list str :=
         match l with
         | [] => []
         | (k, c) :: l' => (k :: all_keys c) ++ go l'
         end) l
  end.

(** No node of the tree has two children of one name. *)
Fixpoint unique_keys (d : dict) : Prop :=
  match d with
  | Dict l =>
      NoDup (List.map fst l)
      /\ (fix go (l : list (str * dict)) : Prop :=
            match l with
            | [] => True
            | (_, c) :: l' => unique_keys c /\ go l'
            end) l
  end.

(** The nodes of a tree, the node of the tree itself among them. *)
Fixpoint node_count (d : dict) : nat :=
  match d with
  | Dict l =>
      S ((fix go (l : list (str * dict)) : nat :=
            match l with
            | [] => O
            | (_, c) :: l' => (node_count c + go l')%nat
            end) l)
  end.

(** The keys of the maps of a value, over all levels of the nesting. *)
Fixpoint value_keys (v : value) : list str :=
  match v with
  | VDict l =>
      (fix go (l : list (str * value)) : list str :=
         match l with
         | [] => []
         | (k, x) :: l' => (k :: value_keys x) ++ go l'
         end) l
  | VList l =>
      (fix go (l : list value) : list str :=
         match l with
         | [] => []
         | x :: l' => value_keys x ++ go l'
         end) l
  | VScalar _ => []
  end.

(** The records of a tree written out one key to a line: the keys in the
    order of a walk from the top, the children of the root at [indent],
    every other key [w] deeper than its parent. *)
Fixpoint flatten (indent w : Z) (t : dict) : list (Z * str) :=
  match t with
  | Dict l =>
      (fix go (l : list (str * dict)) : list (Z * str) :=
         match l with
         | [] => []
         | (k, c) :: l' => ((indent, k) :: flatten (indent + w) w c) ++ go l'
         end) l
  end.

(** A value with every scalar replaced by [null]. *)
Fixpoint erase_scalars (v : value) : value :=
  match v with
  | VDict l =>
      VDict
        ((fix go (l : list (str * value)) : list (str * value) :=
            match l with
            | [] => []
            | (k, x) :: l' => (k, erase_scalars x) :: go l'
            end) l)
  | VList l =>
      VList
        ((fix go (l : list value) : list value :=
            match l with
            | [] => []
            | x :: l' => erase_scalars x :: go l'
            end) l)
  | VScalar _ => VScalar SNull
  end.

(** The number a string of decimal digits stands for. *)
Fixpoint decimal_value (s : str) : N :=
  match s with
  | [] => 0%N
  | c :: s' => ((c - 48) * 10 ^ N.of_nat (length s') + decimal_value s')%N
  end.

Definition is_decimal_digit (c : char) : bool :=
  ((48 <=? c) && (c <=? 57))%N.

(** [s] is the decimal numeral of [n]: digits only, no zero in front but
    for 0 itself, and of the value [n]. *)
Definition decimal_numeral (s : str) (n : nat) : Prop :=
  s <> []
  /\ Forall (fun c => is_decimal_digit c = true) s
  /\ (head s = Some 48%N -> s = [48%N])
  /\ decimal_value s = N.of_nat n.

(** * Properties *)

(** ** The embedding on small inputs *)

Example build_tree_list :
  build_tree (VList [VScalar SNull; VList [VScalar (SInt 1)]]) 0
  = [u "├── [0]"; u "└── value"; u "└── [1]"; u "└── [0]"; u "│   └── value"].
Proof. vm_compute. reflexivity. Qed.

Example find_property_keys_quoted ua :
  find_property_keys ua [u "  'a b' : 1,"; u "  // c: 2"; u "    d$_1: {"; u "x y: 3"]
  = Ok [(2, u "a b"); (4, u "d$_1")].
Proof. vm_compute. reflexivity. Qed.

Example splitlines_crlf :
  splitlines (u "a" ++ [13; 10]%N ++ [10]%N ++ u "b" ++ [10]%N)
  = [u "a"; []; u "b"].
Proof. vm_compute. reflexivity. Qed.

Example pipeline_small ua :
  convert_ts_const_to_md ua
    (u "export const t = {" ++ [10%N] ++ u "  a: {" ++ [10%N] ++ u "    b: 1,"
     ++ [10%N] ++ u "  }," ++ [10%N] ++ u "};" ++ [10%N]) (u "t")
  = Ok (u "```text" ++ [10%N] ++ u "t" ++ [10%N] ++ u "    └── a" ++ [10%N]
        ++ u "        └── b" ++ [10%N] ++ u "```").
Proof. vm_compute. reflexivity. Qed.

(** ** The structured-tree renderer *)

Lemma build_tree_VDict items indent :
  build_tree (VDict items) indent
  = dict_rows indent (Z.of_nat (length items)) 0 items.
Proof.
  cbn [build_tree]. set (n := Z.of_nat (length items)). clearbody n.
  generalize 0 at 2 3. induction items as [|[key v] rest IH]; intros i; [reflexivity|].
  cbn [dict_rows]. rewrite <- IH. destruct v; reflexivity.
Qed.

Lemma build_tree_VList items indent :
  build_tree (VList items) indent
  = list_rows indent (Z.of_nat (length items)) 0 items.
Proof.
  cbn [build_tree]. set (n := Z.of_nat (length items)). clearbody n.
  generalize 0. induction items as [|item rest IH]; intros i; [reflexivity|].
  cbn [list_rows]. rewrite <- IH. destruct item; reflexivity.
Qed.

(** Induction over a value and the values inside it. *)
Lemma value_nested_ind (P : value -> Prop) :
  (forall items, Forall (fun kv => P (snd kv)) items -> P (VDict items)) ->
  (forall items, Forall P items -> P (VList items)) ->
  (forall s, P (VScalar s)) ->
  forall v, P v.
Proof.
  intros HD HL HS. fix IH 1. intros [items|items|s].
  - apply HD.
    exact ((fix go (l : list (str * value)) : Forall (fun kv => P (snd kv)) l :=
              match l with
              | [] => List.Forall_nil _
              | kv :: l' => List.Forall_cons _ kv l' (IH (snd kv)) (go l')
              end) items).
  - apply HL.
    exact ((fix go (l : list value) : Forall P l :=
              match l with
              | [] => List.Forall_nil _
              | v :: l' => List.Forall_cons _ v l' (IH v) (go l')
              end) items).
  - apply HS.
Qed.

Lemma build_tree_kinds_lines v :
  forall indent, List.map snd (build_tree_kinds v indent) = build_tree v indent.
Proof.
  induction v as [items IH|items IH|s] using value_nested_ind; intros indent;
    [| |reflexivity].
  - cbn [build_tree build_tree_kinds].
    set (n := Z.of_nat (length items)). clearbody n.
    generalize 0 at 2 4.
    induction IH as [|[key v] rest Hv _ IHrest]; intros i; [reflexivity|].
    rewrite List.map_app, IHrest. cbn [List.map snd]. f_equal. f_equal.
    destruct v; try apply Hv; reflexivity.
  - cbn [build_tree build_tree_kinds].
    set (n := Z.of_nat (length items)). clearbody n.
    generalize 0 at 1 2.
    induction IH as [|v rest Hv _ IHrest]; intros i; [reflexivity|].
    rewrite List.map_app, IHrest. cbn [List.map snd]. f_equal. f_equal.
    destruct v; try apply Hv; reflexivity.
Qed.

Lemma entry_lines_count v :
  forall indent, length (entry_lines v indent) = count_entries v.
Proof.
  unfold entry_lines.
  induction v as [items IH|items IH|s] using value_nested_ind; intros indent;
    [| |reflexivity].
  - cbn [build_tree_kinds count_entries].
    set (n := Z.of_nat (length items)). clearbody n.
    generalize 0 at 2.
    induction IH as [|[key v] rest Hv _ IHrest]; intros i; [reflexivity|].
    rewrite List.filter_app, List.map_app, List.length_app, IHrest.
    cbn [List.filter is_entry_line fst List.map length]. cbn [snd] in Hv.
    destruct v; rewrite ?Hv; cbn; lia.
  - cbn [build_tree_kinds count_entries].
    set (n := Z.of_nat (length items)). clearbody n.
    generalize 0 at 1.
    induction IH as [|v rest Hv _ IHrest]; intros i; [reflexivity|].
    rewrite List.filter_app, List.map_app, List.length_app, IHrest.
    cbn [List.filter is_entry_line fst List.map length].
    destruct v; rewrite ?Hv; cbn; lia.
Qed.

(** C2, as stated, fails: the last line the spec expects, four blanks
    before the marker, is not the one [build_tree] writes. *)
Lemma build_tree_nested_pair_not_blank :
  build_tree nested_pair 0
  <> [u "a"; u "├── b"; u "│   └── value"; u "└── c"; u "    └── value"].
Proof. vm_compute. intros H. discriminate H. Qed.

(** C2, amended: for [{"a": {"b": 1, "c": 2}}] at depth 0, [build_tree]
    gives the lines [a], [├── b], [│   └── value], [└── c] and
    [│   └── value]: the marker under the last key also starts with the
    vertical bar, since its prefix depends on the depth alone. *)
Theorem build_tree_nested_pair :
  build_tree nested_pair 0
  = [u "a"; u "├── b"; u "│   └── value"; u "└── c"; u "│   └── value"].
Proof. vm_compute. reflexivity. Qed.

Lemma dict_rows_scalars indent n items :
  Forall (fun kv => is_container (snd kv) = false) items ->
  forall k : nat,
  dict_rows indent n (Z.of_nat k) items
  = List.concat
      (imap (fun i kv =>
               [dict_head indent n (Z.of_nat (k + i)) (fst kv);
                str_mul PIPE indent ++ u "└── value"]) items).
Proof.
  induction 1 as [|[key v] rest Hv _ IH]; intros k; [reflexivity|].
  cbn [dict_rows imap List.concat fst]. rewrite Nat.add_0_r.
  replace (Z.of_nat k + 1) with (Z.of_nat (S k)) by lia. rewrite IH.
  destruct v; cbn in Hv; try discriminate Hv. cbn [below app]. unfold marker.
  do 3 f_equal. apply imap_ext. intros i x _. cbv beta delta [compose].
  replace (S k + i)%nat with (k + S i)%nat by lia. reflexivity.
Qed.

Lemma build_tree_kinds_scalars items :
  Forall (fun kv => is_container (snd kv) = false) items ->
  forall indent,
  List.map fst (build_tree_kinds (VDict items) indent)
  = List.concat (List.map (fun _ => [EntryLine; LeafMarker]) items).
Proof.
  intros H indent. cbn [build_tree_kinds].
  set (n := Z.of_nat (length items)). clearbody n. generalize 0 at 2.
  induction H as [|[key v] rest Hv _ IH]; intros i; [reflexivity|].
  rewrite List.map_app, IH.
  destruct v; cbn in Hv; try discriminate Hv. reflexivity.
Qed.

(** C6: a map whose values are all scalars, rendered at depth [d], gives
    for each entry, in order, the line of its key and then exactly one
    marker line, which is the vertical-bar piece repeated [d] times
    followed by [└── value]; the lines written by the marker statement are
    these and no others. *)
Theorem build_tree_scalar_map items d :
  Forall (fun kv => is_container (snd kv) = false) items ->
  build_tree (VDict items) d
  = List.concat
      (imap (fun i kv =>
               [dict_head d (Z.of_nat (length items)) (Z.of_nat i) (fst kv);
                str_mul PIPE d ++ u "└── value"]) items)
  /\ List.map snd (build_tree_kinds (VDict items) d)
     = build_tree (VDict items) d
  /\ List.map fst (build_tree_kinds (VDict items) d)
     = List.concat (List.map (fun _ => [EntryLine; LeafMarker]) items).
Proof.
  intros H. split; [|split].
  - rewrite build_tree_VDict. apply (dict_rows_scalars d _ items H 0%nat).
  - apply build_tree_kinds_lines.
  - apply build_tree_kinds_scalars, H.
Qed.

Lemma build_tree_scalar_map_witness :
  let items := [(u "b", VScalar (SInt 1)); (u "c", VScalar (SStr (u "x")))] in
  Forall (fun kv => is_container (snd kv) = false) items
  /\ build_tree (VDict items) 2
     = [u "│   ├── b"; u "│   │   └── value"; u "│   └── c"; u "│   │   └── value"].
Proof.
  cbn zeta. split.
  - repeat constructor.
  - refine (eq_trans (proj1 (build_tree_scalar_map _ 2 _)) _).
    + repeat constructor.
    + vm_compute. reflexivity.
Defined.

(** C7, as stated, fails: the four keys of [{"a": {"x": 1}, "b": {"x": 1}}]
    give the lines [a], [└── x], [b], [└── x], of which three are distinct. *)
Lemma distinct_entry_lines_fewer :
  entry_lines twin_maps 0 = [u "a"; u "└── x"; u "b"; u "└── x"]
  /\ length (remove_dups (entry_lines twin_maps 0)) = 3%nat
  /\ count_entries twin_maps = 4%nat.
Proof. vm_compute. repeat split. Qed.

(** C7, amended: for every value and every depth, the lines of [build_tree]
    that are not leaf markers, each counted as often as it is written, are
    as many as the keys and indices over all levels of the nesting. *)
Theorem entry_line_count v d :
  List.map snd (build_tree_kinds v d) = build_tree v d
  /\ length (List.filter is_entry_line (build_tree_kinds v d))
     = count_entries v.
Proof.
  split; [apply build_tree_kinds_lines|].
  rewrite <- (entry_lines_count v d). unfold entry_lines.
  rewrite List.length_map. reflexivity.
Qed.

(** ** The named-tree renderer *)

Lemma tree_to_md_lines_unfold name children prefix is_last :
  tree_to_md_lines name (Dict children) prefix is_last
  = (if str_truthy prefix
     then prefix ++ (if is_last then ELBOW else TEE) ++ name else name)
    :: child_rows (prefix ++ (if is_last then BLANK else PIPE))
         (Z.of_nat (length children)) 0 children.
Proof.
  cbn [tree_to_md_lines]. f_equal.
  set (n := Z.of_nat (length children)). clearbody n.
  generalize 0. induction children as [|[cn cs] rest IH]; intros i;
    [reflexivity|].
  cbn [child_rows]. rewrite <- IH. reflexivity.
Qed.

Lemma child_rows_last cp n init cn cs :
  forall idx,
  idx + Z.of_nat (length init) = n - 1 ->
  child_rows cp n idx (init ++ [(cn, cs)])
  = flat_map (fun c => tree_to_md_lines (fst c) (snd c) cp false) init
    ++ tree_to_md_lines cn cs cp true.
Proof.
  induction init as [|[k t] init IH]; intros idx H; cbn [length] in H.
  - cbn [app child_rows flat_map]. replace (idx =? n - 1) with true.
    + apply app_nil_r.
    + symmetry. apply Z.eqb_eq. lia.
  - cbn [app child_rows flat_map fst snd].
    replace (idx =? n - 1) with false.
    + rewrite IH by lia. rewrite app_assoc. reflexivity.
    + symmetry. apply Z.eqb_neq. lia.
Qed.

(** C3: [tree_to_md_lines] writes the bare name when the prefix is empty,
    and otherwise the prefix, the connector ([└── ] for a last child,
    [├── ] for any other) and the name; the children follow in their stored
    order, under the prefix extended by four blanks below a last child and
    by the vertical-bar piece otherwise, the final child alone being
    rendered as last; a node without children gives its own line only. The
    first call, with the empty prefix and [is_last] true, is the case of
    the third part. *)
Theorem tree_to_md_lines_rule (name prefix : str) (is_last : bool) :
  let connector := if is_last then u "└── " else u "├── " in
  let line :=
    match prefix with
    | [] => name
    | _ :: _ => prefix ++ connector ++ name
    end in
  let child_prefix := prefix ++ (if is_last then u "    " else u "│   ") in
  tree_to_md_lines name (Dict []) prefix is_last = [line]
  /\ (forall init child_name child_subtree,
        tree_to_md_lines name (Dict (init ++ [(child_name, child_subtree)]))
          prefix is_last
        = line
          :: flat_map
               (fun c => tree_to_md_lines (fst c) (snd c) child_prefix false)
               init
          ++ tree_to_md_lines child_name child_subtree child_prefix true)
  /\ (forall init child_name child_subtree,
        tree_to_md_lines name (Dict (init ++ [(child_name, child_subtree)]))
          [] true
        = name
          :: flat_map
               (fun c => tree_to_md_lines (fst c) (snd c) (u "    ") false)
               init
          ++ tree_to_md_lines child_name child_subtree (u "    ") true).
Proof.
  cbn zeta.
  assert (Hline : forall (p : str) (l : bool),
    (if str_truthy p then p ++ (if l then ELBOW else TEE) ++ name else name)
    = match p with
      | [] => name
      | _ :: _ => p ++ (if l then u "└── " else u "├── ") ++ name
      end).
  { intros [|c p] l; reflexivity. }
  split; [|split].
  - rewrite tree_to_md_lines_unfold, Hline. reflexivity.
  - intros init cn cs. rewrite tree_to_md_lines_unfold, Hline. f_equal.
    apply child_rows_last. rewrite length_app. cbn [length]. lia.
  - intros init cn cs. rewrite tree_to_md_lines_unfold. cbn [str_truthy].
    f_equal. apply child_rows_last. rewrite length_app. cbn [length]. lia.
Qed.

(** C1: on the body lines of the scenario the keys and the hierarchy are
    recovered as the spec says ([root] over [foo] and [bar], [bar] over
    [baz]), but the lines [tree_to_md_lines] writes are not the four the
    spec lists: every line under the root is shifted right by four blanks. *)
Theorem foo_bar_pipeline ua :
  find_property_keys ua foo_bar_body
  = Ok [(2, u "foo"); (2, u "bar"); (4, u "baz")]
  /\ build_tree_from_keys (u "root") [(2, u "foo"); (2, u "bar"); (4, u "baz")]
     = Ok (Dict [(u "root", foo_bar_tree)])
  /\ tree_to_md_lines (u "root") foo_bar_tree [] true
     = [u "root"; u "    ├── foo"; u "    └── bar"; u "        └── baz"]
  /\ tree_to_md_lines (u "root") foo_bar_tree [] true
     <> [u "root"; u "├── foo"; u "└── bar"; u "    └── baz"].
Proof.
  split; [|split; [|split]]; vm_compute; try reflexivity.
  intros H. discriminate H.
Qed.

(** ** The indentation heuristic: base, step and level *)

Lemma fold_left_min_spec (l : list Z) :
  forall x,
  (fold_left Z.min l x = x \/ fold_left Z.min l x ∈ l)
  /\ fold_left Z.min l x <= x
  /\ (forall y, y ∈ l -> fold_left Z.min l x <= y).
Proof.
  induction l as [|a l IH]; intros x; cbn [fold_left].
  - split; [left; reflexivity|]. split; [lia|]. intros y Hy. inversion Hy.
  - destruct (IH (Z.min x a)) as (Hmem & Hle & Hall). split; [|split].
    + destruct Hmem as [->|Hin].
      * destruct (Z.min_spec x a) as [[_ ->]|[_ ->]];
          [left; reflexivity | right; left].
      * right. right. exact Hin.
    + lia.
    + intros y Hy. apply elem_of_cons in Hy as [->|Hy]; [lia | auto].
Qed.

Lemma py_min_spec (l : list Z) :
  l <> [] ->
  exists m, py_min l = Ok m /\ m ∈ l /\ (forall y, y ∈ l -> m <= y).
Proof.
  destruct l as [|x l]; [congruence|]. intros _.
  destruct (fold_left_min_spec l x) as (Hmem & Hle & Hall).
  exists (fold_left Z.min l x). split; [reflexivity|]. split.
  - destruct Hmem as [->|Hin]; [left | right; exact Hin].
  - intros y Hy. apply elem_of_cons in Hy as [->|Hy]; [lia | auto].
Qed.

Lemma elem_of_sorted_diffs base (records : list (Z * str)) d :
  d ∈ sorted_diffs base records
  <-> exists r, r ∈ records /\ 0 < fst r - base /\ d = fst r - base.
Proof.
  unfold sorted_diffs. rewrite merge_sort_Permutation.
  rewrite elem_of_elements, elem_of_list_to_set, list_elem_of_In, in_map_iff.
  split.
  - intros (r & <- & Hr). apply List.filter_In in Hr as [Hr Hpos].
    exists r. rewrite list_elem_of_In. split; [exact Hr|]. split; [lia|reflexivity].
  - intros (r & Hr & Hpos & ->). exists r. split; [reflexivity|].
    apply List.filter_In. rewrite <- list_elem_of_In. split; [exact Hr|].
    apply Z.ltb_lt. lia.
Qed.

Lemma sorted_diffs_sorted base (records : list (Z * str)) :
  StronglySorted Z.le (sorted_diffs base records).
Proof. unfold sorted_diffs. apply StronglySorted_merge_sort; apply _. Qed.

(** The step is positive, whatever the records are. *)
Lemma indent_step_pos base (records : list (Z * str)) :
  0 < indent_step_of base records.
Proof.
  unfold indent_step_of.
  destruct (sorted_diffs base records) as [|d l] eqn:E; [lia|].
  assert (Hd : d ∈ sorted_diffs base records) by (rewrite E; left).
  apply elem_of_sorted_diffs in Hd as (r & _ & Hpos & ->). exact Hpos.
Qed.

Lemma indent_step_spec base (records : list (Z * str)) :
  let step := indent_step_of base records in
  ((exists r, r ∈ records /\ 0 < fst r - base) ->
     (exists r, r ∈ records /\ step = fst r - base)
     /\ (forall r, r ∈ records -> 0 < fst r - base -> step <= fst r - base))
  /\ ((forall r, r ∈ records -> fst r - base <= 0) -> step = 2).
Proof.
  cbn zeta. unfold indent_step_of.
  pose proof (sorted_diffs_sorted base records) as Hs.
  pose proof (elem_of_sorted_diffs base records) as Hmem.
  destruct (sorted_diffs base records) as [|d l]; split.
  - intros (r & Hr & Hpos). exfalso.
    assert (H : fst r - base ∈ @nil Z) by (apply Hmem; eauto).
    inversion H.
  - reflexivity.
  - intros _. split.
    + destruct (proj1 (Hmem d)) as (r & Hr & _ & ->); [left|]. eauto.
    + intros r Hr Hpos.
      assert (H : fst r - base ∈ d :: l) by (apply Hmem; eauto).
      apply elem_of_cons in H as [<-|H]; [lia|].
      apply StronglySorted_inv in Hs as [_ Hall].
      rewrite Forall_forall in Hall. apply Hall. exact H.
  - intros Hall. exfalso.
    destruct (proj1 (Hmem d)) as (r & Hr & Hpos & _); [left|].
    specialize (Hall r Hr). lia.
Qed.

Lemma level_of_spec base step indent :
  0 < step ->
  level_of base step indent = Ok (Z.max 1 (1 + (indent - base) / step)).
Proof.
  intros Hstep. unfold level_of, floordiv.
  destruct (Z.eqb_spec step 0) as [->|_]; [lia|]. cbn [bind]. f_equal.
  destruct (Z.ltb_spec (1 + (indent - base) / step) 1); lia.
Qed.

Lemma base_indent_spec (records : list (Z * str)) :
  records <> [] ->
  exists base,
    base_indent_of records = Ok base
    /\ (exists r, r ∈ records /\ fst r = base)
    /\ (forall r, r ∈ records -> base <= fst r).
Proof.
  intros Hne. unfold base_indent_of.
  destruct (py_min_spec (List.map fst records)) as (m & Hm & Hin & Hall).
  { destruct records; [congruence | discriminate]. }
  exists m. split; [exact Hm|]. split.
  - apply list_elem_of_In, in_map_iff in Hin as (r & <- & Hr).
    exists r. rewrite list_elem_of_In. auto.
  - intros r Hr. apply Hall. apply list_elem_of_In, in_map.
    apply list_elem_of_In, Hr.
Qed.

(** ** The stack of the hierarchy builder *)

Lemma str_eqb_eq (a b : str) : str_eqb a b = true <-> a = b.
Proof.
  revert b. induction a as [|x a IH]; intros [|y b]; cbn [str_eqb];
    try (split; [discriminate | congruence]); [split; reflexivity|].
  rewrite andb_true_iff, IH. unfold char_eqb. rewrite N.eqb_eq.
  split; [intros [-> ->]; reflexivity | intros [= -> ->]; auto].
Qed.

Lemma contains_getitem l key :
  contains l key = true <-> exists v, getitem l key = Ok v.
Proof.
  induction l as [|[k v] l IH]; cbn [contains getitem].
  - split; [discriminate | intros [v Hv]; discriminate Hv].
  - destruct (str_eqb k key); cbn [orb]; [|exact IH].
    split; [eauto | reflexivity].
Qed.

Lemma getitem_app_l l l' key v :
  getitem l key = Ok v -> getitem (l ++ l') key = Ok v.
Proof.
  induction l as [|[k x] l IH]; cbn [getitem app]; [discriminate|].
  destruct (str_eqb k key); auto.
Qed.

Lemma contains_app l l' key :
  contains (l ++ l') key = contains l key || contains l' key.
Proof.
  induction l as [|[k x] l IH]; cbn [contains app]; [reflexivity|].
  rewrite IH. apply orb_assoc.
Qed.

Lemma add_key_contains key parent :
  contains (items (add_key key parent)) key = true.
Proof.
  unfold add_key. destruct (contains (items parent) key) eqn:E; [exact E|].
  cbn [items]. rewrite contains_app. cbn [contains].
  replace (str_eqb key key) with true; [apply orb_true_r|].
  symmetry. apply str_eqb_eq. reflexivity.
Qed.

Lemma add_key_getitem key parent k v :
  getitem (items parent) k = Ok v ->
  getitem (items (add_key key parent)) k = Ok v.
Proof.
  intros H. unfold add_key. destruct (contains (items parent) key); [exact H|].
  cbn [items]. apply getitem_app_l, H.
Qed.

Lemma str_eqb_spec (a b : str) : reflect (a = b) (str_eqb a b).
Proof.
  destruct (str_eqb a b) eqn:E; constructor.
  - apply str_eqb_eq, E.
  - intros H. apply str_eqb_eq in H. congruence.
Qed.

Lemma getitem_change_child l key f k :
  getitem (change_child key f l) k
  = match getitem l k with
    | Ok v => Ok (if str_eqb key k then f v else v)
    | Err e => Err e
    end.
Proof.
  induction l as [|[k0 v0] l IH]; cbn [change_child getitem]; [reflexivity|].
  destruct (str_eqb_spec k0 key) as [->|Hne0]; cbn [getitem].
  - destruct (str_eqb_spec key k) as [->|Hne1]; [reflexivity|].
    destruct (getitem l k); reflexivity.
  - destruct (str_eqb_spec k0 k) as [->|Hne1]; [|exact IH].
    destruct (str_eqb_spec key k) as [->|_]; [congruence | reflexivity].
Qed.

(** A write of [add_key] keeps every reference valid. *)
Lemma deref_write_at key p :
  forall d r x,
  deref r d = Ok x ->
  exists x', deref r (write_at p (add_key key) d) = Ok x'.
Proof.
  induction p as [|k0 p IH]; intros d r x Hr; cbn [write_at].
  - destruct r as [|k r]; cbn [deref] in *; [eauto|].
    destruct (getitem (items d) k) as [c|] eqn:E; [|discriminate Hr].
    rewrite (add_key_getitem _ _ _ _ E). cbn [bind] in *. eauto.
  - destruct r as [|k r]; cbn [deref] in *; [eauto|].
    cbn [items]. rewrite getitem_change_child.
    destruct (getitem (items d) k) as [c|]; [|discriminate Hr].
    cbn [bind] in *. destruct (str_eqb k0 k); eauto.
Qed.

(** After the write through [p], the key is a child of the container at
    [p], and the reference to that child is valid. *)
Lemma deref_write_at_child key p :
  forall d x,
  deref p d = Ok x ->
  (exists pd, deref p (write_at p (add_key key) d) = Ok pd
              /\ contains (items pd) key = true)
  /\ (exists c, deref (p ++ [key]) (write_at p (add_key key) d) = Ok c).
Proof.
  induction p as [|k0 p IH]; intros d x Hp; cbn [write_at app].
  - pose proof (add_key_contains key d) as Hc. split.
    + exists (add_key key d). split; [reflexivity | exact Hc].
    + apply contains_getitem in Hc as [c Hc]. exists c.
      cbn [deref]. rewrite Hc. reflexivity.
  - cbn [deref] in *. cbn [items]. rewrite getitem_change_child.
    destruct (getitem (items d) k0) as [c|]; [|discriminate Hp].
    cbn [bind] in *.
    replace (str_eqb k0 k0) with true
      by (symmetry; apply str_eqb_eq; reflexivity).
    apply (IH c x Hp).
Qed.

Lemma initial_builder_inv : stack_inv initial_builder.
Proof.
  split; cbn.
  - reflexivity.
  - repeat constructor.
  - repeat constructor. exists (Dict []). reflexivity.
Qed.

(** On a stack whose levels fall, the pop loop keeps exactly the entries
    below the level. *)
Lemma pop_to_filter level s :
  StronglySorted falls s ->
  pop_to level s = filter (fun e => fst e < level) s.
Proof.
  induction 1 as [|[l c] s Hs IH Hall]; [reflexivity|]. cbn [pop_to].
  destruct (Z.geb_spec l level) as [Hge|Hlt].
  - rewrite IH, filter_cons_False; [reflexivity | cbn; lia].
  - rewrite filter_cons_True by (cbn; lia). f_equal.
    symmetry. clear IH Hs. induction Hall as [|e s He _ IH]; [reflexivity|].
    rewrite filter_cons_True, IH; [reflexivity|].
    unfold falls in He. cbn in *. lia.
Qed.

Lemma pop_to_suffix level s : exists popped, s = popped ++ pop_to level s.
Proof.
  induction s as [|[l c] s [popped IH]]; [exists []; reflexivity|].
  cbn [pop_to]. destruct (l >=? level).
  - exists ((l, c) :: popped). cbn [app]. f_equal. exact IH.
  - exists []. reflexivity.
Qed.

Lemma pop_to_bottom level s r :
  last s = Some (-1, r) -> 1 <= level -> last (pop_to level s) = Some (-1, r).
Proof.
  induction s as [|[l c] s IH]; [discriminate|]. intros Hlast Hlevel.
  cbn [pop_to]. destruct (Z.geb_spec l level) as [Hge|Hlt]; [|exact Hlast].
  apply IH; [|exact Hlevel]. destruct s as [|e s]; [|exact Hlast].
  cbn in Hlast. injection Hlast as -> _. lia.
Qed.

Lemma attach_all_app base step pre post b :
  attach_all base step (pre ++ post) b
  = (let* b' := attach_all base step pre b in attach_all base step post b').
Proof.
  revert b. induction pre as [|r pre IH]; intros b; [reflexivity|].
  cbn [app attach_all]. destruct (attach base step b r); [apply IH|reflexivity].
Qed.

(** One record: the level is at least 1, the pop loop leaves the entries
    below the level, the bottom one among them, and the key is attached
    under the container on top of what is left. *)
Lemma attach_spec base step b indent key :
  0 < step ->
  stack_inv b ->
  exists level parent plevel rest b',
    level_of base step indent = Ok level
    /\ 1 <= level
    /\ pop_to level (stack b) = (plevel, parent) :: rest
    /\ filter (fun e => fst e < level) (stack b) = (plevel, parent) :: rest
    /\ last ((plevel, parent) :: rest) = Some (-1, [])
    /\ attach base step b (indent, key) = Ok b'
    /\ stack b' = (level, parent ++ [key]) :: (plevel, parent) :: rest
    /\ root_container b' = write_at parent (add_key key) (root_container b)
    /\ (exists pd, deref parent (root_container b') = Ok pd
                   /\ contains (items pd) key = true)
    /\ stack_inv b'.
Proof.
  intros Hstep [Hbot Hsorted Hrefs].
  pose proof (level_of_spec base step indent Hstep) as Hlevel.
  set (level := Z.max 1 (1 + (indent - base) / step)) in *.
  assert (Hge : 1 <= level) by (unfold level; lia).
  pose proof (pop_to_bottom level _ _ Hbot Hge) as Hbot'.
  pose proof (pop_to_filter level _ Hsorted) as Hfilter.
  destruct (pop_to_suffix level (stack b)) as [popped Hsuffix].
  destruct (pop_to level (stack b)) as [|[plevel parent] rest] eqn:Hpop;
    [discriminate Hbot'|].
  assert (Hparent : exists d, deref parent (root_container b) = Ok d).
  { rewrite Forall_forall in Hrefs. apply (Hrefs (plevel, parent)).
    rewrite Hsuffix. apply elem_of_app. right. left. }
  destruct Hparent as [d Hd].
  destruct (deref_write_at_child key parent _ _ Hd) as [Hchild Hnew].
  exists level, parent, plevel, rest.
  exists (Builder (write_at parent (add_key key) (root_container b))
            ((level, parent ++ [key]) :: (plevel, parent) :: rest)).
  split; [exact Hlevel|]. split; [exact Hge|]. split; [exact Hpop|].
  split; [symmetry; exact Hfilter|]. split; [exact Hbot'|].
  split; [unfold attach; rewrite Hlevel; cbn [bind]; rewrite Hpop; reflexivity|].
  split; [reflexivity|]. split; [reflexivity|]. split; [exact Hchild|].
  split; cbn [stack root_container].
  - exact Hbot'.
  - constructor.
    + rewrite Hsuffix in Hsorted. apply StronglySorted_app_1_r in Hsorted.
      exact Hsorted.
    + apply Forall_forall. intros e He. rewrite Hfilter in He.
      apply list_elem_of_filter in He as [He _]. unfold falls. cbn. exact He.
  - constructor; [exact Hnew|].
    rewrite Hsuffix in Hrefs. apply Forall_app in Hrefs as [_ Hrefs].
    eapply Forall_impl; [exact Hrefs|]. intros e [x Hx].
    apply (deref_write_at key parent _ _ _ Hx).
Qed.

Lemma attach_all_inv base step records :
  0 < step ->
  forall b, stack_inv b ->
  exists b', attach_all base step records b = Ok b' /\ stack_inv b'.
Proof.
  intros Hstep. induction records as [|[indent key] records IH]; intros b Hb.
  - exists b. split; [reflexivity | exact Hb].
  - destruct (attach_spec base step b indent key Hstep Hb)
      as (level & parent & plevel & rest & b1 & _ & _ & _ & _ & _ & Hat
          & _ & _ & _ & Hb1).
    destruct (IH b1 Hb1) as (b' & Hall & Hb').
    exists b'. split; [|exact Hb']. cbn [attach_all]. rewrite Hat. exact Hall.
Qed.

Lemma sorted_reverse (s : list (Z * ref)) :
  StronglySorted falls s -> StronglySorted Z.lt (List.map fst (reverse s)).
Proof.
  induction 1 as [|e s Hs IH Hall]; [constructor|].
  rewrite reverse_cons, List.map_app. apply StronglySorted_app_2.
  - intros x1 x2 H1 H2. apply list_elem_of_In, in_map_iff in H1 as (y & <- & Hy).
    apply list_elem_of_In in Hy. rewrite elem_of_reverse in Hy.
    apply list_elem_of_singleton in H2 as ->.
    rewrite Forall_forall in Hall. apply (Hall y Hy).
  - exact IH.
  - repeat constructor.
Qed.

(** C4: after any number of records the stack starts with the entry of the
    root at level -1 and its levels increase strictly up to its last entry,
    which is the entry of the key inserted last; and the next record, of
    level [L], leaves on the stack exactly the entries of a level below [L],
    in their order, attaches its key as a child of the container of the
    last of them, and pushes its own entry. *)
Theorem stack_discipline (pre post : list (Z * str)) :
  pre ++ post <> [] ->
  exists base b,
    base_indent_of (pre ++ post) = Ok base
    /\ attach_all base (indent_step_of base (pre ++ post)) pre initial_builder
       = Ok b
    /\ head (py_stack b) = Some (-1, [])
    /\ StronglySorted Z.lt (List.map fst (py_stack b))
    /\ (forall pre' indent key,
          pre = pre' ++ [(indent, key)] ->
          exists level parent child,
            level_of base (indent_step_of base (pre ++ post)) indent = Ok level
            /\ last (py_stack b) = Some (level, parent ++ [key])
            /\ deref (parent ++ [key]) (root_container b) = Ok child)
    /\ (forall indent key post',
          post = (indent, key) :: post' ->
          exists level plevel parent b',
            level_of base (indent_step_of base (pre ++ post)) indent = Ok level
            /\ attach base (indent_step_of base (pre ++ post)) b (indent, key)
               = Ok b'
            /\ last (filter (fun e => fst e < level) (py_stack b))
               = Some (plevel, parent)
            /\ py_stack b'
               = filter (fun e => fst e < level) (py_stack b)
                 ++ [(level, parent ++ [key])]
            /\ exists pd, deref parent (root_container b') = Ok pd
                          /\ contains (items pd) key = true).
Proof.
  intros Hne.
  destruct (base_indent_spec _ Hne) as (base & Hbase & _).
  pose proof (indent_step_pos base (pre ++ post)) as Hstep.
  set (step := indent_step_of base (pre ++ post)) in *.
  destruct (attach_all_inv base step pre Hstep _ initial_builder_inv)
    as (b & Hb & Hinv).
  exists base, b. split; [exact Hbase|]. split; [exact Hb|].
  unfold py_stack. split; [|split; [|split]].
  - rewrite head_reverse. apply Hinv.
  - apply sorted_reverse, Hinv.
  - intros pre' indent key ->. rewrite attach_all_app in Hb.
    destruct (attach_all_inv base step pre' Hstep _ initial_builder_inv)
      as (b0 & Hb0 & Hinv0).
    rewrite Hb0 in Hb. cbn [bind attach_all] in Hb.
    destruct (attach_spec base step b0 indent key Hstep Hinv0)
      as (level & parent & plevel & rest & b1 & Hlevel & _ & _ & _ & _ & Hat
          & Hstack & _ & _ & _).
    rewrite Hat in Hb. cbn [bind] in Hb. injection Hb as <-.
    pose proof (inv_refs _ Hinv) as Hrefs. rewrite Hstack in Hrefs.
    apply Forall_cons in Hrefs as [[child Hchild] _].
    exists level, parent, child. split; [exact Hlevel|].
    split; [|exact Hchild]. rewrite last_reverse, Hstack. reflexivity.
  - intros indent key post' _.
    destruct (attach_spec base step b indent key Hstep Hinv)
      as (level & parent & plevel & rest & b' & Hlevel & _ & _ & Hfilter & _
          & Hat & Hstack & _ & Hchild & _).
    exists level, plevel, parent, b'. split; [exact Hlevel|].
    split; [exact Hat|]. rewrite filter_reverse, Hfilter, Hstack.
    split; [rewrite last_reverse; reflexivity|].
    split; [rewrite (reverse_cons (_ :: rest)); reflexivity | exact Hchild].
Qed.

Lemma stack_discipline_witness :
  [(2, u "foo"); (2, u "bar")] ++ [(4, u "baz")] <> []
  /\ exists base b,
       base_indent_of ([(2, u "foo"); (2, u "bar")] ++ [(4, u "baz")]) = Ok base
       /\ attach_all base
            (indent_step_of base ([(2, u "foo"); (2, u "bar")] ++ [(4, u "baz")]))
            [(2, u "foo"); (2, u "bar")] initial_builder = Ok b
       /\ head (py_stack b) = Some (-1, [])
       /\ StronglySorted Z.lt (List.map fst (py_stack b)).
Proof.
  split; [discriminate|].
  destruct (stack_discipline [(2, u "foo"); (2, u "bar")] [(4, u "baz")])
    as (base & b & H1 & H2 & H3 & H4 & _); [discriminate|].
  exists base, b. auto.
Defined.

(** C5: for a non-empty list of records, the base is the least indent of
    the records; the step is the least strictly positive difference between
    an indent and the base, and 2 when there is none; the level of a record
    is one plus the floor of its difference to the base divided by the
    step, and at least 1. That is the level the loop of
    [build_tree_from_keys] gives the record: when the loop reaches it, it
    keeps on the stack the entries below that level and pushes the entry of
    the key with that level; the loop goes through all the records and the
    tree it has built is what is returned. *)
Theorem indent_levels (const_name : str) (records : list (Z * str)) :
  records <> [] ->
  exists base,
    base_indent_of records = Ok base
    /\ (exists r, r ∈ records /\ fst r = base)
    /\ (forall r, r ∈ records -> base <= fst r)
    /\ ((exists r, r ∈ records /\ 0 < fst r - base) ->
          (exists r, r ∈ records /\ indent_step_of base records = fst r - base)
          /\ (forall r, r ∈ records -> 0 < fst r - base ->
                indent_step_of base records <= fst r - base))
    /\ ((forall r, r ∈ records -> fst r - base <= 0) ->
          indent_step_of base records = 2)
    /\ (forall r, r ∈ records ->
          exists q,
            indent_step_of base records * q <= fst r - base
              < indent_step_of base records * (q + 1)
            /\ level_of base (indent_step_of base records) (fst r)
               = Ok (Z.max 1 (1 + q)))
    /\ (forall pre indent key post,
          records = pre ++ (indent, key) :: post ->
          exists q b b' parent,
            indent_step_of base records * q <= indent - base
              < indent_step_of base records * (q + 1)
            /\ attach_all base (indent_step_of base records) pre
                 initial_builder = Ok b
            /\ attach_all base (indent_step_of base records)
                 (pre ++ [(indent, key)]) initial_builder = Ok b'
            /\ py_stack b'
               = filter (fun e => fst e < Z.max 1 (1 + q)) (py_stack b)
                 ++ [(Z.max 1 (1 + q), parent ++ [key])])
    /\ exists b,
         attach_all base (indent_step_of base records) records initial_builder
         = Ok b
         /\ build_tree_from_keys const_name records
            = Ok (Dict [(const_name, root_container b)]).
Proof.
  intros Hne. destruct (base_indent_spec records Hne) as (base & Hb & Hin & Hle).
  exists base. pose proof (indent_step_pos base records) as Hpos.
  destruct (indent_step_spec base records) as [Hstep Hdef].
  assert (Hfloor : forall indent,
            indent_step_of base records
              * ((indent - base) / indent_step_of base records)
            <= indent - base
            < indent_step_of base records
              * ((indent - base) / indent_step_of base records + 1)).
  { intros indent.
    pose proof (Z.mul_div_le (indent - base) _ Hpos).
    pose proof (Z.mul_succ_div_gt (indent - base) _ Hpos). lia. }
  split; [exact Hb|]. split; [exact Hin|]. split; [exact Hle|].
  split; [exact Hstep|]. split; [exact Hdef|]. split; [|split].
  - intros r Hr. exists ((fst r - base) / indent_step_of base records).
    split; [apply Hfloor | apply level_of_spec, Hpos].
  - intros pre indent key post Hsplit.
    set (step := indent_step_of base records) in *. clearbody step.
    destruct (attach_all_inv base step pre Hpos _ initial_builder_inv)
      as (b & Hrun & Hinv).
    destruct (attach_spec base step b indent key Hpos Hinv)
      as (level & parent & plevel & rest & b' & Hlevel & _ & _ & Hfilter & _
          & Hat & Hstack & _).
    rewrite (level_of_spec base step indent Hpos) in Hlevel.
    injection Hlevel as <-.
    exists ((indent - base) / step), b, b', parent.
    split; [apply Hfloor|]. split; [exact Hrun|]. split.
    + rewrite attach_all_app, Hrun. cbn [bind attach_all]. rewrite Hat.
      reflexivity.
    + unfold py_stack.
      rewrite filter_reverse, Hfilter, Hstack, (reverse_cons (_ :: rest)).
      reflexivity.
  - destruct (attach_all_inv base _ records Hpos _ initial_builder_inv)
      as (b & Hrun & _).
    exists b. split; [exact Hrun|].
    unfold build_tree_from_keys. rewrite Hb. cbn [bind]. rewrite Hrun.
    reflexivity.
Qed.

Lemma indent_levels_witness :
  [(2, u "foo"); (2, u "bar"); (4, u "baz")] <> []
  /\ exists base,
       base_indent_of [(2, u "foo"); (2, u "bar"); (4, u "baz")] = Ok base
       /\ (forall r, r ∈ [(2, u "foo"); (2, u "bar"); (4, u "baz")] ->
             base <= fst r)
       /\ exists q b b' parent,
            attach_all base
              (indent_step_of base [(2, u "foo"); (2, u "bar"); (4, u "baz")])
              ([(2, u "foo"); (2, u "bar")] ++ [(4, u "baz")]) initial_builder
            = Ok b'
            /\ py_stack b'
               = filter (fun e => fst e < Z.max 1 (1 + q)) (py_stack b)
                 ++ [(Z.max 1 (1 + q), parent ++ [u "baz"])].
Proof.
  split; [discriminate|].
  destruct (indent_levels (u "root") [(2, u "foo"); (2, u "bar"); (4, u "baz")])
    as (base & Hb & _ & Hle & _ & _ & _ & Hloop & _); [discriminate|].
  destruct (Hloop [(2, u "foo"); (2, u "bar")] 4 (u "baz") [] eq_refl)
    as (q & b & b' & parent & _ & _ & Hrun & Hstack).
  exists base. split; [exact Hb|]. split; [exact Hle|].
  exists q, b, b', parent. split; [exact Hrun | exact Hstack].
Defined.

(** C9: for a non-empty list of records the step is positive and no indent
    is below the base, so the level computed for a record is at least 1
    before the clamp, which changes nothing; the pop loop therefore stops
    at the latest at the entry of the root, which stays at the bottom of
    the stack; the stack is not empty when the parent is read, every record
    is attached, and [build_tree_from_keys] returns a tree. *)
Theorem root_entry_stays (const_name : str) (records : list (Z * str)) :
  records <> [] ->
  exists base,
    base_indent_of records = Ok base
    /\ 0 < indent_step_of base records
    /\ (forall r, r ∈ records ->
          0 <= fst r - base
          /\ 1 <= 1 + (fst r - base) / indent_step_of base records
          /\ level_of base (indent_step_of base records) (fst r)
             = Ok (1 + (fst r - base) / indent_step_of base records))
    /\ (forall pre r post,
          records = pre ++ r :: post ->
          exists b level b',
            attach_all base (indent_step_of base records) pre initial_builder
              = Ok b
            /\ level_of base (indent_step_of base records) (fst r) = Ok level
            /\ head (reverse (pop_to level (stack b))) = Some (-1, [])
            /\ pop_to level (stack b) <> []
            /\ attach base (indent_step_of base records) b r = Ok b')
    /\ exists tree, build_tree_from_keys const_name records = Ok tree.
Proof.
  intros Hne.
  destruct (base_indent_spec _ Hne) as (base & Hbase & _ & Hle).
  pose proof (indent_step_pos base records) as Hstep.
  set (step := indent_step_of base records) in *.
  exists base. split; [exact Hbase|]. split; [exact Hstep|].
  split; [|split].
  - intros r Hr. specialize (Hle r Hr).
    assert (Hq : 0 <= (fst r - base) / indent_step_of base records)
      by (apply Z.div_pos; [lia | exact Hstep]).
    rewrite level_of_spec by exact Hstep.
    generalize dependent ((fst r - base) / indent_step_of base records).
    intros q Hq. split; [lia|]. split; [lia|]. f_equal. lia.
  - intros pre [indent key] post _.
    destruct (attach_all_inv base step pre Hstep _ initial_builder_inv)
      as (b & Hb & Hinv).
    destruct (attach_spec base step b indent key Hstep Hinv)
      as (level & parent & plevel & rest & b' & Hlevel & _ & Hpop & _ & Hbot
          & Hat & _).
    exists b, level, b'. split; [exact Hb|]. split; [exact Hlevel|].
    rewrite Hpop, head_reverse. split; [exact Hbot|].
    split; [discriminate | exact Hat].
  - destruct (attach_all_inv base step records Hstep _ initial_builder_inv)
      as (b & Hb & _).
    exists (Dict [(const_name, root_container b)]).
    unfold build_tree_from_keys. rewrite Hbase. cbn [bind]. fold step.
    rewrite Hb. reflexivity.
Qed.

Lemma root_entry_stays_witness :
  [(2, u "foo"); (2, u "bar"); (4, u "baz")] <> []
  /\ exists tree,
       build_tree_from_keys (u "root") [(2, u "foo"); (2, u "bar"); (4, u "baz")]
       = Ok tree.
Proof.
  split; [discriminate|].
  destruct (root_entry_stays (u "root")
              [(2, u "foo"); (2, u "bar"); (4, u "baz")])
    as (base & _ & _ & _ & _ & Htree); [discriminate | exact Htree].
Defined.

(** ** What the patterns match *)

Lemma after_run_cons prev c w : after_run prev (c :: w) = after_run (Some c) w.
Proof.
  unfold after_run. destruct w as [|c' w]; [reflexivity|].
  rewrite last_cons_cons. destruct (last (c' :: w)) eqn:E; [reflexivity|].
  apply last_None in E. discriminate E.
Qed.

Lemma after_run_app prev w1 w2 :
  after_run prev (w1 ++ w2) = after_run (after_run prev w1) w2.
Proof.
  revert prev. induction w1 as [|c w1 IH]; intros prev; [reflexivity|].
  cbn [app]. rewrite !after_run_cons. apply IH.
Qed.

Lemma star_greedy_sound {R} (p : char -> bool)
    (k : option char -> str -> option R) s :
  forall prev r,
  star_greedy p k prev s = Some r ->
  exists ws rest,
    s = ws ++ rest /\ Forall (fun c => p c = true) ws
    /\ k (after_run prev ws) rest = Some r.
Proof.
  induction s as [|c s IH]; intros prev r H; cbn [star_greedy] in H.
  - exists [], []. repeat split; [constructor | exact H].
  - destruct (p c) eqn:Hc.
    + destruct (star_greedy p k (Some c) s) as [r'|] eqn:E.
      * injection H as ->. destruct (IH _ _ E) as (ws & rest & -> & Hws & Hk).
        exists (c :: ws), rest. rewrite after_run_cons.
        repeat split; [constructor; assumption | exact Hk].
      * exists [], (c :: s). repeat split; [constructor | exact H].
    + exists [], (c :: s). repeat split; [constructor | exact H].
Qed.

Lemma star_greedy_complete {R} (p : char -> bool)
    (k : option char -> str -> option R) ws rest :
  Forall (fun c => p c = true) ws ->
  forall prev r,
  k (after_run prev ws) rest = Some r ->
  exists r', star_greedy p k prev (ws ++ rest) = Some r'.
Proof.
  induction 1 as [|c ws Hc _ IH]; intros prev r Hk.
  - cbn [app]. destruct rest as [|c s]; cbn [star_greedy]; [eauto|].
    destruct (p c); [|eauto].
    destruct (star_greedy p k (Some c) s); eauto.
  - cbn [app star_greedy]. rewrite Hc. rewrite after_run_cons in Hk.
    destruct (IH _ _ Hk) as [r' ->]. eauto.
Qed.

Lemma startswith_app (s w : str) :
  startswith s w = true <-> exists rest, s = w ++ rest.
Proof.
  revert s. induction w as [|c w IH]; intros s.
  - cbn. split; [eauto | reflexivity].
  - destruct s as [|c' s]; cbn [startswith].
    + split; [discriminate | intros [rest H]; discriminate H].
    + rewrite andb_true_iff, IH. unfold char_eqb. rewrite N.eqb_eq. split.
      * intros [-> [rest ->]]. eauto.
      * intros [rest [= -> ->]]. eauto.
Qed.

Section Patterns.

Variable ua : char -> bool.

Lemma match_here_lits w pat m :
  forall prev s,
  match_here ua (lits w ++ pat) m prev s
  = if startswith s w
    then match_here ua pat m (after_run prev w) (drop (length w) s)
    else None.
Proof.
  induction w as [|c w IH]; intros prev s; [reflexivity|].
  cbn [lits List.map app match_here]. destruct s as [|c' s]; [reflexivity|].
  cbn [startswith length drop]. destruct (char_eqb c c') eqn:E; [|reflexivity].
  apply N.eqb_eq in E as <-. cbn [andb]. rewrite after_run_cons. apply IH.
Qed.

Lemma match_here_lits_app w pat m prev rest :
  match_here ua (lits w ++ pat) m prev (w ++ rest)
  = match_here ua pat m (after_run prev w) rest.
Proof.
  rewrite match_here_lits.
  replace (startswith (w ++ rest) w) with true
    by (symmetry; apply startswith_app; eauto).
  rewrite drop_app_length. reflexivity.
Qed.

Lemma match_here_lits_inv w pat m prev s r :
  match_here ua (lits w ++ pat) m prev s = Some r ->
  exists rest, s = w ++ rest
               /\ match_here ua pat m (after_run prev w) rest = Some r.
Proof.
  rewrite match_here_lits. destruct (startswith s w) eqn:E; [|discriminate].
  apply startswith_app in E as [rest ->]. rewrite drop_app_length. eauto.
Qed.

Lemma search_from_sound pat s :
  forall prev r,
  search_from ua pat prev s = Some r ->
  exists before rest,
    s = before ++ rest
    /\ match_here ua pat no_groups (after_run prev before) rest = Some r.
Proof.
  induction s as [|c s IH]; intros prev r H; cbn [search_from] in H.
  - exists [], []. split; [reflexivity|].
    change (after_run prev []) with prev.
    destruct (match_here ua pat no_groups prev []); [exact H | discriminate H].
  - destruct (match_here ua pat no_groups prev (c :: s)) as [r'|] eqn:E.
    + injection H as ->. exists [], (c :: s). auto.
    + destruct (IH _ _ H) as (before & rest & -> & Hm).
      exists (c :: before), rest. rewrite after_run_cons. auto.
Qed.

Lemma search_from_complete pat before rest :
  forall prev r,
  match_here ua pat no_groups (after_run prev before) rest = Some r ->
  exists r', search_from ua pat prev (before ++ rest) = Some r'.
Proof.
  induction before as [|c before IH]; intros prev r H.
  - cbn [app]. destruct rest as [|c s]; cbn [search_from];
      change (after_run prev []) with prev in H; rewrite H; eauto.
  - cbn [app search_from]. rewrite after_run_cons in H.
    destruct (match_here ua pat no_groups prev (c :: before ++ rest)); eauto.
Qed.

End Patterns.

Lemma after_run_None w : after_run None w = last w.
Proof. unfold after_run. destruct (last w); reflexivity. Qed.

(** The declaration-start pattern, in words: somewhere in the line, not
    right after a word character, stands [const], then one or more white
    space, the name, any white space and an equals sign. *)
Lemma is_start_line_spec (ua : char -> bool) (const_name line : str) :
  is_start_line ua const_name line = true
  <-> exists before ws1 ws2 after,
        line = before ++ u "const" ++ ws1 ++ const_name ++ ws2
               ++ [61%N] ++ after
        /\ ws1 <> []
        /\ Forall (fun c => is_space c = true) ws1
        /\ Forall (fun c => is_space c = true) ws2
        /\ word_at ua (last before) = false.
Proof.
  unfold is_start_line, re_search, matched. split.
  - destruct (search_from ua (const_pattern const_name) None line) as [r|] eqn:E;
      [intros _ | discriminate].
    apply search_from_sound in E as (before & rest & -> & H).
    rewrite after_run_None in H. unfold const_pattern in H.
    cbn [app match_here] in H.
    destruct (xorb (word_at ua (last before)) (word_at ua (head rest))) eqn:Hb;
      [|discriminate H].
    apply match_here_lits_inv in H as (rest1 & -> & H).
    change (word_at ua (head (u "const" ++ rest1))) with true in Hb.
    cbn [app match_here] in H. destruct rest1 as [|c s]; [discriminate H|].
    destruct (is_space c) eqn:Hc; [|discriminate H].
    apply star_greedy_sound in H as (ws & rest2 & -> & Hws & H).
    apply match_here_lits_inv in H as (rest3 & -> & H).
    cbn [match_here] in H.
    apply star_greedy_sound in H as (ws2 & rest4 & -> & Hws2 & H).
    cbn [match_here] in H. destruct rest4 as [|c4 after]; [discriminate H|].
    destruct (char_eqb 61%N c4) eqn:E4; [|discriminate H].
    apply N.eqb_eq in E4 as <-.
    exists before, (c :: ws), ws2, after. split; [|split; [|split; [|split]]].
    + cbn [app]. rewrite <- ?app_assoc. reflexivity.
    + discriminate.
    + constructor; assumption.
    + exact Hws2.
    + destruct (word_at ua (last before)); [discriminate Hb | reflexivity].
  - intros (before & ws1 & ws2 & after & -> & Hne & Hws1 & Hws2 & Hb).
    destruct ws1 as [|c ws]; [congruence|].
    apply Forall_cons in Hws1 as [Hc Hws].
    assert (Hend : forall prev, exists r,
      star_greedy is_space (match_here ua [Lit 61%N] no_groups) prev
        (ws2 ++ [61%N] ++ after) = Some r).
    { intros prev. apply (star_greedy_complete _ _ _ _ Hws2 prev no_groups).
      reflexivity. }
    assert (Hname : forall prev, exists r,
      star_greedy is_space
        (match_here ua (lits const_name ++ [Star is_space; Lit 61%N]) no_groups)
        prev (ws ++ const_name ++ ws2 ++ [61%N] ++ after) = Some r).
    { intros prev.
      destruct (Hend (after_run (after_run prev ws) const_name)) as [r Hr].
      apply (star_greedy_complete _ _ _ _ Hws prev r).
      rewrite match_here_lits_app. exact Hr. }
    destruct (Hname (Some c)) as [r Hr].
    destruct (search_from_complete ua (const_pattern const_name) before
                (u "const" ++ (c :: ws) ++ const_name ++ ws2 ++ [61%N] ++ after)
                None r) as [r' ->]; [|reflexivity].
    rewrite after_run_None. unfold const_pattern. cbn [app match_here].
    change (word_at ua (head (u "const" ++ c :: ws ++ const_name ++ ws2
                              ++ 61%N :: after))) with true.
    rewrite Hb. cbn [xorb].
    rewrite (match_here_lits_app ua (u "const")). cbn [match_here].
    rewrite Hc. exact Hr.
Qed.

Lemma match_here_star (ua : char -> bool) p pat m prev s :
  match_here ua (Star p :: pat) m prev s
  = star_greedy p (match_here ua pat m) prev s.
Proof. reflexivity. Qed.

Lemma or_iff_both (A B C D : Prop) :
  (A <-> C) -> (B <-> D) -> (A \/ B <-> C \/ D).
Proof. tauto. Qed.

(** The two termination patterns, in words: the line is white space, a
    closing brace and a semicolon, and white space; or somewhere in it
    stand [export], one or more white space and [default], as words of
    their own. *)
Lemma is_end_line_spec (ua : char -> bool) (line : str) :
  is_end_line ua line = true
  <-> (exists ws1 ws2,
         line = ws1 ++ u "};" ++ ws2
         /\ Forall (fun c => is_space c = true) ws1
         /\ Forall (fun c => is_space c = true) ws2)
      \/ (exists before ws after,
            line = before ++ u "export" ++ ws ++ u "default" ++ after
            /\ ws <> []
            /\ Forall (fun c => is_space c = true) ws
            /\ word_at ua (last before) = false
            /\ word_at ua (head after) = false).
Proof.
  unfold is_end_line. rewrite orb_true_iff.
  apply or_iff_both; unfold re_match, re_search, matched; split.
  - destruct (match_here ua close_pattern no_groups None line) as [r|] eqn:E;
      [intros _ | discriminate].
    unfold close_pattern in E. cbn [match_here] in E.
    apply star_greedy_sound in E as (ws1 & rest & -> & Hws1 & H).
    cbn [match_here] in H. destruct rest as [|c1 rest]; [discriminate H|].
    destruct (char_eqb 125%N c1) eqn:E1; [|discriminate H].
    apply N.eqb_eq in E1 as <-. destruct rest as [|c2 rest]; [discriminate H|].
    destruct (char_eqb 59%N c2) eqn:E2; [|discriminate H].
    apply N.eqb_eq in E2 as <-.
    apply star_greedy_sound in H as (ws2 & rest3 & -> & Hws2 & H).
    cbn [match_here] in H. destruct rest3 as [|c3 [|c4 rest3]].
    + exists ws1, ws2. rewrite app_nil_r. auto.
    + destruct (char_eqb c3 10%N) eqn:E3; [|discriminate H].
      apply N.eqb_eq in E3 as ->. exists ws1, (ws2 ++ [10%N]).
      split; [rewrite <- ?app_assoc; reflexivity|]. split; [exact Hws1|].
      apply Forall_app. split; [exact Hws2 | repeat constructor].
    + discriminate H.
  - intros (ws1 & ws2 & -> & Hws1 & Hws2).
    destruct (star_greedy_complete is_space
                (match_here ua [EndOfString] no_groups)
                ws2 [] Hws2 (Some 59%N) no_groups) as [r Hr]; [reflexivity|].
    rewrite app_nil_r in Hr.
    destruct (star_greedy_complete is_space
                (match_here ua [Lit 125%N; Lit 59%N; Star is_space; EndOfString]
                   no_groups)
                ws1 (u "};" ++ ws2) Hws1 None r) as [r' Hr']; [exact Hr|].
    unfold close_pattern. rewrite match_here_star, Hr'. reflexivity.
  - destruct (search_from ua export_pattern None line) as [r|] eqn:E;
      [intros _ | discriminate].
    apply search_from_sound in E as (before & rest & -> & H).
    rewrite after_run_None in H. unfold export_pattern in H.
    cbn [app match_here] in H.
    destruct (xorb (word_at ua (last before)) (word_at ua (head rest))) eqn:Hb;
      [|discriminate H].
    apply match_here_lits_inv in H as (rest1 & -> & H).
    change (word_at ua (head (u "export" ++ rest1))) with true in Hb.
    cbn [app match_here] in H. destruct rest1 as [|c s]; [discriminate H|].
    destruct (is_space c) eqn:Hc; [|discriminate H].
    apply star_greedy_sound in H as (ws & rest2 & -> & Hws & H).
    apply match_here_lits_inv in H as (after & -> & H).
    change (after_run (after_run (Some c) ws) (u "default"))
      with (Some 116%N) in H.
    cbn [match_here] in H.
    change (word_at ua (Some 116%N)) with true in H.
    exists before, (c :: ws), after. split; [|split; [|split; [|split]]].
    + cbn [app]. rewrite <- ?app_assoc. reflexivity.
    + discriminate.
    + constructor; assumption.
    + destruct (word_at ua (last before)); [discriminate Hb | reflexivity].
    + destruct (word_at ua (head after)); [discriminate H | reflexivity].
  - intros (before & ws1 & after & -> & Hne & Hws1 & Hb & Ha).
    destruct ws1 as [|c ws]; [congruence|].
    apply Forall_cons in Hws1 as [Hc Hws].
    assert (Hname : forall prev, exists r,
      star_greedy is_space
        (match_here ua (lits (u "default") ++ [WordBoundary]) no_groups)
        prev (ws ++ u "default" ++ after) = Some r).
    { intros prev. apply (star_greedy_complete _ _ _ _ Hws prev no_groups).
      rewrite match_here_lits_app.
      change (after_run (after_run prev ws) (u "default")) with (Some 116%N).
      cbn [match_here].
      change (word_at ua (Some 116%N)) with true. rewrite Ha. reflexivity. }
    destruct (Hname (Some c)) as [r Hr].
    destruct (search_from_complete ua export_pattern before
                (u "export" ++ (c :: ws) ++ u "default" ++ after)
                None r) as [r' ->]; [|reflexivity].
    rewrite after_run_None. unfold export_pattern. cbn [app match_here].
    change (word_at ua (head (u "export" ++ c :: ws ++ u "default" ++ after)))
      with true.
    rewrite Hb. cbn [xorb].
    rewrite (match_here_lits_app ua (u "export")). cbn [match_here].
    rewrite Hc. exact Hr.
Qed.

(** ** The block extractor *)

Section Scan.

Variable ua : char -> bool.
Variable const_name : str.

(** Inside the declaration the loop collects lines up to the first end
    line, or up to the end of the input. *)
Lemma scan_inside lines :
  forall acc,
  (Forall (fun l => is_end_line ua l = false) lines ->
     scan_lines ua const_name lines true acc = (true, acc ++ lines))
  /\ (forall body t rest,
        lines = body ++ t :: rest ->
        Forall (fun l => is_end_line ua l = false) body ->
        is_end_line ua t = true ->
        scan_lines ua const_name lines true acc = (true, acc ++ body)).
Proof.
  induction lines as [|l lines IH]; intros acc; split.
  - intros _. cbn. rewrite app_nil_r. reflexivity.
  - intros [|? ?] t rest H; discriminate H.
  - intros H. apply Forall_cons in H as [Hl H]. cbn [scan_lines negb].
    unfold is_end_line in Hl. rewrite Hl.
    rewrite (proj1 (IH _) H), <- app_assoc. reflexivity.
  - intros body t rest Heq Hbody Ht. cbn [scan_lines negb].
    destruct body as [|l' body]; cbn [app] in Heq; injection Heq as -> ->.
    + unfold is_end_line in Ht. rewrite Ht, app_nil_r. reflexivity.
    + apply Forall_cons in Hbody as [Hl Hbody].
      unfold is_end_line in Hl. rewrite Hl.
      rewrite (proj2 (IH _) body t rest eq_refl Hbody Ht), <- app_assoc.
      reflexivity.
Qed.

(** Before the declaration the loop only looks for the start line. *)
Lemma scan_outside_none lines acc :
  Forall (fun l => is_start_line ua const_name l = false) lines ->
  scan_lines ua const_name lines false acc = (false, acc).
Proof.
  induction 1 as [|l lines Hl _ IH]; [reflexivity|].
  cbn [scan_lines negb]. unfold is_start_line in Hl. rewrite Hl. exact IH.
Qed.

Lemma scan_outside_start pre s post acc :
  Forall (fun l => is_start_line ua const_name l = false) pre ->
  is_start_line ua const_name s = true ->
  scan_lines ua const_name (pre ++ s :: post) false acc
  = scan_lines ua const_name post true acc.
Proof.
  intros Hpre Hs. induction Hpre as [|l pre Hl _ IH]; cbn [app scan_lines negb].
  - unfold is_start_line in Hs. rewrite Hs. reflexivity.
  - unfold is_start_line in Hl. rewrite Hl. exact IH.
Qed.

(** Every list of lines has no start line, or a first one. *)
Lemma first_start_line lines :
  Forall (fun l => is_start_line ua const_name l = false) lines
  \/ exists pre s post,
       lines = pre ++ s :: post
       /\ Forall (fun l => is_start_line ua const_name l = false) pre
       /\ is_start_line ua const_name s = true.
Proof.
  induction lines as [|l lines [IH|(pre & s & post & -> & Hpre & Hs)]].
  - left. constructor.
  - destruct (is_start_line ua const_name l) eqn:El.
    + right. exists [], l, lines. repeat split; [constructor | exact El].
    + left. constructor; assumption.
  - right. destruct (is_start_line ua const_name l) eqn:El.
    + exists [], l, (pre ++ s :: post). repeat split; [constructor | exact El].
    + exists (l :: pre), s, post. repeat split; [constructor; assumption | exact Hs].
Qed.

(** After the start line there is no end line, or a first one. *)
Lemma first_end_line lines :
  Forall (fun l => is_end_line ua l = false) lines
  \/ exists body t rest,
       lines = body ++ t :: rest
       /\ Forall (fun l => is_end_line ua l = false) body
       /\ is_end_line ua t = true.
Proof.
  induction lines as [|l lines [IH|(body & t & rest & -> & Hbody & Ht)]].
  - left. constructor.
  - destruct (is_end_line ua l) eqn:El.
    + right. exists [], l, lines. repeat split; [constructor | exact El].
    + left. constructor; assumption.
  - right. destruct (is_end_line ua l) eqn:El.
    + exists [], l, (body ++ t :: rest). repeat split; [constructor | exact El].
    + exists (l :: body), t, rest. repeat split; [constructor; assumption | exact Ht].
Qed.

(** The outcome of [extract_const_block], case by case. *)
Lemma extract_not_found source :
  Forall (fun l => is_start_line ua const_name l = false) (splitlines source) ->
  extract_const_block ua source const_name = Err DeclarationNotFound.
Proof.
  intros H. unfold extract_const_block. rewrite scan_outside_none by exact H.
  reflexivity.
Qed.

Lemma extract_found source pre s post :
  splitlines source = pre ++ s :: post ->
  Forall (fun l => is_start_line ua const_name l = false) pre ->
  is_start_line ua const_name s = true ->
  (Forall (fun l => is_end_line ua l = false) post ->
     extract_const_block ua source const_name
     = match post with [] => Err EmptyDeclarationBody | _ :: _ => Ok post end)
  /\ (forall body t rest,
        post = body ++ t :: rest ->
        Forall (fun l => is_end_line ua l = false) body ->
        is_end_line ua t = true ->
        extract_const_block ua source const_name
        = match body with [] => Err EmptyDeclarationBody | _ :: _ => Ok body end).
Proof.
  intros Hsplit Hpre Hs. unfold extract_const_block.
  rewrite Hsplit, scan_outside_start by assumption. split.
  - intros Hpost. rewrite (proj1 (scan_inside post []) Hpost). reflexivity.
  - intros body t rest Heq Hbody Ht.
    rewrite (proj2 (scan_inside post []) body t rest Heq Hbody Ht).
    reflexivity.
Qed.

End Scan.

(** C8, as stated, fails: the empty-body error is raised on an input none
    of whose lines is a terminating line, the declaration starting on its
    last line; no line was collected, but not before a terminating line. *)
Lemma empty_body_without_terminator :
  splitlines (u "// generated" ++ [10%N] ++ u "const cfg = {")
  = [u "// generated"; u "const cfg = {"]
  /\ is_end_line no_letters_beyond_ascii (u "// generated") = false
  /\ is_end_line no_letters_beyond_ascii (u "const cfg = {") = false
  /\ extract_const_block no_letters_beyond_ascii
       (u "// generated" ++ [10%N] ++ u "const cfg = {") (u "cfg")
     = Err EmptyDeclarationBody.
Proof. vm_compute. repeat split. Qed.

(** C8, amended: [extract_const_block] raises the declaration-not-found
    error exactly when no line of the input matches the declaration-start
    pattern; it raises the empty-body error exactly when some line matches
    and the scan collects no line after the first such line, which is when
    that line is the last of the input or the line after it is a
    terminating line. A line matches the declaration-start pattern when
    somewhere in it, not right after a word character, stands [const],
    then one or more white space, the name, any white space and an equals
    sign (code point 61). *)
Theorem extract_errors (ua : char -> bool) (source const_name : str) :
  (extract_const_block ua source const_name = Err DeclarationNotFound
   <-> Forall (fun l => is_start_line ua const_name l = false)
         (splitlines source))
  /\ (extract_const_block ua source const_name = Err EmptyDeclarationBody
      <-> exists pre s post,
            splitlines source = pre ++ s :: post
            /\ Forall (fun l => is_start_line ua const_name l = false) pre
            /\ is_start_line ua const_name s = true
            /\ (post = []
                \/ exists t rest, post = t :: rest /\ is_end_line ua t = true))
  /\ (forall line,
        is_start_line ua const_name line = true
        <-> exists before ws1 ws2 after,
              line = before ++ u "const" ++ ws1 ++ const_name ++ ws2
                     ++ [61%N] ++ after
              /\ ws1 <> []
              /\ Forall (fun c => is_space c = true) ws1
              /\ Forall (fun c => is_space c = true) ws2
              /\ word_at ua (last before) = false).
Proof.
  split; [|split; [|intros line; apply is_start_line_spec]]; split.
  - intros Hres.
    destruct (first_start_line ua const_name (splitlines source))
      as [Hnone|(pre & s & post & Hsplit & Hpre & Hs)]; [exact Hnone|].
    exfalso.
    destruct (extract_found ua const_name source pre s post Hsplit Hpre Hs)
      as [Hopen Hclosed].
    destruct (first_end_line ua post)
      as [Hnone|(body & t & rest & Hpost & Hbody & Ht)].
    + rewrite (Hopen Hnone) in Hres. destruct post; discriminate Hres.
    + rewrite (Hclosed body t rest Hpost Hbody Ht) in Hres.
      destruct body; discriminate Hres.
  - apply extract_not_found.
  - intros Hres.
    destruct (first_start_line ua const_name (splitlines source))
      as [Hnone|(pre & s & post & Hsplit & Hpre & Hs)].
    { rewrite (extract_not_found ua const_name source Hnone) in Hres.
      discriminate Hres. }
    exists pre, s, post. split; [exact Hsplit|]. split; [exact Hpre|].
    split; [exact Hs|].
    destruct (extract_found ua const_name source pre s post Hsplit Hpre Hs)
      as [Hopen Hclosed].
    destruct (first_end_line ua post)
      as [Hnone|(body & t & rest & Hpost & Hbody & Ht)].
    + rewrite (Hopen Hnone) in Hres. destruct post; [left; reflexivity|].
      discriminate Hres.
    + rewrite (Hclosed body t rest Hpost Hbody Ht) in Hres.
      destruct body; [|discriminate Hres]. right. exists t, rest. auto.
  - intros (pre & s & post & Hsplit & Hpre & Hs & Hpost).
    destruct (extract_found ua const_name source pre s post Hsplit Hpre Hs)
      as [Hopen Hclosed].
    destruct Hpost as [->|(t & rest & -> & Ht)].
    + apply Hopen. constructor.
    + apply (Hclosed [] t rest eq_refl); [constructor | exact Ht].
Qed.

(** C10, as stated, fails: when the declaration starts on the last line of
    the input, no later line is a terminating line, and yet nothing is
    returned: the empty-body error is raised. *)
Lemma start_on_last_line_raises :
  splitlines (u "const x = {") = [u "const x = {"]
  /\ is_start_line no_letters_beyond_ascii (u "x") (u "const x = {") = true
  /\ extract_const_block no_letters_beyond_ascii (u "const x = {") (u "x")
     = Err EmptyDeclarationBody.
Proof. vm_compute. repeat split. Qed.

(** C10, amended: when some line matches the declaration-start pattern, at
    least one line follows the first such line, and no line after it
    matches a termination pattern, [extract_const_block] returns every line
    after that line up to the end of the input and raises nothing: success
    needs no terminating line. *)
Theorem extract_without_terminator (ua : char -> bool)
    (source const_name : str) (pre : list str) (s : str) (post : list str) :
  splitlines source = pre ++ s :: post ->
  Forall (fun l => is_start_line ua const_name l = false) pre ->
  is_start_line ua const_name s = true ->
  post <> [] ->
  Forall (fun l => is_end_line ua l = false) post ->
  extract_const_block ua source const_name = Ok post.
Proof.
  intros Hsplit Hpre Hs Hne Hpost.
  rewrite (proj1 (extract_found ua const_name source pre s post Hsplit Hpre Hs)
             Hpost).
  destruct post; [congruence | reflexivity].
Qed.

Lemma extract_without_terminator_witness :
  extract_const_block no_letters_beyond_ascii
    (u "// head" ++ [10%N] ++ u "const x = {" ++ [10%N] ++ u "  a: 1,"
     ++ [10%N] ++ u "  b: 2,") (u "x")
  = Ok [u "  a: 1,"; u "  b: 2,"].
Proof.
  apply (extract_without_terminator no_letters_beyond_ascii _ (u "x")
           [u "// head"] (u "const x = {") [u "  a: 1,"; u "  b: 2,"]).
  - vm_compute. reflexivity.
  - repeat constructor.
  - vm_compute. reflexivity.
  - discriminate.
  - repeat constructor.
Defined.

(** * Further properties *)

(** ** More on the structured-tree renderer *)

Lemma below_length v d :
  (forall indent,
     length (build_tree v indent) = (count_entries v + count_leaves v)%nat) ->
  length (below v d)
  = (count_entries v
     + match v with VScalar _ => 1%nat | _ => count_leaves v end)%nat.
Proof. intros H. destruct v; cbn [below]; [apply H | apply H | reflexivity]. Qed.

(** X1: [build_tree] writes one line for every key and index and one more
    for every scalar entry, at every depth of the walk. *)
Theorem build_tree_length v :
  forall d,
  length (build_tree v d) = (count_entries v + count_leaves v)%nat.
Proof.
  induction v as [items IH|items IH|s] using value_nested_ind; intros d;
    [| |reflexivity].
  - rewrite build_tree_VDict. cbn [count_entries count_leaves].
    generalize (Z.of_nat (length items)) 0.
    induction IH as [|[key v] rest Hv _ IHrest]; intros n i; [reflexivity|].
    cbn [dict_rows]. rewrite length_app, IHrest. cbn [length snd] in *.
    rewrite (below_length v d Hv). lia.
  - rewrite build_tree_VList. cbn [count_entries count_leaves].
    generalize (Z.of_nat (length items)) 0.
    induction IH as [|v rest Hv _ IHrest]; intros n i; [reflexivity|].
    cbn [list_rows]. rewrite length_app, IHrest. cbn [length].
    rewrite (below_length v d Hv). lia.
Qed.

Lemma str_mul_succ (s : str) (n : Z) :
  0 <= n -> str_mul s (n + 1) = str_mul s n ++ s.
Proof.
  intros Hn. unfold str_mul. rewrite Z2Nat.inj_add by lia.
  change (Z.to_nat 1) with 1%nat.
  induction (Z.to_nat n) as [|k IH]; cbn [Nat.add List.repeat List.concat].
  - rewrite app_nil_r. reflexivity.
  - rewrite IH, app_assoc. reflexivity.
Qed.

Lemma str_mul_nonpos (s : str) (n : Z) : n <= 0 -> str_mul s n = [].
Proof.
  intros Hn. unfold str_mul. replace (Z.to_nat n) with O by lia. reflexivity.
Qed.

Lemma below_prefix v d :
  1 <= d ->
  (forall indent,
     1 <= indent ->
     Forall (fun line => str_mul PIPE (indent - 1) `prefix_of` line)
       (build_tree v indent)) ->
  Forall (fun line => str_mul PIPE (d - 1) `prefix_of` line) (below v d).
Proof.
  intros Hd Hv.
  assert (Hstep : str_mul PIPE d = str_mul PIPE (d - 1) ++ PIPE).
  { replace d with (d - 1 + 1) at 1 by lia. apply str_mul_succ. lia. }
  destruct v as [items|items|s]; cbn [below].
  - eapply Forall_impl; [apply Hv; lia|]. intros line [k ->].
    replace (d + 1 - 1) with d by lia. rewrite Hstep, <- app_assoc.
    eexists. reflexivity.
  - eapply Forall_impl; [apply Hv; lia|]. intros line [k ->].
    replace (d + 1 - 1) with d by lia. rewrite Hstep, <- app_assoc.
    eexists. reflexivity.
  - constructor; [|constructor]. unfold marker. rewrite Hstep, <- app_assoc.
    eexists. reflexivity.
Qed.

(** X2: below the top level, every line of [build_tree] at depth [d] starts
    with [d - 1] copies of the vertical-bar piece, whatever the position of
    its ancestors among their siblings. *)
Theorem build_tree_prefix v :
  forall d,
  1 <= d ->
  Forall (fun line => str_mul PIPE (d - 1) `prefix_of` line) (build_tree v d).
Proof.
  induction v as [items IH|items IH|s] using value_nested_ind; intros d Hd;
    [| |constructor].
  - rewrite build_tree_VDict.
    generalize (Z.of_nat (length items)) 0.
    induction IH as [|[key v] rest Hv _ IHrest]; intros n i; [constructor|].
    cbn [dict_rows]. apply Forall_app. split; [|apply IHrest].
    constructor; [|apply below_prefix; assumption].
    unfold dict_head. destruct (Z.eqb_spec d 0); [lia|]. eexists. reflexivity.
  - rewrite build_tree_VList.
    generalize (Z.of_nat (length items)) 0.
    induction IH as [|v rest Hv _ IHrest]; intros n i; [constructor|].
    cbn [list_rows]. apply Forall_app. split; [|apply IHrest].
    constructor; [|apply below_prefix; assumption].
    unfold list_head. eexists. reflexivity.
Qed.

Lemma build_tree_prefix_witness :
  1 <= 2
  /\ Forall (fun line => str_mul PIPE (2 - 1) `prefix_of` line)
       (build_tree nested_pair 2).
Proof. split; [lia | apply build_tree_prefix; lia]. Defined.

Lemma dict_rows_final d n init k v :
  forall idx,
  idx + Z.of_nat (length init) = n - 1 ->
  dict_rows d n idx (init ++ [(k, v)])
  = flat_map
      (fun e =>
         (if d =? 0 then fst e else str_mul PIPE (d - 1) ++ TEE ++ fst e)
         :: below (snd e) d) init
    ++ (if d =? 0 then k else str_mul PIPE (d - 1) ++ ELBOW ++ k)
       :: below v d.
Proof.
  induction init as [|[k0 v0] init IH]; intros idx H; cbn [length] in H.
  - cbn [app dict_rows flat_map]. unfold dict_head, connector_at.
    replace (idx =? n - 1) with true by (symmetry; apply Z.eqb_eq; lia).
    rewrite app_nil_r. reflexivity.
  - cbn [app dict_rows flat_map fst snd]. unfold dict_head at 1, connector_at.
    replace (idx =? n - 1) with false by (symmetry; apply Z.eqb_neq; lia).
    rewrite IH by lia. rewrite <- app_assoc. reflexivity.
Qed.

(** X3: below the top level the entries of a map are written in their
    order, each key after [d - 1] vertical-bar pieces and a connector, which
    is [└── ] for the final entry and [├── ] for every other one, and each
    followed by the rendering of its value: one marker line at depth [d] for
    a scalar, the lines of depth [d + 1] for a map or a list. *)
Theorem build_tree_dict_nested (d : Z) (init : list (str * value))
    (k : str) (v : value) :
  d <> 0 ->
  build_tree (VDict (init ++ [(k, v)])) d
  = flat_map
      (fun e =>
         (str_mul PIPE (d - 1) ++ u "├── " ++ fst e)
         :: match snd e with
            | VScalar _ => [str_mul PIPE d ++ u "└── value"]
            | x => build_tree x (d + 1)
            end) init
    ++ (str_mul PIPE (d - 1) ++ u "└── " ++ k)
       :: match v with
          | VScalar _ => [str_mul PIPE d ++ u "└── value"]
          | x => build_tree x (d + 1)
          end.
Proof.
  intros Hd. rewrite build_tree_VDict, (dict_rows_final d _ init k v 0).
  - destruct (Z.eqb_spec d 0) as [|_]; [contradiction|].
    apply (f_equal2 (@app str)); [|destruct v; reflexivity].
    apply flat_map_ext. intros [k0 v0]. destruct v0; reflexivity.
  - rewrite length_app. cbn [length]. lia.
Qed.

Lemma build_tree_dict_nested_witness :
  1 <> 0
  /\ build_tree
       (VDict ([(u "b", VScalar (SInt 1))] ++ [(u "c", VList [])])) 1
     = [u "├── b"; u "│   └── value"; u "└── c"].
Proof.
  split; [discriminate|].
  rewrite (build_tree_dict_nested 1 [(u "b", VScalar (SInt 1))] (u "c")
             (VList [])); [|discriminate].
  vm_compute. reflexivity.
Defined.

(** X4: at the top level the keys of a map are written bare, the final one
    too, each followed by the rendering of its value. *)
Theorem build_tree_dict_top (items : list (str * value)) :
  build_tree (VDict items) 0
  = flat_map
      (fun e =>
         fst e
         :: match snd e with
            | VScalar _ => [u "└── value"]
            | x => build_tree x 1
            end) items.
Proof.
  rewrite build_tree_VDict. generalize 0 at 2.
  generalize (Z.of_nat (length items)).
  induction items as [|[k v] items IH]; intros n i; [reflexivity|].
  cbn [dict_rows flat_map fst snd]. rewrite IH.
  apply (f_equal2 (@app str)); [|reflexivity]. destruct v; reflexivity.
Qed.

Lemma list_rows_final d n init v :
  forall k : nat,
  Z.of_nat k + Z.of_nat (length init) = n - 1 ->
  list_rows d n (Z.of_nat k) (init ++ [v])
  = List.concat
      (imap
         (fun i x =>
            (str_mul PIPE (d - 1) ++ TEE
             ++ u "[" ++ str_of_index (Z.of_nat (k + i)) ++ u "]")
            :: below x d) init)
    ++ (str_mul PIPE (d - 1) ++ ELBOW
        ++ u "[" ++ str_of_index (n - 1) ++ u "]")
       :: below v d.
Proof.
  induction init as [|v0 init IH]; intros k H; cbn [length] in H.
  - cbn [app list_rows imap List.concat]. unfold list_head, connector_at.
    replace (Z.of_nat k =? n - 1) with true by (symmetry; apply Z.eqb_eq; lia).
    replace (n - 1) with (Z.of_nat k) by lia. rewrite app_nil_r. reflexivity.
  - cbn [app list_rows imap List.concat]. unfold list_head at 1, connector_at.
    replace (Z.of_nat k =? n - 1) with false
      by (symmetry; apply Z.eqb_neq; lia).
    replace (Z.of_nat k + 1) with (Z.of_nat (S k)) by lia.
    rewrite IH by lia. rewrite Nat.add_0_r, <- app_assoc.
    do 4 f_equal. apply imap_ext. intros i x _. cbv beta delta [compose].
    replace (S k + i)%nat with (k + S i)%nat by lia. reflexivity.
Qed.

(** X5: the items of a list are written in their order at every depth, the
    top level included: [d - 1] vertical-bar pieces (none at depths 0 and
    1), the connector, [└── ] for the final item and [├── ] for every
    other one, and the position of the item in brackets, counted from 0;
    each is followed by the rendering of the item. *)
Theorem build_tree_list_items (d : Z) (init : list value) (v : value) :
  build_tree (VList (init ++ [v])) d
  = List.concat
      (imap
         (fun i x =>
            (str_mul PIPE (d - 1) ++ u "├── ["
             ++ str_of_index (Z.of_nat i) ++ u "]")
            :: match x with
               | VScalar _ => [str_mul PIPE d ++ u "└── value"]
               | y => build_tree y (d + 1)
               end) init)
    ++ (str_mul PIPE (d - 1) ++ u "└── ["
        ++ str_of_index (Z.of_nat (length init)) ++ u "]")
       :: match v with
          | VScalar _ => [str_mul PIPE d ++ u "└── value"]
          | y => build_tree y (d + 1)
          end.
Proof.
  rewrite build_tree_VList, (list_rows_final d _ init v 0%nat).
  - rewrite length_app. cbn [length].
    replace (Z.of_nat (length init + 1) - 1) with (Z.of_nat (length init))
      by lia.
    apply (f_equal2 (@app str)); [|destruct v; reflexivity].
    f_equal.
  - rewrite length_app. cbn [length]. lia.
Qed.

(** X6: [build_tree] writes no line at all exactly for an empty map, an
    empty list and a scalar; [convert_json_to_md] then gives the two fences
    with one empty line between them. *)
Theorem build_tree_nothing (data : value) (d : Z) :
  (build_tree data d = []
   <-> data = VDict [] \/ data = VList [] \/ exists s, data = VScalar s)
  /\ (build_tree data 0 = [] ->
      convert_json_to_md data = u "```text" ++ [10%N; 10%N] ++ u "```").
Proof.
  split.
  - split.
    + intros H. destruct data as [[|[k v] items]|[|v items]|s]; eauto.
      * rewrite build_tree_VDict in H. discriminate H.
      * rewrite build_tree_VList in H. discriminate H.
    + intros [->|[->|[s ->]]]; reflexivity.
  - intros H. unfold convert_json_to_md. rewrite H. reflexivity.
Qed.

(** ** Key recovery *)

Lemma omap_step {A B} (f : A -> option B) (x : A) (l : list A) :
  omap f (x :: l)
  = match f x with
    | Some y => y :: omap f l
    | None => omap f l
    end.
Proof. reflexivity. Qed.

Lemma collect_keys_step ua line lines records :
  collect_keys ua (line :: lines) records
  = collect_keys ua lines
      match key_of_line ua line with
      | Some r => records ++ [r]
      | None => records
      end.
Proof.
  cbn [collect_keys]. unfold key_of_line.
  destruct (negb (str_truthy (strip line))); [reflexivity|].
  destruct (startswith (strip line) (u "//") || startswith (strip line) (u "/*")
            || startswith (strip line) (u "*")); [reflexivity|].
  destruct (match re_match ua ident_key_re line with
            | Some m => Some m
            | None => re_match ua quoted_key_re line
            end) as [m|]; reflexivity.
Qed.

Lemma collect_keys_omap ua lines :
  forall records,
  collect_keys ua lines records = records ++ omap (key_of_line ua) lines.
Proof.
  induction lines as [|line lines IH]; intros records.
  - cbn. rewrite app_nil_r. reflexivity.
  - rewrite collect_keys_step, IH, omap_step.
    destruct (key_of_line ua line); [|reflexivity].
    rewrite <- app_assoc. reflexivity.
Qed.

(** The greedy run is the whole run when the next character is outside the
    class and the rest of the pattern accepts there. *)
Lemma star_greedy_exact {R} (p : char -> bool)
    (k : option char -> str -> option R) ws rest r :
  Forall (fun c => p c = true) ws ->
  match rest with c :: _ => p c = false | [] => True end ->
  forall prev,
  k (after_run prev ws) rest = Some r ->
  star_greedy p k prev (ws ++ rest) = Some r.
Proof.
  intros Hws Hrest. induction Hws as [|c ws Hc _ IH]; intros prev Hk.
  - cbn [app]. destruct rest as [|c s]; cbn [star_greedy]; [exact Hk|].
    rewrite Hrest. exact Hk.
  - cbn [app star_greedy]. rewrite Hc. rewrite after_run_cons in Hk.
    rewrite (IH _ Hk). reflexivity.
Qed.

Lemma ident_not_space c : is_ident_char c = true -> is_space c = false.
Proof.
  unfold is_ident_char, is_ascii_alnum, is_space. intros H.
  repeat rewrite ?orb_true_iff, ?andb_true_iff, ?N.leb_le, ?N.eqb_eq in H.
  repeat rewrite ?orb_false_iff, ?andb_false_iff, ?N.leb_gt, ?N.eqb_neq.
  lia.
Qed.

Lemma quote_not_space c : is_quote c = true -> is_space c = false.
Proof.
  unfold is_quote, is_space. intros H.
  repeat rewrite ?orb_true_iff, ?andb_true_iff, ?N.leb_le, ?N.eqb_eq in H.
  repeat rewrite ?orb_false_iff, ?andb_false_iff, ?N.leb_gt, ?N.eqb_neq.
  lia.
Qed.

Lemma quote_not_ident c : is_quote c = true -> is_ident_char c = false.
Proof.
  unfold is_quote, is_ident_char, is_ascii_alnum. intros H.
  repeat rewrite ?orb_true_iff, ?andb_true_iff, ?N.leb_le, ?N.eqb_eq in H.
  repeat rewrite ?orb_false_iff, ?andb_false_iff, ?N.leb_gt, ?N.eqb_neq.
  lia.
Qed.

Lemma take_app_diff (w rest : str) :
  take (length (w ++ rest) - length rest)%nat (w ++ rest) = w.
Proof.
  rewrite length_app. replace (length w + length rest - length rest)%nat
    with (length w) by lia.
  apply take_app_length.
Qed.

Lemma ident_key_re_match ua ws key ws2 rest :
  Forall (fun c => is_space c = true) ws ->
  key <> [] ->
  Forall (fun c => is_ident_char c = true) key ->
  Forall (fun c => is_space c = true) ws2 ->
  re_match ua ident_key_re (ws ++ key ++ ws2 ++ [58%N] ++ rest)
  = Some (MatchState [ws; key] None).
Proof.
  intros Hws Hne Hkey Hws2. destruct key as [|c key]; [congruence|].
  apply Forall_cons in Hkey as [Hc Hkey].
  unfold re_match, ident_key_re. cbn [match_here no_groups groups opened].
  apply star_greedy_exact; [exact Hws | cbn [app]; apply ident_not_space, Hc |].
  cbn beta. rewrite take_app_diff. cbn [app]. rewrite Hc.
  apply star_greedy_exact; [exact Hkey | |].
  { destruct ws2 as [|c2 ws2]; cbn [app]; [reflexivity|].
    apply Forall_cons in Hws2 as [Hc2 _].
    destruct (is_ident_char c2) eqn:E; [|reflexivity].
    apply ident_not_space in E. congruence. }
  cbn beta. apply star_greedy_exact; [exact Hws2 | reflexivity |].
  cbn beta iota. change (char_eqb 58%N 58%N) with true. cbn iota.
  change (c :: key ++ ws2 ++ 58%N :: rest)
    with ((c :: key) ++ ws2 ++ 58%N :: rest).
  rewrite take_app_diff. reflexivity.
Qed.

Lemma quoted_key_re_match ua ws q1 key q2 ws2 rest :
  Forall (fun c => is_space c = true) ws ->
  is_quote q1 = true ->
  is_quote q2 = true ->
  key <> [] ->
  Forall (fun c => is_quote c = false) key ->
  Forall (fun c => is_space c = true) ws2 ->
  re_match ua quoted_key_re
    (ws ++ [q1] ++ key ++ [q2] ++ ws2 ++ [58%N] ++ rest)
  = Some (MatchState [ws; key] None).
Proof.
  intros Hws Hq1 Hq2 Hne Hkey Hws2. destruct key as [|c key]; [congruence|].
  apply Forall_cons in Hkey as [Hc Hkey].
  assert (Hnot : forall x, is_quote x = false -> not_quote x = true).
  { intros x Hx. unfold not_quote. rewrite Hx. reflexivity. }
  unfold re_match, quoted_key_re. cbn [match_here no_groups groups opened].
  apply star_greedy_exact;
    [exact Hws | cbn [app]; apply quote_not_space, Hq1 |].
  cbn beta. rewrite take_app_diff. cbn [app]. rewrite Hq1, (Hnot c Hc).
  apply star_greedy_exact.
  { eapply Forall_impl; [exact Hkey | exact Hnot]. }
  { cbn [app]. unfold not_quote. rewrite Hq2. reflexivity. }
  cbn beta iota. rewrite Hq2.
  apply star_greedy_exact; [exact Hws2 | reflexivity |].
  cbn beta iota. change (char_eqb 58%N 58%N) with true. cbn iota.
  change (c :: key ++ q2 :: ws2 ++ 58%N :: rest)
    with ((c :: key) ++ q2 :: ws2 ++ 58%N :: rest).
  rewrite take_app_diff. reflexivity.
Qed.

Lemma space_split (ws' rest' ws : str) c rest :
  ws' ++ rest' = ws ++ c :: rest ->
  Forall (fun x => is_space x = true) ws' ->
  is_space c = false ->
  exists ws'', ws = ws' ++ ws'' /\ rest' = ws'' ++ c :: rest.
Proof.
  revert ws. induction ws' as [|a ws' IH]; intros ws Heq Hws' Hc.
  - exists ws. auto.
  - apply Forall_cons in Hws' as [Ha Hws']. destruct ws as [|a' ws].
    + cbn [app] in Heq. injection Heq as -> _. congruence.
    + cbn [app] in Heq. injection Heq as -> Heq.
      destruct (IH ws Heq Hws' Hc) as (ws'' & -> & ->). exists ws''. auto.
Qed.

(** A line whose first character after the leading white space is neither
    an identifier character nor a quote matches neither pattern. *)
Lemma key_patterns_none ua ws c rest :
  Forall (fun x => is_space x = true) ws ->
  is_space c = false ->
  (is_ident_char c = false ->
   re_match ua ident_key_re (ws ++ c :: rest) = None)
  /\ (is_quote c = false ->
      re_match ua quoted_key_re (ws ++ c :: rest) = None).
Proof.
  intros Hws Hc.
  assert (Hhead : forall ws' rest' (p : char -> bool),
    ws' ++ rest' = ws ++ c :: rest ->
    Forall (fun x => is_space x = true) ws' ->
    p c = false ->
    (forall x, is_space x = true -> p x = false) ->
    match rest' with x :: _ => p x = false | [] => False end).
  { intros ws' rest' p Heq Hws' Hpc Hp.
    destruct (space_split _ _ _ _ _ Heq Hws' Hc) as (ws'' & -> & ->).
    destruct ws'' as [|a ws'']; [exact Hpc|].
    apply Forall_app in Hws as [_ Hws].
    apply Forall_cons in Hws as [Ha _]. apply Hp, Ha. }
  split; intros Hpc; unfold re_match.
  - destruct (match_here ua ident_key_re no_groups None (ws ++ c :: rest))
      as [m|] eqn:E; [exfalso|reflexivity].
    unfold ident_key_re in E. cbn [match_here no_groups groups opened] in E.
    apply star_greedy_sound in E as (ws' & rest' & Heq & Hws' & H).
    cbn beta in H.
    pose proof (Hhead ws' rest' is_ident_char (eq_sym Heq) Hws' Hpc) as Hh.
    destruct rest' as [|x rest']; [discriminate H|].
    rewrite Hh in H; [discriminate H|].
    intros y Hy. destruct (is_ident_char y) eqn:Ey; [|reflexivity].
    apply ident_not_space in Ey. congruence.
  - destruct (match_here ua quoted_key_re no_groups None (ws ++ c :: rest))
      as [m|] eqn:E; [exfalso|reflexivity].
    unfold quoted_key_re in E. cbn [match_here no_groups groups opened] in E.
    apply star_greedy_sound in E as (ws' & rest' & Heq & Hws' & H).
    cbn beta in H.
    pose proof (Hhead ws' rest' is_quote (eq_sym Heq) Hws' Hpc) as Hh.
    destruct rest' as [|x rest']; [discriminate H|].
    rewrite Hh in H; [discriminate H|].
    intros y Hy. destruct (is_quote y) eqn:Ey; [|reflexivity].
    apply quote_not_space in Ey. congruence.
Qed.

Lemma ident_key_re_sound ua line m :
  re_match ua ident_key_re line = Some m ->
  exists ws key ws2 rest,
    line = ws ++ key ++ ws2 ++ [58%N] ++ rest
    /\ Forall (fun c => is_space c = true) ws
    /\ key <> []
    /\ Forall (fun c => is_ident_char c = true) key
    /\ Forall (fun c => is_space c = true) ws2
    /\ m = MatchState [ws; key] None.
Proof.
  unfold re_match, ident_key_re. cbn [match_here no_groups groups opened].
  intros H. apply star_greedy_sound in H as (ws & rest1 & -> & Hws & H).
  cbn beta in H. rewrite take_app_diff in H. cbn [app] in H.
  destruct rest1 as [|c s]; [discriminate H|].
  destruct (is_ident_char c) eqn:Hc; [|discriminate H].
  apply star_greedy_sound in H as (key & rest2 & -> & Hkey & H).
  cbn beta in H.
  apply star_greedy_sound in H as (ws2 & rest3 & -> & Hws2 & H).
  cbn beta iota in H. destruct rest3 as [|c3 rest]; [discriminate H|].
  destruct (char_eqb 58%N c3) eqn:E3; [|discriminate H].
  apply N.eqb_eq in E3 as <-. injection H as <-.
  pose proof (take_app_diff (c :: key) (ws2 ++ 58%N :: rest)) as Ht.
  match goal with
  | |- context [take ?n ?l] =>
      replace (take n l) with (c :: key) by (symmetry; exact Ht)
  end.
  exists ws, (c :: key), ws2, rest.
  split; [reflexivity|]. split; [exact Hws|]. split; [discriminate|].
  split; [constructor; assumption|]. split; [exact Hws2 | reflexivity].
Qed.

Lemma quoted_key_re_sound ua line m :
  re_match ua quoted_key_re line = Some m ->
  exists ws q1 key q2 ws2 rest,
    line = ws ++ [q1] ++ key ++ [q2] ++ ws2 ++ [58%N] ++ rest
    /\ Forall (fun c => is_space c = true) ws
    /\ is_quote q1 = true
    /\ is_quote q2 = true
    /\ key <> []
    /\ Forall (fun c => is_quote c = false) key
    /\ Forall (fun c => is_space c = true) ws2
    /\ m = MatchState [ws; key] None.
Proof.
  unfold re_match, quoted_key_re. cbn [match_here no_groups groups opened].
  intros H. apply star_greedy_sound in H as (ws & rest1 & -> & Hws & H).
  cbn beta in H. rewrite take_app_diff in H. cbn [app] in H.
  destruct rest1 as [|q1 s1]; [discriminate H|].
  destruct (is_quote q1) eqn:Hq1; [|discriminate H].
  destruct s1 as [|c s]; [discriminate H|].
  destruct (not_quote c) eqn:Hc; [|discriminate H].
  apply star_greedy_sound in H as (key & rest2 & -> & Hkey & H).
  cbn beta iota in H. destruct rest2 as [|q2 s2]; [discriminate H|].
  destruct (is_quote q2) eqn:Hq2; [|discriminate H].
  apply star_greedy_sound in H as (ws2 & rest3 & -> & Hws2 & H).
  cbn beta iota in H. destruct rest3 as [|c3 rest]; [discriminate H|].
  destruct (char_eqb 58%N c3) eqn:E3; [|discriminate H].
  apply N.eqb_eq in E3 as <-. injection H as <-.
  pose proof (take_app_diff (c :: key) (q2 :: ws2 ++ 58%N :: rest)) as Ht.
  match goal with
  | |- context [take ?n ?l] =>
      replace (take n l) with (c :: key) by (symmetry; exact Ht)
  end.
  assert (Hnot : forall x, not_quote x = true -> is_quote x = false).
  { intros x. unfold not_quote. destruct (is_quote x); [discriminate | reflexivity]. }
  exists ws, q1, (c :: key), q2, ws2, rest.
  split; [reflexivity|]. split; [exact Hws|]. split; [exact Hq1|].
  split; [exact Hq2|]. split; [discriminate|]. split.
  - constructor; [apply Hnot, Hc|].
    eapply Forall_impl; [exact Hkey | exact Hnot].
  - split; [exact Hws2 | reflexivity].
Qed.

Lemma lstrip_spaces ws c rest :
  Forall (fun x => is_space x = true) ws ->
  is_space c = false ->
  lstrip (ws ++ c :: rest) = c :: rest.
Proof.
  intros Hws Hc. induction Hws as [|a ws Ha _ IH]; cbn [app lstrip].
  - rewrite Hc. reflexivity.
  - rewrite Ha. exact IH.
Qed.

Lemma lstrip_snoc l c :
  is_space c = false -> exists l', lstrip (l ++ [c]) = l' ++ [c].
Proof.
  intros Hc. induction l as [|a l [l' IH]]; cbn [app lstrip].
  - rewrite Hc. exists []. reflexivity.
  - destruct (is_space a); [exists l'; exact IH|].
    exists (a :: l). reflexivity.
Qed.

(** Stripping a line leaves its first character that is no white space in
    front. *)
Lemma strip_head ws c rest :
  Forall (fun x => is_space x = true) ws ->
  is_space c = false ->
  exists t, strip (ws ++ c :: rest) = c :: t.
Proof.
  intros Hws Hc. unfold strip. rewrite (lstrip_spaces ws c rest Hws Hc).
  cbn [rev]. destruct (lstrip_snoc (rev rest) c Hc) as [l' ->].
  exists (rev l'). rewrite rev_app_distr. reflexivity.
Qed.

Lemma not_comment_start (c : char) (t : str) :
  c <> 47%N -> c <> 42%N ->
  startswith (c :: t) (u "//") || startswith (c :: t) (u "/*")
  || startswith (c :: t) (u "*") = false.
Proof.
  intros H1 H2.
  change (u "//") with [47%N; 47%N]. change (u "/*") with [47%N; 42%N].
  change (u "*") with [42%N]. cbn [startswith]. unfold char_eqb.
  replace (47 =? c)%N with false by (symmetry; apply N.eqb_neq; congruence).
  replace (42 =? c)%N with false by (symmetry; apply N.eqb_neq; congruence).
  reflexivity.
Qed.

Lemma ident_char_plain c :
  is_ident_char c = true -> c <> 47%N /\ c <> 42%N /\ is_quote c = false.
Proof.
  unfold is_ident_char, is_ascii_alnum, is_quote. intros H.
  repeat rewrite ?orb_true_iff, ?andb_true_iff, ?N.leb_le, ?N.eqb_eq in H.
  repeat rewrite ?orb_false_iff, ?andb_false_iff, ?N.leb_gt, ?N.eqb_neq.
  lia.
Qed.

Lemma quote_plain c : is_quote c = true -> c <> 47%N /\ c <> 42%N.
Proof.
  unfold is_quote. intros H.
  repeat rewrite ?orb_true_iff, ?N.eqb_eq in H. lia.
Qed.

Lemma key_of_line_shape ua line indent key :
  key_of_line ua line = Some (indent, key) <-> key_shape line indent key.
Proof.
  unfold key_shape, ident_shape, quoted_shape. split.
  - unfold key_of_line.
    destruct (negb (str_truthy (strip line))); [discriminate|].
    destruct (startswith (strip line) (u "//") || startswith (strip line) (u "/*")
              || startswith (strip line) (u "*")); [discriminate|].
    destruct (re_match ua ident_key_re line) as [m|] eqn:Ei.
    + apply ident_key_re_sound in Ei
        as (ws & k & ws2 & rest & -> & Hws & Hne & Hk & Hws2 & ->).
      intros [= <- <-]. left. exists ws, ws2, rest. auto 10.
    + destruct (re_match ua quoted_key_re line) as [m|] eqn:Eq;
        [|discriminate].
      apply quoted_key_re_sound in Eq
        as (ws & q1 & k & q2 & ws2 & rest & -> & Hws & Hq1 & Hq2 & Hne & Hk
            & Hws2 & ->).
      intros [= <- <-]. right. exists ws, q1, q2, ws2, rest. auto 10.
  - intros [(ws & ws2 & rest & -> & Hws & Hne & Hk & Hws2 & ->)
           |(ws & q1 & q2 & ws2 & rest & -> & Hws & Hq1 & Hq2 & Hne & Hk
             & Hws2 & ->)]; unfold key_of_line.
    + rewrite (ident_key_re_match ua ws key ws2 rest Hws Hne Hk Hws2).
      destruct key as [|c key]; [congruence|].
      pose proof Hk as Hk'. apply Forall_cons in Hk' as [Hc _].
      destruct (ident_char_plain c Hc) as (H1 & H2 & _).
      destruct (strip_head ws c (key ++ ws2 ++ [58%N] ++ rest) Hws
                  (ident_not_space c Hc)) as [t Ht].
      cbn [app] in Ht |- *. rewrite Ht, (not_comment_start c t H1 H2).
      reflexivity.
    + rewrite (quoted_key_re_match ua ws q1 key q2 ws2 rest
                 Hws Hq1 Hq2 Hne Hk Hws2).
      destruct (quote_plain q1 Hq1) as (H1 & H2).
      destruct (strip_head ws q1 (key ++ [q2] ++ ws2 ++ [58%N] ++ rest) Hws
                  (quote_not_space q1 Hq1)) as [t Ht].
      destruct (key_patterns_none ua ws q1
                  (key ++ [q2] ++ ws2 ++ [58%N] ++ rest) Hws
                  (quote_not_space q1 Hq1)) as [Hnone _].
      cbn [app] in Ht, Hnone |- *.
      rewrite Ht, (not_comment_start q1 t H1 H2),
        (Hnone (quote_not_ident q1 Hq1)).
      reflexivity.
Qed.

(** X7: [find_property_keys] goes through the lines in order and keeps one
    record for every line of one of the two key shapes: the indent is the
    number of white-space characters in front, the key the identifier or
    the text between the quotes (the closing quote need not be the opening
    one); every other line adds nothing, and with no record at all the
    error is raised. *)
Theorem find_property_keys_shapes (ua : char -> bool) (lines : list str) :
  find_property_keys ua lines
  = match omap (key_of_line ua) lines with
    | [] => Err NoKeysRecovered
    | r :: records => Ok (r :: records)
    end
  /\ forall line indent key,
       key_of_line ua line = Some (indent, key) <-> key_shape line indent key.
Proof.
  split; [|intros; apply key_of_line_shape].
  unfold find_property_keys. rewrite collect_keys_omap. cbn [app].
  destruct (omap (key_of_line ua) lines); reflexivity.
Qed.

Lemma skipped_line_none ua line :
  strip line = []
  \/ startswith (strip line) (u "//") = true
  \/ startswith (strip line) (u "/*") = true
  \/ startswith (strip line) (u "*") = true ->
  key_of_line ua line = None.
Proof.
  unfold key_of_line. intros [H | [H | [H | H]]]; rewrite H;
    [reflexivity| | |];
    destruct (negb (str_truthy (strip line))); try reflexivity;
    rewrite ?orb_true_r; reflexivity.
Qed.

(** X8: a blank line, and a line that after its leading white space starts
    with two slashes, a slash and an asterisk, or an asterisk, has neither
    key shape, colon or not; taking it out of the block changes nothing in
    what [find_property_keys] returns. *)
Theorem find_property_keys_skips (ua : char -> bool)
    (pre : list str) (line : str) (post : list str) :
  strip line = []
  \/ startswith (strip line) (u "//") = true
  \/ startswith (strip line) (u "/*") = true
  \/ startswith (strip line) (u "*") = true ->
  (forall indent key, ~ key_shape line indent key)
  /\ find_property_keys ua (pre ++ line :: post)
     = find_property_keys ua (pre ++ post).
Proof.
  intros H. pose proof (skipped_line_none ua line H) as Hnone. split.
  - intros indent key Hs. apply (key_of_line_shape ua) in Hs. congruence.
  - unfold find_property_keys. rewrite !collect_keys_omap. cbn [app].
    rewrite !omap_app, omap_step, Hnone. reflexivity.
Qed.

Lemma find_property_keys_skips_witness :
  find_property_keys no_letters_beyond_ascii
    ([u "  a: 1,"] ++ u "  // b: 2" :: [u "  c: 3"])
  = find_property_keys no_letters_beyond_ascii ([u "  a: 1,"] ++ [u "  c: 3"]).
Proof.
  apply (find_property_keys_skips no_letters_beyond_ascii).
  right. left. vm_compute. reflexivity.
Defined.

(** ** More on the block extractor *)

Lemma extract_ok_iff (ua : char -> bool) (source const_name : str)
    (block : list str) :
  extract_const_block ua source const_name = Ok block
  <-> exists pre s rest,
        splitlines source = pre ++ s :: block ++ rest
        /\ Forall (fun l => is_start_line ua const_name l = false) pre
        /\ is_start_line ua const_name s = true
        /\ block <> []
        /\ Forall (fun l => is_end_line ua l = false) block
        /\ (rest = []
            \/ exists t rest', rest = t :: rest' /\ is_end_line ua t = true).
Proof.
  split.
  - intros Hres.
    destruct (first_start_line ua const_name (splitlines source))
      as [Hnone|(pre & s & post & Hsplit & Hpre & Hs)].
    { rewrite (extract_not_found ua const_name source Hnone) in Hres.
      discriminate Hres. }
    destruct (extract_found ua const_name source pre s post Hsplit Hpre Hs)
      as [Hopen Hclosed].
    destruct (first_end_line ua post)
      as [Hnone|(body & t & rest & Hpost & Hbody & Ht)].
    + rewrite (Hopen Hnone) in Hres. destruct post as [|l post];
        [discriminate Hres|]. injection Hres as <-.
      exists pre, s, []. rewrite app_nil_r.
      split; [exact Hsplit|]. split; [exact Hpre|]. split; [exact Hs|].
      split; [discriminate|]. split; [exact Hnone | left; reflexivity].
    + rewrite (Hclosed body t rest Hpost Hbody Ht) in Hres.
      destruct body as [|l body]; [discriminate Hres|]. injection Hres as <-.
      exists pre, s, (t :: rest). rewrite <- Hpost.
      split; [exact Hsplit|]. split; [exact Hpre|]. split; [exact Hs|].
      split; [discriminate|]. split; [exact Hbody|]. right. eauto.
  - intros (pre & s & rest & Hsplit & Hpre & Hs & Hne & Hblock & Hrest).
    destruct (extract_found ua const_name source pre s (block ++ rest)
                Hsplit Hpre Hs) as [Hopen Hclosed].
    destruct Hrest as [->|(t & rest' & -> & Ht)].
    + rewrite app_nil_r in Hopen. rewrite (Hopen Hblock).
      destruct block; [congruence | reflexivity].
    + rewrite (Hclosed block t rest' eq_refl Hblock Ht).
      destruct block; [congruence | reflexivity].
Qed.

(** X9: [extract_const_block] returns a block exactly when the block is
    the non-empty run of lines after the first line that matches the
    declaration-start pattern, none of them a terminating line, and the run
    stops at the first terminating line or at the end of the input. The
    start line and the terminating line are not part of it; a later line
    that matches the start pattern again is a line of the block like any
    other. *)
Theorem extract_const_block_ok (ua : char -> bool) (source const_name : str)
    (block : list str) :
  extract_const_block ua source const_name = Ok block
  <-> exists pre s rest,
        splitlines source = pre ++ s :: block ++ rest
        /\ Forall (fun l => is_start_line ua const_name l = false) pre
        /\ is_start_line ua const_name s = true
        /\ block <> []
        /\ Forall (fun l => is_end_line ua l = false) block
        /\ (rest = []
            \/ exists t rest', rest = t :: rest' /\ is_end_line ua t = true).
Proof. apply extract_ok_iff. Qed.

Lemma splitlines_from_lines n :
  forall s cur,
  (length s <= n)%nat ->
  Forall (fun c => is_linebreak c = false) cur ->
  Forall (Forall (fun c => is_linebreak c = false)) (splitlines_from cur s).
Proof.
  assert (Hrev : forall cur,
    Forall (fun c => is_linebreak c = false) cur ->
    Forall (fun c => is_linebreak c = false) (rev cur)).
  { intros cur H. apply Forall_forall. intros x Hx.
    rewrite Forall_forall in H. apply H.
    apply list_elem_of_In, (proj2 (in_rev cur x)), list_elem_of_In, Hx. }
  induction n as [|n IH]; intros s cur Hlen Hcur.
  - destruct s; [|cbn in Hlen; lia]. cbn [splitlines_from].
    destruct cur; [constructor|]. constructor; [apply Hrev, Hcur|constructor].
  - destruct s as [|c s]; cbn [splitlines_from].
    + destruct cur; [constructor|].
      constructor; [apply Hrev, Hcur|constructor].
    + cbn [length] in Hlen. destruct (is_linebreak c) eqn:Hc.
      * destruct s as [|c' s].
        { constructor; [apply Hrev, Hcur|constructor]. }
        cbn [length] in Hlen.
        destruct (char_eqb c 13%N && char_eqb c' 10%N);
          (constructor; [apply Hrev, Hcur|]); apply IH;
          try constructor; cbn [length]; lia.
      * apply IH; [lia|]. constructor; assumption.
Qed.

(** X10: no line that [extract_const_block] returns holds a line boundary:
    the lines come out of [splitlines]. *)
Theorem extract_const_block_lines (ua : char -> bool)
    (source const_name : str) (block : list str) :
  extract_const_block ua source const_name = Ok block ->
  Forall (Forall (fun c => is_linebreak c = false)) block.
Proof.
  intros H. apply extract_ok_iff in H
    as (pre & s & rest & Hsplit & _).
  pose proof (splitlines_from_lines (length source) source [] (le_n _)
                (List.Forall_nil _)) as Hall.
  fold (splitlines source) in Hall. rewrite Hsplit in Hall.
  apply Forall_app in Hall as [_ Hall].
  apply Forall_cons in Hall as [_ Hall].
  apply Forall_app in Hall as [Hall _]. exact Hall.
Qed.

Lemma extract_const_block_lines_witness :
  Forall (Forall (fun c => is_linebreak c = false)) [u "  a: 1,"; u "  b: 2,"].
Proof.
  apply (extract_const_block_lines no_letters_beyond_ascii
           (u "const x = {" ++ [13%N; 10%N] ++ u "  a: 1," ++ [10%N]
            ++ u "  b: 2," ++ [10%N] ++ u "};") (u "x")).
  vm_compute. reflexivity.
Defined.

(** ** More on the hierarchy builder *)

Lemma all_keys_Dict l :
  all_keys (Dict l) = flat_map (fun e => fst e :: all_keys (snd e)) l.
Proof.
  cbn [all_keys]. induction l as [|[k c] l IH]; [reflexivity|].
  cbn [flat_map fst snd]. rewrite <- IH. reflexivity.
Qed.

Lemma unique_keys_Dict l :
  unique_keys (Dict l)
  <-> NoDup (List.map fst l) /\ Forall (fun e => unique_keys (snd e)) l.
Proof.
  cbn [unique_keys]. apply and_iff_compat_l.
  induction l as [|[k c] l IH]; [split; constructor|].
  rewrite Forall_cons, IH. reflexivity.
Qed.

Lemma contains_In l key :
  contains l key = true <-> In key (List.map fst l).
Proof.
  induction l as [|[k c] l IH]; cbn [contains List.map fst In].
  - split; [discriminate | contradiction].
  - rewrite orb_true_iff, IH, str_eqb_eq. reflexivity.
Qed.

Lemma change_child_keys key f l :
  List.map fst (change_child key f l) = List.map fst l.
Proof.
  induction l as [|[k c] l IH]; [reflexivity|]. cbn [change_child].
  destruct (str_eqb k key); cbn [List.map fst]; [reflexivity|].
  rewrite IH. reflexivity.
Qed.

(** A write through a valid reference adds the key to the keys of the tree
    and nothing else. *)
Lemma all_keys_write_at key p :
  forall d x,
  deref p d = Ok x ->
  forall k,
  In k (all_keys (write_at p (add_key key) d)) <-> In k (all_keys d) \/ k = key.
Proof.
  induction p as [|k0 p IH]; intros d x Hp k; cbn [write_at].
  - unfold add_key. destruct d as [l]. cbn [items].
    destruct (contains l key) eqn:E.
    + split; [auto|]. intros [H| ->]; [exact H|].
      apply contains_In in E. rewrite all_keys_Dict.
      apply in_flat_map. apply in_map_iff in E as ([k1 c1] & <- & Hin).
      exists (k1, c1). split; [exact Hin | left; reflexivity].
    + rewrite !all_keys_Dict, flat_map_app, in_app_iff.
      cbn [flat_map fst snd all_keys app In]. intuition congruence.
  - destruct d as [l]. cbn [deref items] in *.
    rewrite !all_keys_Dict. revert Hp.
    induction l as [|[k1 c1] l IHl]; cbn [getitem change_child];
      [discriminate|].
    destruct (str_eqb k1 k0) eqn:E; cbn [bind flat_map fst snd].
    + intros Hp. rewrite !in_app_iff. cbn [In].
      rewrite (IH c1 x Hp k). tauto.
    + intros Hp. specialize (IHl Hp). rewrite !in_app_iff. cbn [In].
      rewrite IHl. tauto.
Qed.

Lemma unique_keys_write_at key p :
  forall d, unique_keys d -> unique_keys (write_at p (add_key key) d).
Proof.
  induction p as [|k0 p IH]; intros d Hd; cbn [write_at].
  - unfold add_key. destruct d as [l]. cbn [items].
    destruct (contains l key) eqn:E; [exact Hd|].
    apply unique_keys_Dict in Hd as [Hnd Hall]. apply unique_keys_Dict.
    rewrite List.map_app. split.
    + apply NoDup_app. split; [exact Hnd|]. split.
      * intros k Hk Hk'. apply list_elem_of_singleton in Hk' as ->.
        apply list_elem_of_In in Hk.
        apply (proj2 (contains_In l key)) in Hk. congruence.
      * apply NoDup_singleton.
    + apply Forall_app. split; [exact Hall|].
      constructor; [|constructor]. cbn. split; [constructor | exact I].
  - destruct d as [l]. cbn [items].
    apply unique_keys_Dict in Hd as [Hnd Hall]. apply unique_keys_Dict.
    rewrite change_child_keys. split; [exact Hnd|]. clear Hnd.
    induction Hall as [|[k1 c1] l Hc Hl IHl]; cbn [change_child];
      [constructor|].
    destruct (str_eqb k1 k0); constructor; cbn [snd] in *; auto.
Qed.

Lemma node_count_app l l' :
  node_count (Dict (l ++ l'))
  = (node_count (Dict l) + node_count (Dict l') - 1)%nat.
Proof.
  cbn [node_count]. induction l as [|[k c] l IH]; cbn [app]; lia.
Qed.

Lemma node_count_write_at key p :
  forall d,
  (node_count (write_at p (add_key key) d) <= S (node_count d))%nat.
Proof.
  induction p as [|k0 p IH]; intros d; cbn [write_at].
  - unfold add_key. destruct d as [l]. cbn [items].
    destruct (contains l key); [lia|]. rewrite node_count_app. cbn. lia.
  - destruct d as [l]. cbn [items node_count].
    induction l as [|[k1 c1] l IHl]; cbn [change_child]; [lia|].
    destruct (str_eqb k1 k0).
    + specialize (IH c1). lia.
    + lia.
Qed.

Lemma attach_all_keys base step records :
  0 < step ->
  forall b b',
  stack_inv b ->
  attach_all base step records b = Ok b' ->
  (forall k, In k (all_keys (root_container b'))
             <-> In k (all_keys (root_container b))
                 \/ In k (List.map snd records))
  /\ (unique_keys (root_container b) -> unique_keys (root_container b'))
  /\ (node_count (root_container b')
      <= node_count (root_container b) + length records)%nat.
Proof.
  intros Hstep. induction records as [|[indent key] records IH];
    intros b b' Hinv Hrun.
  - injection Hrun as <-. split; [|split]; [|auto|cbn [length]; lia].
    intros k. cbn [List.map In]. tauto.
  - cbn [attach_all] in Hrun.
    destruct (attach_spec base step b indent key Hstep Hinv)
      as (level & parent & plevel & rest & b1 & _ & _ & _ & Hfilter & _ & Hat
          & _ & Hroot & _ & Hinv1).
    rewrite Hat in Hrun. cbn [bind] in Hrun.
    destruct (IH b1 b' Hinv1 Hrun) as (Hkeys & Huniq & Hcount).
    assert (Hparent : exists x, deref parent (root_container b) = Ok x).
    { pose proof (inv_refs _ Hinv) as Hrefs. rewrite Forall_forall in Hrefs.
      apply (Hrefs (plevel, parent)).
      assert (Hin : (plevel, parent)
                    ∈ filter (fun e => fst e < level) (stack b))
        by (rewrite Hfilter; left).
      apply list_elem_of_filter in Hin as [_ Hin]. exact Hin. }
    destruct Hparent as [x Hx]. rewrite Hroot in *.
    split; [|split].
    + intros k. rewrite Hkeys, (all_keys_write_at key parent _ x Hx).
      cbn [List.map snd In]. intuition congruence.
    + intros Hu. apply Huniq, unique_keys_write_at, Hu.
    + pose proof (node_count_write_at key parent (root_container b)).
      cbn [length]. lia.
Qed.

(** X11: for a non-empty list of records [build_tree_from_keys] returns
    the tree under the name of the declaration; the keys of the tree are
    the keys of the records, none left out and none added; no node has two
    children of one name, a key that comes again under the same parent
    being merged into the child already there; and the tree has at most one
    node for each record besides its root. *)
Theorem build_tree_from_keys_keys (const_name : str)
    (records : list (Z * str)) :
  records <> [] ->
  exists root,
    build_tree_from_keys const_name records = Ok (Dict [(const_name, root)])
    /\ (forall k, In k (all_keys root) <-> In k (List.map snd records))
    /\ unique_keys root
    /\ (node_count root <= S (length records))%nat.
Proof.
  intros Hne. destruct (base_indent_spec _ Hne) as (base & Hbase & _).
  pose proof (indent_step_pos base records) as Hstep.
  destruct (attach_all_inv base (indent_step_of base records) records Hstep
              _ initial_builder_inv) as (b & Hb & _).
  destruct (attach_all_keys base _ records Hstep _ _ initial_builder_inv Hb)
    as (Hkeys & Huniq & Hcount).
  exists (root_container b). split; [|split; [|split]].
  - unfold build_tree_from_keys. rewrite Hbase. cbn [bind]. rewrite Hb.
    reflexivity.
  - intros k. rewrite Hkeys. cbn. tauto.
  - apply Huniq. cbn. split; [constructor | exact I].
  - cbn in Hcount. lia.
Qed.

Lemma build_tree_from_keys_keys_witness :
  [(2, u "a"); (4, u "b"); (2, u "a"); (4, u "c")] <> []
  /\ exists root,
       build_tree_from_keys (u "t")
         [(2, u "a"); (4, u "b"); (2, u "a"); (4, u "c")]
       = Ok (Dict [(u "t", root)])
       /\ unique_keys root.
Proof.
  split; [discriminate|].
  destruct (build_tree_from_keys_keys (u "t")
              [(2, u "a"); (4, u "b"); (2, u "a"); (4, u "c")])
    as (root & H1 & _ & H3 & _); [discriminate|].
  exists root. auto.
Defined.

(** Every entry of the stack but the entry of the root has a level of 1 or
    more. *)
Lemma attach_all_levels base step records :
  0 < step ->
  forall b b',
  stack_inv b ->
  Forall (fun e => e = (-1, []) \/ 1 <= fst e) (stack b) ->
  attach_all base step records b = Ok b' ->
  Forall (fun e => e = (-1, []) \/ 1 <= fst e) (stack b').
Proof.
  intros Hstep. induction records as [|[indent key] records IH];
    intros b b' Hinv Hpos Hrun.
  - injection Hrun as <-. exact Hpos.
  - cbn [attach_all] in Hrun.
    destruct (attach_spec base step b indent key Hstep Hinv)
      as (level & parent & plevel & rest & b1 & _ & Hge & _ & Hfilter & _
          & Hat & Hstack & _ & _ & Hinv1).
    rewrite Hat in Hrun. cbn [bind] in Hrun.
    apply (IH b1 b' Hinv1); [|exact Hrun]. rewrite Hstack.
    constructor; [right; exact Hge|]. rewrite <- Hfilter.
    apply Forall_forall. intros e He.
    apply list_elem_of_filter in He as [_ He].
    rewrite Forall_forall in Hpos. apply Hpos, He.
Qed.

Lemma attach_all_deref base step records :
  0 < step ->
  forall b b' r x,
  stack_inv b ->
  deref r (root_container b) = Ok x ->
  attach_all base step records b = Ok b' ->
  exists x', deref r (root_container b') = Ok x'.
Proof.
  intros Hstep. induction records as [|[indent key] records IH];
    intros b b' r x Hinv Hr Hrun.
  - injection Hrun as <-. eauto.
  - cbn [attach_all] in Hrun.
    destruct (attach_spec base step b indent key Hstep Hinv)
      as (level & parent & plevel & rest & b1 & _ & _ & _ & _ & _
          & Hat & _ & Hroot & _ & Hinv1).
    rewrite Hat in Hrun. cbn [bind] in Hrun.
    destruct (deref_write_at key parent _ _ _ Hr) as [x1 Hx1].
    rewrite <- Hroot in Hx1. apply (IH b1 b' r x1 Hinv1 Hx1 Hrun).
Qed.

(** X12: the key of the first record, and the key of every record whose
    indent is the least of all, is a child of the root of the tree, however
    the other records are indented. *)
Theorem build_tree_from_keys_top (const_name : str)
    (pre : list (Z * str)) (indent : Z) (key : str) (post : list (Z * str)) :
  pre = []
  \/ (forall r, In r (pre ++ (indent, key) :: post) -> indent <= fst r) ->
  exists root,
    build_tree_from_keys const_name (pre ++ (indent, key) :: post)
    = Ok (Dict [(const_name, root)])
    /\ contains (items root) key = true.
Proof.
  intros Hcase. set (records := pre ++ (indent, key) :: post) in *.
  assert (Hne : records <> []) by (unfold records; destruct pre; discriminate).
  destruct (base_indent_spec _ Hne) as (base & Hbase & (r0 & Hr0 & Hr0b) & Hle).
  pose proof (indent_step_pos base records) as Hstep.
  set (step := indent_step_of base records) in *.
  destruct (attach_all_inv base step pre Hstep _ initial_builder_inv)
    as (b0 & Hb0 & Hinv0).
  assert (Hpos0 : Forall (fun e => e = (-1, []) \/ 1 <= fst e) (stack b0)).
  { apply (attach_all_levels base step pre Hstep _ _ initial_builder_inv);
      [|exact Hb0]. repeat constructor. }
  destruct (attach_spec base step b0 indent key Hstep Hinv0)
    as (level & parent & plevel & rest & b1 & Hlevel & _ & _ & Hfilter & _
        & Hat & _ & _ & (pd & Hpd & Hkey) & Hinv1).
  destruct (attach_all_inv base step post Hstep _ Hinv1) as (b & Hb & _).
  assert (Hparent : parent = []).
  { assert (Hin : (plevel, parent)
                  ∈ filter (fun e => fst e < level) (stack b0))
      by (rewrite Hfilter; left).
    apply list_elem_of_filter in Hin as [Hlt Hin]. cbn [fst] in Hlt.
    rewrite Forall_forall in Hpos0.
    destruct (Hpos0 _ Hin) as [[= _ ->]|Hge]; [reflexivity|].
    cbn [fst] in Hge. exfalso. destruct Hcase as [->|Hmin].
    - injection Hb0 as <-. cbn [stack initial_builder] in Hin.
      apply list_elem_of_singleton in Hin. injection Hin as -> _. lia.
    - assert (Hib : indent = base).
      { apply Z.le_antisymm.
        - rewrite <- Hr0b. apply Hmin. apply list_elem_of_In, Hr0.
        - apply (Hle (indent, key)). unfold records.
          apply elem_of_app. right. left. }
      rewrite level_of_spec in Hlevel by exact Hstep.
      injection Hlevel as <-. rewrite Hib, Z.sub_diag, Z.div_0_l in Hlt; lia. }
  subst parent. cbn [deref] in Hpd. injection Hpd as <-.
  apply contains_getitem in Hkey as [c Hc].
  destruct (attach_all_deref base step post Hstep b1 b [key] c Hinv1) as [c' Hc'];
    [cbn [deref]; rewrite Hc; reflexivity | exact Hb |].
  exists (root_container b). split.
  - unfold build_tree_from_keys. rewrite Hbase. cbn [bind]. fold step.
    unfold records. rewrite attach_all_app, Hb0. cbn [bind attach_all].
    rewrite Hat. cbn [bind]. rewrite Hb. reflexivity.
  - apply contains_getitem. cbn [deref] in Hc'.
    destruct (getitem (items (root_container b)) key) as [c2|];
      [eauto | discriminate Hc'].
Qed.

Lemma build_tree_from_keys_top_witness :
  exists root,
    build_tree_from_keys (u "t") ([] ++ (6, u "deep") :: [(2, u "a")])
    = Ok (Dict [(u "t", root)])
    /\ contains (items root) (u "deep") = true.
Proof.
  apply (build_tree_from_keys_top (u "t") [] 6 (u "deep") [(2, u "a")]).
  left. reflexivity.
Defined.

(** ** More on the named-tree renderer *)

(** Induction over a tree and the trees under it. *)
Lemma dict_nested_ind (P : dict -> Prop) :
  (forall l, Forall (fun e => P (snd e)) l -> P (Dict l)) ->
  forall d, P d.
Proof.
  intros H. fix IH 1. intros [l]. apply H.
  exact ((fix go (l : list (str * dict)) : Forall (fun e => P (snd e)) l :=
            match l with
            | [] => List.Forall_nil _
            | e :: l' => List.Forall_cons _ e l' (IH (snd e)) (go l')
            end) l).
Qed.

(** X13: [tree_to_md_lines] writes one line for every node of the tree, the
    node it is called on included, whatever the prefix and the flag. *)
Theorem tree_to_md_lines_length (t : dict) :
  forall name prefix is_last,
  length (tree_to_md_lines name t prefix is_last) = node_count t.
Proof.
  induction t as [l IH] using dict_nested_ind. intros name prefix is_last.
  rewrite tree_to_md_lines_unfold. cbn [length node_count]. f_equal.
  generalize (prefix ++ (if is_last then BLANK else PIPE)).
  generalize (Z.of_nat (length l)) 0.
  induction IH as [|[k c] l Hc _ IHl]; intros n i cp; [reflexivity|].
  cbn [child_rows]. rewrite length_app, IHl. cbn [snd] in Hc.
  rewrite Hc. reflexivity.
Qed.

Lemma tree_to_md_lines_under (t : dict) :
  forall name (prefix : str) is_last,
  prefix <> [] ->
  Forall (fun line => prefix `prefix_of` line)
    (tree_to_md_lines name t prefix is_last).
Proof.
  induction t as [l IH] using dict_nested_ind.
  intros name prefix is_last Hne. rewrite tree_to_md_lines_unfold.
  constructor.
  - destruct prefix; [congruence|]. cbn [str_truthy]. eexists. reflexivity.
  - set (cp := prefix ++ (if is_last then BLANK else PIPE)).
    assert (Hcp : cp <> []) by (unfold cp; destruct prefix; [congruence|discriminate]).
    assert (Hpre : prefix `prefix_of` cp) by (eexists; reflexivity).
    generalize (Z.of_nat (length l)) 0.
    induction IH as [|[k c] l Hc _ IHl]; intros n i; [constructor|].
    cbn [child_rows]. apply Forall_app. split; [|apply IHl].
    cbn [snd] in Hc. eapply Forall_impl; [apply (Hc k cp _ Hcp)|].
    intros line Hline. etransitivity; eassumption.
Qed.

(** X14: every line after the first that [tree_to_md_lines] writes for a
    node starts with the prefix of the node, extended by four blanks when
    the node is a last child and by the vertical-bar piece when it is not;
    from the first call on, with the empty prefix, that is four blanks in
    front of every line but the first. *)
Theorem tree_to_md_lines_indent (t : dict) (name prefix : str)
    (is_last : bool) :
  Forall
    (fun line =>
       (prefix ++ (if is_last then u "    " else u "│   "))
       `prefix_of` line)
    (tail (tree_to_md_lines name t prefix is_last))
  /\ Forall (fun line => u "    " `prefix_of` line)
       (tail (tree_to_md_lines name t [] true)).
Proof.
  assert (Hgen : forall (p : str) (f : bool),
    Forall (fun line => (p ++ (if f then BLANK else PIPE)) `prefix_of` line)
      (tail (tree_to_md_lines name t p f))).
  { intros p f. destruct t as [l]. rewrite tree_to_md_lines_unfold.
    cbn [tail]. set (cp := p ++ (if f then BLANK else PIPE)).
    assert (Hcp : cp <> [])
      by (unfold cp; destruct p, f; discriminate).
    generalize (Z.of_nat (length l)) 0.
    induction l as [|[k c] l IHl]; intros n i; [constructor|].
    cbn [child_rows]. apply Forall_app. split; [|apply IHl].
    apply tree_to_md_lines_under, Hcp. }
  split; [apply Hgen | apply (Hgen [] true)].
Qed.

(** ** The pipeline of app2.py *)

Lemma build_tree_from_keys_ok const_name records :
  records <> [] ->
  exists root,
    build_tree_from_keys const_name records = Ok (Dict [(const_name, root)])
    /\ (forall k, In k (all_keys root) -> In k (List.map snd records)).
Proof.
  intros Hne. destruct (base_indent_spec _ Hne) as (base & Hbase & _).
  pose proof (indent_step_pos base records) as Hstep.
  destruct (attach_all_inv base (indent_step_of base records) records Hstep
              _ initial_builder_inv) as (b & Hb & _).
  destruct (attach_all_keys base _ records Hstep _ _ initial_builder_inv Hb)
    as (Hkeys & _).
  exists (root_container b). split.
  - unfold build_tree_from_keys. rewrite Hbase. cbn [bind]. rewrite Hb.
    reflexivity.
  - intros k Hk. apply Hkeys in Hk as [Hk|Hk]; [contradiction | exact Hk].
Qed.

Lemma find_property_keys_nonempty ua block records :
  find_property_keys ua block = Ok records -> records <> [].
Proof.
  unfold find_property_keys. destruct (collect_keys ua block []);
    [discriminate|]. intros [= <-]. discriminate.
Qed.

Lemma getitem_single name (root : dict) :
  getitem (items (Dict [(name, root)])) name = Ok root.
Proof.
  cbn [items getitem].
  replace (str_eqb name name) with true; [reflexivity|].
  symmetry. apply str_eqb_eq. reflexivity.
Qed.

(** X15: [convert_ts_const_to_md] raises the error of the block extractor
    when that raises, and the error of the key recovery when a block was
    found and that raises. When both return, the builder raises at none of
    the places where it could: the records are not empty when the least
    indent is taken, the step it divides by is not 0, the stack is not
    empty when its top is read; and the name is a key of the tree it
    returns, so the lookup of the root finds it. A result that is returned
    is the fenced lines of the renderer on that root. None of the four
    errors of the builder and of the lookup is ever the outcome. *)
Theorem convert_ts_const_to_md_outcome (ua : char -> bool)
    (source const_name : str) :
  match extract_const_block ua source const_name with
  | Err e => convert_ts_const_to_md ua source const_name = Err e
  | Ok block =>
      match find_property_keys ua block with
      | Err e => convert_ts_const_to_md ua source const_name = Err e
      | Ok records =>
          exists root,
            build_tree_from_keys const_name records
            = Ok (Dict [(const_name, root)])
            /\ getitem (items (Dict [(const_name, root)])) const_name
               = Ok root
            /\ forall out,
                 convert_ts_const_to_md ua source const_name = Ok out ->
                 out = u "```text" ++ [10%N]
                       ++ join [10%N]
                            (tree_to_md_lines const_name root [] true)
                       ++ [10%N] ++ u "```"
      end
  end
  /\ forall e,
       convert_ts_const_to_md ua source const_name = Err e ->
       e <> MinOfEmpty /\ e <> ZeroDivision /\ e <> IndexError
       /\ e <> KeyError.
Proof.
  assert (Hmain :
    match extract_const_block ua source const_name with
    | Err e => convert_ts_const_to_md ua source const_name = Err e
    | Ok block =>
        match find_property_keys ua block with
        | Err e => convert_ts_const_to_md ua source const_name = Err e
        | Ok records =>
            exists root,
              build_tree_from_keys const_name records
              = Ok (Dict [(const_name, root)])
              /\ convert_ts_const_to_md ua source const_name
                 = Ok (u "```text" ++ [10%N]
                       ++ join [10%N]
                            (tree_to_md_lines const_name root [] true)
                       ++ [10%N] ++ u "```")
        end
    end).
  { unfold convert_ts_const_to_md.
    destruct (extract_const_block ua source const_name) as [block|e];
      [|reflexivity]. cbn [bind].
    destruct (find_property_keys ua block) as [records|e] eqn:Ef;
      [|reflexivity]. cbn [bind].
    destruct (build_tree_from_keys_ok const_name records
                (find_property_keys_nonempty ua block records Ef))
      as (root & Hroot & _).
    exists root. split; [exact Hroot|]. rewrite Hroot. cbn [bind].
    rewrite getitem_single. reflexivity. }
  split.
  - destruct (extract_const_block ua source const_name) as [block|e];
      [|exact Hmain].
    destruct (find_property_keys ua block) as [records|e]; [|exact Hmain].
    destruct Hmain as (root & Hroot & Hout). exists root.
    split; [exact Hroot|]. split; [apply getitem_single|].
    intros out Hres. congruence.
  - intros e He.
    destruct (extract_const_block ua source const_name) as [block|e1] eqn:Ex.
    + destruct (find_property_keys ua block) as [records|e2] eqn:Ef.
      * destruct Hmain as (root & _ & Hok). congruence.
      * assert (e2 = e) by congruence. subst e2.
        unfold find_property_keys in Ef.
        destruct (collect_keys ua block []); [|discriminate Ef].
        injection Ef as <-. repeat split; discriminate.
    + assert (e1 = e) by congruence. subst e1.
      unfold extract_const_block in Ex.
      destruct (scan_lines ua const_name (splitlines source) false [])
        as [[|] [|l block]]; try discriminate Ex; injection Ex as <-;
        repeat split; discriminate.
Qed.

(** ** The output, read back line by line *)

Lemma splitlines_from_line (l : str) :
  Forall (fun c => is_linebreak c = false) l ->
  forall cur rest,
  rest <> [] ->
  splitlines_from cur (l ++ 10%N :: rest)
  = (rev cur ++ l) :: splitlines_from [] rest.
Proof.
  induction 1 as [|a l Ha _ IH]; intros cur rest Hrest.
  - cbn [app splitlines_from]. change (is_linebreak 10%N) with true. cbn iota.
    destruct rest as [|c' s]; [congruence|].
    change (char_eqb 10%N 13%N) with false. cbn [andb].
    rewrite app_nil_r. reflexivity.
  - cbn [app splitlines_from]. rewrite Ha, (IH _ _ Hrest). cbn [rev].
    rewrite <- app_assoc. reflexivity.
Qed.

Lemma splitlines_from_last (l : str) :
  Forall (fun c => is_linebreak c = false) l ->
  forall cur,
  rev cur ++ l <> [] ->
  splitlines_from cur l = [rev cur ++ l].
Proof.
  induction 1 as [|a l Ha _ IH]; intros cur Hne.
  - cbn [splitlines_from]. rewrite app_nil_r in *.
    destruct cur; [cbn in Hne; congruence | reflexivity].
  - cbn [splitlines_from]. rewrite Ha, IH; cbn [rev]; rewrite <- app_assoc;
      [reflexivity|]. cbn [app]. destruct (rev cur); discriminate.
Qed.

Lemma splitlines_lines (lines : list str) (last_line : str) :
  Forall (Forall (fun c => is_linebreak c = false)) lines ->
  Forall (fun c => is_linebreak c = false) last_line ->
  last_line <> [] ->
  splitlines (List.concat (List.map (fun l => l ++ [10%N]) lines) ++ last_line)
  = lines ++ [last_line].
Proof.
  intros Hlines Hlast Hne. unfold splitlines.
  induction Hlines as [|l lines Hl _ IH]; cbn [List.map List.concat app].
  - apply (splitlines_from_last last_line Hlast []). exact Hne.
  - rewrite <- !app_assoc. cbn [app].
    rewrite (splitlines_from_line l Hl []), IH; [reflexivity|].
    destruct lines as [|l2 lines]; cbn [List.map List.concat app];
      [exact Hne|]. destruct l2; discriminate.
Qed.

Lemma join_lines (lines : list str) :
  lines <> [] ->
  join [10%N] lines ++ [10%N]
  = List.concat (List.map (fun l => l ++ [10%N]) lines).
Proof.
  induction lines as [|l lines IH]; [congruence|]. intros _.
  destruct lines as [|l2 lines].
  - cbn. rewrite app_nil_r. reflexivity.
  - specialize (IH ltac:(discriminate)).
    change (join [10%N] (l :: l2 :: lines))
      with (l ++ [10%N] ++ join [10%N] (l2 :: lines)).
    change (List.concat (List.map (fun l => l ++ [10%N]) (l :: l2 :: lines)))
      with ((l ++ [10%N])
            ++ List.concat (List.map (fun l => l ++ [10%N]) (l2 :: lines))).
    rewrite <- IH, <- !app_assoc. reflexivity.
Qed.

Lemma splitlines_fenced (lines : list str) :
  lines <> [] ->
  Forall (Forall (fun c => is_linebreak c = false)) lines ->
  splitlines (u "```text" ++ [10%N] ++ join [10%N] lines ++ [10%N] ++ u "```")
  = u "```text" :: lines ++ [u "```"].
Proof.
  intros Hne Hlines.
  replace (u "```text" ++ [10%N] ++ join [10%N] lines ++ [10%N] ++ u "```")
    with (List.concat (List.map (fun l => l ++ [10%N]) (u "```text" :: lines))
          ++ u "```").
  - apply (splitlines_lines (u "```text" :: lines) (u "```")).
    + constructor; [repeat constructor | exact Hlines].
    + repeat constructor.
    + discriminate.
  - cbn [List.map List.concat]. rewrite <- (join_lines lines Hne).
    rewrite <- !app_assoc. reflexivity.
Qed.

Lemma pieces_plain :
  Forall (fun c => is_linebreak c = false) PIPE
  /\ Forall (fun c => is_linebreak c = false) TEE
  /\ Forall (fun c => is_linebreak c = false) ELBOW
  /\ Forall (fun c => is_linebreak c = false) BLANK.
Proof. repeat split; repeat constructor. Qed.

Lemma tree_lines_plain (t : dict) :
  forall name prefix is_last,
  Forall (fun c => is_linebreak c = false) name ->
  Forall (fun c => is_linebreak c = false) prefix ->
  Forall (Forall (fun c => is_linebreak c = false)) (all_keys t) ->
  Forall (Forall (fun c => is_linebreak c = false))
    (tree_to_md_lines name t prefix is_last).
Proof.
  destruct pieces_plain as (Hpipe & Htee & Helbow & Hblank).
  induction t as [l IH] using dict_nested_ind.
  intros name prefix is_last Hname Hprefix Hkeys.
  rewrite tree_to_md_lines_unfold. constructor.
  - destruct (str_truthy prefix); [|exact Hname].
    repeat (apply Forall_app; split); try assumption.
    destruct is_last; assumption.
  - assert (Hcp : Forall (fun c => is_linebreak c = false)
                    (prefix ++ (if is_last then BLANK else PIPE))).
    { apply Forall_app. split; [exact Hprefix|]. destruct is_last; assumption. }
    revert Hcp. generalize (prefix ++ (if is_last then BLANK else PIPE)).
    intros cp Hcp. rewrite all_keys_Dict in Hkeys.
    generalize (Z.of_nat (length l)) 0.
    induction IH as [|[k c] l Hc _ IHl]; intros n i; [constructor|].
    cbn [flat_map fst snd] in Hkeys. apply Forall_app in Hkeys as [Hk Hkeys].
    apply Forall_cons in Hk as [Hk Hck].
    cbn [child_rows]. apply Forall_app. split; [|apply IHl, Hkeys].
    apply Hc; assumption.
Qed.

Lemma key_of_line_plain ua line indent key :
  key_of_line ua line = Some (indent, key) ->
  Forall (fun c => is_linebreak c = false) line ->
  Forall (fun c => is_linebreak c = false) key.
Proof.
  intros H Hline. apply key_of_line_shape in H
    as [(ws & ws2 & rest & -> & _)
       |(ws & q1 & q2 & ws2 & rest & -> & _)].
  - apply Forall_app in Hline as [_ Hline].
    apply Forall_app in Hline as [Hline _]. exact Hline.
  - apply Forall_app in Hline as [_ Hline].
    apply Forall_app in Hline as [_ Hline].
    apply Forall_app in Hline as [Hline _]. exact Hline.
Qed.

Lemma find_property_keys_plain ua block records :
  find_property_keys ua block = Ok records ->
  Forall (Forall (fun c => is_linebreak c = false)) block ->
  Forall (fun r => Forall (fun c => is_linebreak c = false) (snd r)) records.
Proof.
  unfold find_property_keys. rewrite collect_keys_omap. cbn [app].
  intros H Hblock.
  assert (Hall : Forall (fun r => Forall (fun c => is_linebreak c = false)
                                    (snd r)) (omap (key_of_line ua) block)).
  { apply Forall_forall. intros [i k] Hr.
    apply list_elem_of_omap in Hr as (line & Hline & Hk).
    rewrite Forall_forall in Hblock.
    apply (key_of_line_plain ua line i k Hk), Hblock, Hline. }
  destruct (omap (key_of_line ua) block); [discriminate H|].
  injection H as <-. exact Hall.
Qed.

(** X16: what [convert_ts_const_to_md] returns, cut into lines again, is
    the opening fence, the lines of [tree_to_md_lines] one by one, and the
    closing fence: no name or key of the tree can break a line, since the
    name and the keys were found inside lines of the source. *)
Theorem convert_ts_const_to_md_lines (ua : char -> bool)
    (source const_name out : str) :
  convert_ts_const_to_md ua source const_name = Ok out ->
  exists block records root,
    extract_const_block ua source const_name = Ok block
    /\ find_property_keys ua block = Ok records
    /\ build_tree_from_keys const_name records
       = Ok (Dict [(const_name, root)])
    /\ splitlines out
       = u "```text" :: tree_to_md_lines const_name root [] true ++ [u "```"].
Proof.
  intros Hout. unfold convert_ts_const_to_md in Hout.
  destruct (extract_const_block ua source const_name) as [block|e] eqn:Ex;
    [|discriminate Hout]. cbn [bind] in Hout.
  destruct (find_property_keys ua block) as [records|e] eqn:Ef;
    [|discriminate Hout]. cbn [bind] in Hout.
  destruct (build_tree_from_keys_ok const_name records
              (find_property_keys_nonempty ua block records Ef))
    as (root & Hroot & Hkeys).
  rewrite Hroot in Hout. cbn [bind] in Hout.
  rewrite getitem_single in Hout. cbn [bind] in Hout. injection Hout as <-.
  exists block, records, root. split; [reflexivity|]. split; [exact Ef|].
  split; [exact Hroot|].
  pose proof (splitlines_from_lines (length source) source [] (le_n _)
                (List.Forall_nil _)) as Hsrc.
  fold (splitlines source) in Hsrc.
  apply extract_ok_iff in Ex as (pre & s & rest & Hsplit & _ & Hs & _).
  rewrite Hsplit in Hsrc. apply Forall_app in Hsrc as [_ Hsrc].
  apply Forall_cons in Hsrc as [Hsline Hsrc].
  apply Forall_app in Hsrc as [Hblock _].
  assert (Hname : Forall (fun c => is_linebreak c = false) const_name).
  { apply is_start_line_spec in Hs
      as (before & ws1 & ws2 & after & -> & _).
    apply Forall_app in Hsline as [_ Hsline].
    apply Forall_app in Hsline as [_ Hsline].
    apply Forall_app in Hsline as [_ Hsline].
    apply Forall_app in Hsline as [Hsline _]. exact Hsline. }
  pose proof (find_property_keys_plain ua block records Ef Hblock) as Hrecs.
  apply splitlines_fenced.
  - destruct root as [l]. rewrite tree_to_md_lines_unfold. discriminate.
  - apply tree_lines_plain; [exact Hname | constructor |].
    apply Forall_forall. intros k Hk.
    apply list_elem_of_In, Hkeys, in_map_iff in Hk as ([i k'] & <- & Hin).
    rewrite Forall_forall in Hrecs.
    apply (Hrecs (i, k')), list_elem_of_In, Hin.
Qed.

Lemma convert_ts_const_to_md_lines_witness :
  exists block records root,
    extract_const_block no_letters_beyond_ascii
      (u "const t = {" ++ [10%N] ++ u "  a: 1," ++ [10%N] ++ u "};") (u "t")
    = Ok block
    /\ find_property_keys no_letters_beyond_ascii block = Ok records
    /\ build_tree_from_keys (u "t") records = Ok (Dict [(u "t", root)])
    /\ splitlines
         (u "```text" ++ [10%N] ++ u "t" ++ [10%N] ++ u "    └── a" ++ [10%N]
          ++ u "```")
       = u "```text" :: tree_to_md_lines (u "t") root [] true ++ [u "```"].
Proof.
  apply (convert_ts_const_to_md_lines no_letters_beyond_ascii).
  vm_compute. reflexivity.
Defined.

Lemma value_keys_VDict l :
  value_keys (VDict l) = flat_map (fun e => fst e :: value_keys (snd e)) l.
Proof.
  cbn [value_keys]. induction l as [|[k x] l IH]; [reflexivity|].
  cbn [flat_map fst snd]. rewrite <- IH. reflexivity.
Qed.

Lemma value_keys_VList l : value_keys (VList l) = flat_map value_keys l.
Proof.
  cbn [value_keys]. induction l as [|x l IH]; [reflexivity|].
  cbn [flat_map]. rewrite <- IH. reflexivity.
Qed.

Lemma str_mul_plain (s : str) (n : Z) :
  Forall (fun c => is_linebreak c = false) s ->
  Forall (fun c => is_linebreak c = false) (str_mul s n).
Proof.
  intros Hs. unfold str_mul.
  induction (Z.to_nat n) as [|k IH]; cbn [List.repeat List.concat];
    [constructor|]. apply Forall_app. split; assumption.
Qed.

Lemma digit_plain (n : N) : is_linebreak (48 + n mod 10)%N = false.
Proof.
  pose proof (N.mod_lt n 10 ltac:(discriminate)) as H.
  generalize dependent (n mod 10)%N. intros m H. unfold is_linebreak.
  repeat rewrite ?orb_false_iff, ?andb_false_iff, ?N.leb_gt, ?N.eqb_neq.
  lia.
Qed.

Lemma str_of_index_plain (idx : Z) :
  Forall (fun c => is_linebreak c = false) (str_of_index idx).
Proof.
  unfold str_of_index.
  generalize (S (N.to_nat (N.log2 (Z.to_N idx)))) (Z.to_N idx).
  assert (H : forall fuel n acc,
    Forall (fun c => is_linebreak c = false) acc ->
    Forall (fun c => is_linebreak c = false) (digits_fuel fuel n acc)).
  { induction fuel as [|fuel IH]; intros n acc Hacc; [exact Hacc|].
    cbn [digits_fuel].
    assert (Hacc' : Forall (fun c => is_linebreak c = false)
                      ((48 + n mod 10)%N :: acc))
      by (constructor; [apply digit_plain | exact Hacc]).
    destruct (n <? 10)%N; [exact Hacc' | apply IH, Hacc']. }
  intros fuel n. apply H. constructor.
Qed.

Lemma below_plain v d :
  (forall indent,
     Forall (Forall (fun c => is_linebreak c = false)) (build_tree v indent)) ->
  Forall (Forall (fun c => is_linebreak c = false)) (below v d).
Proof.
  intros H. destruct pieces_plain as (Hpipe & _).
  destruct v; cbn [below]; [apply H | apply H |].
  constructor; [|constructor]. unfold marker. apply Forall_app.
  split; [apply str_mul_plain, Hpipe | repeat constructor].
Qed.

Lemma build_tree_plain (v : value) :
  forall d,
  Forall (Forall (fun c => is_linebreak c = false)) (value_keys v) ->
  Forall (Forall (fun c => is_linebreak c = false)) (build_tree v d).
Proof.
  destruct pieces_plain as (Hpipe & Htee & Helbow & _).
  induction v as [items IH|items IH|s] using value_nested_ind; intros d Hkeys;
    [| |constructor].
  - rewrite build_tree_VDict. rewrite value_keys_VDict in Hkeys.
    generalize (Z.of_nat (length items)) 0.
    induction IH as [|[key v] rest Hv _ IHrest]; intros n i; [constructor|].
    cbn [flat_map fst snd] in Hkeys. apply Forall_app in Hkeys as [Hk Hkeys].
    apply Forall_cons in Hk as [Hk Hvk].
    cbn [dict_rows]. apply Forall_app. split; [|apply IHrest, Hkeys].
    constructor.
    + unfold dict_head, connector_at. destruct (d =? 0); [exact Hk|].
      repeat (apply Forall_app; split); try assumption.
      * apply str_mul_plain, Hpipe.
      * destruct (i =? n - 1); assumption.
    + apply below_plain. intros indent. apply Hv, Hvk.
  - rewrite build_tree_VList. rewrite value_keys_VList in Hkeys.
    generalize (Z.of_nat (length items)) 0.
    induction IH as [|v rest Hv _ IHrest]; intros n i; [constructor|].
    cbn [flat_map] in Hkeys. apply Forall_app in Hkeys as [Hvk Hkeys].
    cbn [list_rows]. apply Forall_app. split; [|apply IHrest, Hkeys].
    constructor.
    + unfold list_head, connector_at.
      repeat (apply Forall_app; split);
        try apply str_of_index_plain; try (repeat constructor; fail).
      * apply str_mul_plain, Hpipe.
      * destruct (i =? n - 1); assumption.
    + apply below_plain. intros indent. apply Hv, Hvk.
Qed.

(** X17: when no key of the document holds a line boundary, what
    [convert_json_to_md] returns, cut into lines again, is the opening
    fence, the lines of [build_tree] one by one, and the closing fence;
    when [build_tree] writes nothing there is one empty line between the
    fences. *)
Theorem convert_json_to_md_lines (data : value) :
  Forall (Forall (fun c => is_linebreak c = false)) (value_keys data) ->
  splitlines (convert_json_to_md data)
  = u "```text"
    :: match build_tree data 0 with
       | [] => [[]]
       | l :: ls => l :: ls
       end
    ++ [u "```"].
Proof.
  intros Hkeys. pose proof (build_tree_plain data 0 Hkeys) as Hlines.
  unfold convert_json_to_md.
  destruct (build_tree data 0) as [|l ls]; [vm_compute; reflexivity|].
  apply splitlines_fenced; [discriminate | exact Hlines].
Qed.

Lemma convert_json_to_md_lines_witness :
  splitlines (convert_json_to_md nested_pair)
  = u "```text"
    :: match build_tree nested_pair 0 with
       | [] => [[]]
       | l :: ls => l :: ls
       end
    ++ [u "```"].
Proof. apply convert_json_to_md_lines. repeat constructor. Defined.

(** ** From a tree to its records and back *)

Lemma flatten_Dict indent w l :
  flatten indent w (Dict l)
  = flat_map (fun e => (indent, fst e) :: flatten (indent + w) w (snd e)) l.
Proof.
  cbn [flatten]. induction l as [|[k c] l IH]; [reflexivity|].
  cbn [flat_map fst snd]. rewrite <- IH. reflexivity.
Qed.

Lemma change_child_ext key (f g : dict -> dict) l :
  (forall x, f x = g x) -> change_child key f l = change_child key g l.
Proof.
  intros H. induction l as [|[k c] l IH]; [reflexivity|]. cbn [change_child].
  destruct (str_eqb k key); [rewrite H | rewrite IH]; reflexivity.
Qed.

Lemma write_at_ext p (f g : dict -> dict) :
  (forall x, f x = g x) -> forall d, write_at p f d = write_at p g d.
Proof.
  intros H. induction p as [|k p IH]; intros d; cbn [write_at]; [apply H|].
  f_equal. apply change_child_ext, IH.
Qed.

Lemma write_at_app p q (f : dict -> dict) :
  forall d, write_at (p ++ q) f d = write_at p (write_at q f) d.
Proof.
  induction p as [|k p IH]; intros d; cbn [app write_at]; [reflexivity|].
  f_equal. apply change_child_ext, IH.
Qed.

Lemma change_child_twice key (f g : dict -> dict) l :
  change_child key f (change_child key g l)
  = change_child key (fun x => f (g x)) l.
Proof.
  induction l as [|[k c] l IH]; [reflexivity|]. cbn [change_child].
  destruct (str_eqb k key) eqn:E; cbn [change_child]; rewrite E;
    [reflexivity|]. rewrite IH. reflexivity.
Qed.

Lemma write_at_twice p (f g : dict -> dict) :
  forall d, write_at p f (write_at p g d) = write_at p (fun x => f (g x)) d.
Proof.
  induction p as [|k p IH]; intros d; cbn [write_at items]; [reflexivity|].
  f_equal. rewrite change_child_twice. apply change_child_ext, IH.
Qed.

Lemma change_child_found key (f g : dict -> dict) l x :
  getitem l key = Ok x ->
  f x = g x ->
  change_child key f l = change_child key g l.
Proof.
  induction l as [|[k c] l IH]; cbn [getitem change_child]; [discriminate|].
  destruct (str_eqb k key).
  - intros [= ->] ->. reflexivity.
  - intros Hx Hfg. rewrite (IH Hx Hfg). reflexivity.
Qed.

(** A write only looks at the container it reaches. *)
Lemma write_at_found p (f g : dict -> dict) :
  forall d x,
  deref p d = Ok x -> f x = g x -> write_at p f d = write_at p g d.
Proof.
  induction p as [|k p IH]; intros d x Hp Hfg; cbn [write_at deref] in *.
  - injection Hp as ->. exact Hfg.
  - f_equal. destruct (getitem (items d) k) as [c|] eqn:E; [|discriminate Hp].
    cbn [bind] in Hp. apply (change_child_found k _ _ _ c E).
    apply (IH c x Hp Hfg).
Qed.

Lemma deref_write_at_same p (f : dict -> dict) :
  forall d x, deref p d = Ok x -> deref p (write_at p f d) = Ok (f x).
Proof.
  induction p as [|k p IH]; intros d x Hp; cbn [write_at deref] in *.
  - injection Hp as ->. reflexivity.
  - cbn [items]. rewrite getitem_change_child.
    destruct (getitem (items d) k) as [c|]; [|discriminate Hp].
    cbn [bind] in *.
    replace (str_eqb k k) with true by (symmetry; apply str_eqb_eq; reflexivity).
    apply IH, Hp.
Qed.

Lemma deref_app p q :
  forall d, deref (p ++ q) d = (let* x := deref p d in deref q x).
Proof.
  induction p as [|k p IH]; intros d; cbn [app deref]; [reflexivity|].
  destruct (getitem (items d) k); cbn [bind]; [apply IH | reflexivity].
Qed.

Lemma fresh_contains l key :
  ~ In key (List.map fst l) -> contains l key = false.
Proof.
  intros H. destruct (contains l key) eqn:E; [|reflexivity].
  apply contains_In in E. contradiction.
Qed.

Lemma getitem_fresh_last l key (v : dict) :
  ~ In key (List.map fst l) -> getitem (l ++ [(key, v)]) key = Ok v.
Proof.
  induction l as [|[k c] l IH]; cbn [List.map fst In app getitem]; intros H.
  - replace (str_eqb key key) with true
      by (symmetry; apply str_eqb_eq; reflexivity). reflexivity.
  - destruct (str_eqb_spec k key) as [->|_]; [tauto|]. apply IH. tauto.
Qed.

Lemma change_child_fresh_last l key (f : dict -> dict) (v : dict) :
  ~ In key (List.map fst l) ->
  change_child key f (l ++ [(key, v)]) = l ++ [(key, f v)].
Proof.
  induction l as [|[k c] l IH]; cbn [List.map fst In app change_child];
    intros H.
  - replace (str_eqb key key) with true
      by (symmetry; apply str_eqb_eq; reflexivity). reflexivity.
  - destruct (str_eqb_spec k key) as [->|_]; [tauto|]. rewrite IH; tauto.
Qed.

Lemma pop_to_newer level newer plevel (p : ref) rest :
  Forall (fun e => level <= fst e) newer ->
  plevel < level ->
  pop_to level (newer ++ (plevel, p) :: rest) = (plevel, p) :: rest.
Proof.
  intros Hnewer Hlt. induction Hnewer as [|[l c] newer Hl _ IH];
    cbn [app pop_to].
  - destruct (Z.geb_spec plevel level); [lia | reflexivity].
  - cbn [fst] in Hl. destruct (Z.geb_spec l level); [exact IH | lia].
Qed.

Lemma level_of_regular base w d :
  0 < w -> 0 <= d -> level_of base w (base + w * d) = Ok (d + 1).
Proof.
  intros Hw Hd. rewrite level_of_spec by exact Hw. f_equal.
  replace (base + w * d - base) with (d * w) by lia.
  rewrite Z.div_mul by lia. lia.
Qed.

Lemma change_child_id key (f : dict -> dict) l :
  (forall x, f x = x) -> change_child key f l = l.
Proof.
  intros H. induction l as [|[k c] l IH]; [reflexivity|]. cbn [change_child].
  destruct (str_eqb k key); [rewrite H | rewrite IH]; reflexivity.
Qed.

Lemma write_at_id p : forall d, write_at p (fun y => y) d = d.
Proof.
  induction p as [|k p IH]; intros [l]; cbn [write_at items]; [reflexivity|].
  rewrite change_child_id; [reflexivity | exact IH].
Qed.

(** The records of a tree, run through the loop at the place of the tree's
    parent, add the children of the tree to that parent. *)
Lemma attach_all_flatten base w (t : dict) :
  0 < w ->
  forall d b newer plevel p rest x,
  0 <= d ->
  stack_inv b ->
  stack b = newer ++ (plevel, p) :: rest ->
  Forall (fun e => d + 1 <= fst e) newer ->
  plevel < d + 1 ->
  deref p (root_container b) = Ok x ->
  (forall k, In k (List.map fst (items t)) -> ~ In k (List.map fst (items x))) ->
  unique_keys t ->
  exists b' newer',
    attach_all base w (flatten (base + w * d) w t) b = Ok b'
    /\ stack_inv b'
    /\ stack b' = newer' ++ (plevel, p) :: rest
    /\ Forall (fun e => d + 1 <= fst e) newer'
    /\ root_container b'
       = write_at p (fun _ => Dict (items x ++ items t)) (root_container b).
Proof.
  intros Hw. induction t as [l IH] using dict_nested_ind.
  intros d b newer plevel p rest x Hd. revert b newer x.
  rewrite flatten_Dict. cbn [items].
  induction IH as [|[k c] l Hc _ IHl];
    intros b newer x Hinv Hstack Hnewer Hlt Hx Hfresh Huniq.
  - exists b, newer. cbn [flat_map attach_all]. rewrite app_nil_r.
    split; [reflexivity|]. split; [exact Hinv|]. split; [exact Hstack|].
    split; [exact Hnewer|].
    rewrite (write_at_found p _ (fun y => y) _ x Hx); [|destruct x; reflexivity].
    symmetry. apply write_at_id.
  - apply unique_keys_Dict in Huniq as [Hnd Hall].
    cbn [List.map fst] in Hnd. apply NoDup_cons in Hnd as [Hk Hnd].
    apply Forall_cons in Hall as [Huc Hall]. cbn [snd] in Huc, Hc.
    assert (Hkx : ~ In k (List.map fst (items x)))
      by (apply Hfresh; left; reflexivity).
    (* the record of the key itself *)
    destruct (attach_spec base w b (base + w * d) k Hw Hinv)
      as (level & parent & plevel0 & rest0 & b1 & Hlevel & _ & Hpop & _ & _
          & Hat & Hstack1 & Hroot1 & _ & Hinv1).
    rewrite level_of_regular in Hlevel by assumption. injection Hlevel as <-.
    rewrite Hstack, (pop_to_newer _ _ _ _ _ Hnewer Hlt) in Hpop.
    injection Hpop as <- <- <-.
    set (x1 := Dict (items x ++ [(k, Dict [])])).
    assert (Hadd : add_key k x = x1)
      by (unfold add_key; rewrite (fresh_contains _ _ Hkx); reflexivity).
    assert (Hx1 : deref p (root_container b1) = Ok x1)
      by (rewrite Hroot1, (deref_write_at_same p _ _ x Hx), Hadd; reflexivity).
    assert (Hchild : deref (p ++ [k]) (root_container b1) = Ok (Dict [])).
    { rewrite deref_app, Hx1. cbn [bind deref]. unfold x1. cbn [items].
      rewrite (getitem_fresh_last _ _ _ Hkx). reflexivity. }
    (* the records below the key *)
    destruct (Hc (d + 1) b1 [] (d + 1) (p ++ [k]) ((plevel, p) :: rest)
                (Dict []) ltac:(lia) Hinv1 Hstack1 ltac:(constructor)
                ltac:(lia) Hchild ltac:(intros ? _ []) Huc)
      as (b2 & newer2 & Hrun2 & Hinv2 & Hstack2 & Hnewer2 & Hroot2).
    replace (base + w * (d + 1)) with (base + w * d + w) in Hrun2 by lia.
    cbn [items app] in Hroot2.
    set (x2 := Dict (items x ++ [(k, c)])).
    assert (Hx2 : deref p (root_container b2) = Ok x2).
    { rewrite Hroot2, write_at_app, (deref_write_at_same p _ _ x1 Hx1).
      unfold x1, x2. cbn [write_at items].
      rewrite (change_child_fresh_last _ _ _ _ Hkx). destruct c. reflexivity. }
    (* the records of the keys that follow *)
    destruct (IHl b2 (newer2 ++ [(d + 1, p ++ [k])]) x2 Hinv2)
      as (b3 & newer3 & Hrun3 & Hinv3 & Hstack3 & Hnewer3 & Hroot3).
    { rewrite Hstack2, <- app_assoc. reflexivity. }
    { apply Forall_app. split.
      - eapply Forall_impl; [exact Hnewer2|]. intros e He. cbn beta in He. lia.
      - repeat constructor. cbn [fst]. lia. }
    { exact Hlt. }
    { exact Hx2. }
    { intros k' Hk'. unfold x2. cbn [items]. rewrite List.map_app, in_app_iff.
      cbn [List.map fst In]. intros [Hin|[<-|[]]].
      - apply (Hfresh k'); [right; exact Hk' | exact Hin].
      - apply Hk, list_elem_of_In, Hk'. }
    { apply unique_keys_Dict. auto. }
    exists b3, newer3. cbn [flat_map fst snd].
    split; [|split; [exact Hinv3|split; [exact Hstack3|split; [exact Hnewer3|]]]].
    + cbn [app attach_all]. rewrite Hat. cbn [bind].
      rewrite attach_all_app, Hrun2. cbn [bind]. exact Hrun3.
    + rewrite Hroot3, Hroot2, Hroot1, write_at_app, !write_at_twice.
      apply write_at_ext. intros y. unfold x2. cbn [items].
      rewrite <- app_assoc. reflexivity.
Qed.

Lemma attach_all_ext base step step' records :
  (forall r, In r records ->
     level_of base step (fst r) = level_of base step' (fst r)) ->
  forall b, attach_all base step records b = attach_all base step' records b.
Proof.
  induction records as [|[indent key] records IH]; intros H b; [reflexivity|].
  cbn [attach_all]. unfold attach.
  pose proof (H (indent, key) (or_introl eq_refl)) as H0. cbn [fst] in H0.
  rewrite H0.
  destruct (level_of base step' indent) as [level|]; [|reflexivity].
  cbn [bind]. destruct (pop_to level (stack b)) as [|[l p] s]; [reflexivity|].
  cbn [bind]. apply IH. intros r Hr. apply H. right. exact Hr.
Qed.

Lemma flatten_indents w (t : dict) :
  forall indent r,
  In r (flatten indent w t) -> exists d, 0 <= d /\ fst r = indent + w * d.
Proof.
  induction t as [l IH] using dict_nested_ind. intros indent r.
  rewrite flatten_Dict, in_flat_map. intros ([k c] & Hin & [<-|Hr]).
  - exists 0. cbn [fst]. lia.
  - rewrite Forall_forall in IH. cbn [snd] in Hr.
    destruct (IH (k, c) (proj2 (list_elem_of_In _ _) Hin) _ _ Hr)
      as (d & Hd & ->).
    exists (d + 1). lia.
Qed.

Lemma flatten_next_level w (t : dict) indent r :
  In r (flatten indent w t) ->
  fst r <> indent ->
  exists r', In r' (flatten indent w t) /\ fst r' = indent + w.
Proof.
  destruct t as [l]. rewrite flatten_Dict, in_flat_map.
  intros ([k c] & Hin & [<-|Hr]) Hne; [cbn [fst] in Hne; congruence|].
  cbn [snd] in Hr. destruct c as [[|[k' c'] l']].
  - rewrite flatten_Dict in Hr. destruct Hr.
  - exists (indent + w, k'). split; [|reflexivity].
    apply in_flat_map. exists (k, Dict ((k', c') :: l')).
    split; [exact Hin|]. right. cbn [snd]. rewrite flatten_Dict.
    cbn [flat_map fst]. left. reflexivity.
Qed.

(** X18: a tree without two children of one name under any node, written
    out one key to a line with the children of the root at one indent and
    every other key a fixed positive amount deeper than its parent, comes
    back from [build_tree_from_keys] as it was, under the name of the
    declaration; the amount need not be 2, and a tree of one level comes
    back through the fallback step. *)
Theorem build_tree_from_keys_flatten (const_name : str) (base w : Z)
    (t : dict) :
  0 < w ->
  unique_keys t ->
  t <> Dict [] ->
  build_tree_from_keys const_name (flatten base w t)
  = Ok (Dict [(const_name, t)]).
Proof.
  intros Hw Huniq Hne.
  set (records := flatten base w t).
  assert (Hfirst : exists k, In (base, k) records).
  { unfold records. destruct t as [[|[k c] l]]; [congruence|]. exists k.
    rewrite flatten_Dict. cbn [flat_map fst]. left. reflexivity. }
  destruct Hfirst as [k0 Hk0].
  assert (Hrne : records <> []) by (intros E; rewrite E in Hk0; destruct Hk0).
  destruct (base_indent_spec _ Hrne) as (base' & Hbase & (r0 & Hr0 & Hr0b) & Hle).
  assert (Hb : base' = base).
  { apply Z.le_antisymm.
    - apply (Hle (base, k0)), list_elem_of_In, Hk0.
    - apply list_elem_of_In in Hr0.
      destruct (flatten_indents w t base r0 Hr0) as (d & Hd & Hr0d). nia. }
  rewrite Hb in Hbase. clear Hb Hle Hr0 Hr0b r0 base'.
  pose proof (indent_step_pos base records) as Hstep.
  destruct (indent_step_spec base records) as [Hsome Hnone].
  assert (Hagree : forall r, In r records ->
    level_of base (indent_step_of base records) (fst r)
    = level_of base w (fst r)).
  { destruct (Forall_Exists_dec (fun r : Z * str => fst r - base <= 0)
                (fun r : Z * str => fst r - base > 0)
                (fun r => Z_le_gt_dec (fst r - base) 0) records)
      as [Hall|Hex].
    - rewrite Hnone.
      + intros r Hr. destruct (flatten_indents w t base r Hr) as (d & Hd & Hrd).
        rewrite List.Forall_forall in Hall. specialize (Hall r Hr).
        assert (d = 0) by nia. subst d.
        rewrite !level_of_spec by lia. rewrite Hrd.
        replace (base + w * 0 - base) with 0 by lia.
        rewrite !Z.div_0_l by lia. reflexivity.
      + intros r Hr. rewrite List.Forall_forall in Hall.
        apply Hall, list_elem_of_In, Hr.
    - apply List.Exists_exists in Hex as (r1 & Hr1 & Hpos).
      destruct Hsome as [(r2 & Hr2 & Hstep2) Hmin].
      { exists r1. split; [apply list_elem_of_In, Hr1 | lia]. }
      destruct (flatten_next_level w t base r1 Hr1 ltac:(lia))
        as (r3 & Hr3 & Hr3w).
      apply list_elem_of_In in Hr2.
      destruct (flatten_indents w t base r2 Hr2) as (d2 & Hd2 & Hr2d).
      assert (Hle3 : indent_step_of base records <= w).
      { pose proof (Hmin r3 (proj2 (list_elem_of_In _ _) Hr3) ltac:(lia)).
        lia. }
      assert (Hd2' : 1 <= d2).
      { destruct (Z.le_gt_cases 1 d2) as [|Hlt]; [assumption|].
        assert (d2 = 0) by lia. subst d2. lia. }
      assert (Hwd : w <= w * d2) by nia.
      assert (Heq : indent_step_of base records = w) by lia.
      rewrite Heq. reflexivity. }
  unfold build_tree_from_keys. fold records. rewrite Hbase. cbn [bind].
  rewrite (attach_all_ext base _ w records Hagree).
  destruct (attach_all_flatten base w t Hw 0 initial_builder [] (-1) [] []
              (Dict []) ltac:(lia) initial_builder_inv eq_refl
              ltac:(constructor) ltac:(lia) eq_refl
              ltac:(intros ? _ []) Huniq)
    as (b & newer & Hrun & _ & _ & _ & Hroot).
  replace (base + w * 0) with base in Hrun by lia. fold records in Hrun.
  rewrite Hrun. cbn [bind]. rewrite Hroot. cbn. destruct t. reflexivity.
Qed.

Lemma build_tree_from_keys_flatten_witness :
  build_tree_from_keys (u "root") (flatten 4 3 foo_bar_tree)
  = Ok (Dict [(u "root", foo_bar_tree)]).
Proof.
  apply build_tree_from_keys_flatten.
  - lia.
  - cbn. repeat split; repeat constructor; cbn;
      rewrite ?list_elem_of_In; cbn; intuition discriminate.
  - discriminate.
Defined.

(** ** Shifting and erasing in the structured-tree renderer *)

Lemma erase_scalars_VDict l :
  erase_scalars (VDict l)
  = VDict (List.map (fun e => (fst e, erase_scalars (snd e))) l).
Proof.
  cbn [erase_scalars]. f_equal. induction l as [|[k x] l IH]; [reflexivity|].
  cbn [List.map fst snd]. rewrite <- IH. reflexivity.
Qed.

Lemma erase_scalars_VList l :
  erase_scalars (VList l) = VList (List.map erase_scalars l).
Proof.
  cbn [erase_scalars]. f_equal.
Qed.

Lemma below_erase v d :
  (forall indent,
     build_tree (erase_scalars v) indent = build_tree v indent) ->
  below (erase_scalars v) d = below v d.
Proof.
  intros H. destruct v as [l|l|s]; [| |reflexivity].
  - rewrite erase_scalars_VDict. cbn [below].
    rewrite <- erase_scalars_VDict. apply H.
  - rewrite erase_scalars_VList. cbn [below].
    rewrite <- erase_scalars_VList. apply H.
Qed.

(** X19: the content of the scalars never reaches the output: [build_tree]
    gives the same lines when every scalar of the value is replaced by
    [null]. *)
Theorem build_tree_ignores_scalars (v : value) :
  forall d, build_tree (erase_scalars v) d = build_tree v d.
Proof.
  induction v as [items IH|items IH|s] using value_nested_ind; intros d;
    [| |reflexivity].
  - rewrite erase_scalars_VDict, !build_tree_VDict, length_map.
    generalize (Z.of_nat (length items)) 0.
    induction IH as [|[key v] rest Hv _ IHrest]; intros n i; [reflexivity|].
    cbn [List.map dict_rows fst snd]. rewrite IHrest.
    cbn [snd] in Hv. rewrite (below_erase v d Hv). reflexivity.
  - rewrite erase_scalars_VList, !build_tree_VList, length_map.
    generalize (Z.of_nat (length items)) 0.
    induction IH as [|v rest Hv _ IHrest]; intros n i; [reflexivity|].
    cbn [List.map list_rows]. rewrite IHrest.
    rewrite (below_erase v d Hv). reflexivity.
Qed.

Lemma str_mul_succ_l (s : str) (n : Z) :
  0 <= n -> str_mul s (n + 1) = s ++ str_mul s n.
Proof.
  intros Hn. unfold str_mul. rewrite Z2Nat.inj_add by lia.
  change (Z.to_nat 1) with 1%nat. rewrite Nat.add_comm. reflexivity.
Qed.

Lemma below_shift v d :
  1 <= d ->
  (forall indent,
     1 <= indent ->
     build_tree v (indent + 1)
     = List.map (fun line => PIPE ++ line) (build_tree v indent)) ->
  below v (d + 1) = List.map (fun line => PIPE ++ line) (below v d).
Proof.
  intros Hd H. destruct v as [l|l|s]; cbn [below].
  - apply H. lia.
  - apply H. lia.
  - cbn [List.map]. unfold marker. rewrite str_mul_succ_l by lia.
    rewrite <- app_assoc. reflexivity.
Qed.

(** X20: below the top level a value rendered one level deeper gives the
    same lines with one vertical-bar piece in front of each. *)
Theorem build_tree_shift (v : value) :
  forall d,
  1 <= d ->
  build_tree v (d + 1) = List.map (fun line => PIPE ++ line) (build_tree v d).
Proof.
  induction v as [items IH|items IH|s] using value_nested_ind; intros d Hd;
    [| |reflexivity].
  - rewrite !build_tree_VDict.
    generalize (Z.of_nat (length items)) 0.
    induction IH as [|[key v] rest Hv _ IHrest]; intros n i; [reflexivity|].
    cbn [dict_rows]. rewrite List.map_app, IHrest. cbn [List.map snd] in *.
    rewrite (below_shift v d Hd Hv). unfold dict_head.
    destruct (Z.eqb_spec (d + 1) 0); [lia|]. destruct (Z.eqb_spec d 0); [lia|].
    replace (d + 1 - 1) with (d - 1 + 1) by lia.
    rewrite str_mul_succ_l by lia. rewrite <- app_assoc. reflexivity.
  - rewrite !build_tree_VList.
    generalize (Z.of_nat (length items)) 0.
    induction IH as [|v rest Hv _ IHrest]; intros n i; [reflexivity|].
    cbn [list_rows]. rewrite List.map_app, IHrest. cbn [List.map].
    rewrite (below_shift v d Hd Hv). unfold list_head.
    replace (d + 1 - 1) with (d - 1 + 1) by lia.
    rewrite str_mul_succ_l by lia. rewrite <- app_assoc. reflexivity.
Qed.

Lemma build_tree_shift_witness :
  1 <= 1
  /\ build_tree nested_pair (1 + 1)
     = List.map (fun line => PIPE ++ line) (build_tree nested_pair 1).
Proof. split; [lia | apply build_tree_shift; lia]. Defined.

(** ** Shifting in the named-tree renderer *)

(** X21: a tree rendered under a prefix that another text is put in front
    of gives the same lines with that text in front of each. *)
Theorem tree_to_md_lines_shift (t : dict) :
  forall (name p prefix : str) (is_last : bool),
  prefix <> [] ->
  tree_to_md_lines name t (p ++ prefix) is_last
  = List.map (fun line => p ++ line) (tree_to_md_lines name t prefix is_last).
Proof.
  induction t as [l IH] using dict_nested_ind.
  intros name p prefix is_last Hne. rewrite !tree_to_md_lines_unfold.
  cbn [List.map]. f_equal.
  - destruct prefix as [|c prefix]; [congruence|].
    destruct p; cbn [app str_truthy]; [reflexivity|].
    rewrite <- !app_assoc. reflexivity.
  - rewrite <- app_assoc.
    assert (Hcp : prefix ++ (if is_last then BLANK else PIPE) <> [])
      by (destruct prefix; [congruence | discriminate]).
    revert Hcp. generalize (prefix ++ (if is_last then BLANK else PIPE)).
    intros cp Hcp. generalize (Z.of_nat (length l)) 0.
    induction IH as [|[k c] l Hc _ IHl]; intros n i; [reflexivity|].
    cbn [child_rows]. rewrite List.map_app, IHl. cbn [snd] in Hc.
    rewrite (Hc k p cp _ Hcp). reflexivity.
Qed.

Lemma tree_to_md_lines_shift_witness :
  tree_to_md_lines (u "bar") foo_bar_tree (u "│   " ++ u "    ") true
  = List.map (fun line => u "│   " ++ line)
      (tree_to_md_lines (u "bar") foo_bar_tree (u "    ") true).
Proof. apply tree_to_md_lines_shift. discriminate. Defined.

(** ** Position labels *)

Lemma digits_fuel_value (fuel : nat) :
  forall (n : N) (acc : str),
  (n < 10 ^ N.of_nat fuel)%N ->
  decimal_value (digits_fuel fuel n acc)
  = (n * 10 ^ N.of_nat (length acc) + decimal_value acc)%N.
Proof.
  induction fuel as [|fuel IH]; intros n acc Hn.
  - cbn in Hn. assert (n = 0%N) by lia. subst n. cbn. lia.
  - cbn [digits_fuel]. cbv zeta.
    assert (Hv : decimal_value ((48 + n mod 10)%N :: acc)
                 = (n mod 10 * 10 ^ N.of_nat (length acc)
                    + decimal_value acc)%N).
    { cbn [decimal_value]. rewrite (N.add_comm 48), N.add_sub. reflexivity. }
    destruct (N.ltb_spec n 10) as [Hlt|Hge].
    + rewrite Hv. rewrite N.mod_small by assumption. reflexivity.
    + assert (Hq : (n / 10 < 10 ^ N.of_nat fuel)%N).
      { apply N.Div0.div_lt_upper_bound.
        rewrite Nat2N.inj_succ, N.pow_succ_r' in Hn. exact Hn. }
      rewrite (IH (n / 10)%N ((48 + n mod 10)%N :: acc) Hq), Hv.
      cbn [length].
      rewrite Nat2N.inj_succ, N.pow_succ_r'.
      pose proof (N.div_mod n 10 ltac:(lia)) as Hdm.
      generalize dependent (n / 10)%N. generalize dependent (n mod 10)%N.
      intros r _ q _ Hdm. subst n. lia.
Qed.

Lemma str_of_index_fuel (n : N) :
  (n < 10 ^ N.of_nat (S (N.to_nat (N.log2 n))))%N.
Proof.
  rewrite Nat2N.inj_succ, N2Nat.id.
  destruct (N.eq_dec n 0%N) as [E|E].
  - rewrite E. cbn. lia.
  - apply N.lt_le_trans with (2 ^ N.succ (N.log2 n))%N.
    + apply N.log2_spec. lia.
    + apply N.pow_le_mono_l. lia.
Qed.

Lemma str_of_index_value (idx : Z) :
  0 <= idx -> Z.of_N (decimal_value (str_of_index idx)) = idx.
Proof.
  intros Hidx. unfold str_of_index.
  rewrite (digits_fuel_value _ _ [] (str_of_index_fuel (Z.to_N idx))).
  cbn. lia.
Qed.

Lemma digits_fuel_digits (fuel : nat) :
  forall (n : N) (acc : str),
  Forall (fun c => is_decimal_digit c = true) acc ->
  Forall (fun c => is_decimal_digit c = true) (digits_fuel fuel n acc).
Proof.
  induction fuel as [|fuel IH]; intros n acc Hacc; [exact Hacc|].
  cbn [digits_fuel].
  assert (Hacc' : Forall (fun c => is_decimal_digit c = true)
                    ((48 + n mod 10)%N :: acc)).
  { constructor; [|exact Hacc].
    pose proof (N.mod_lt n 10 ltac:(discriminate)) as H.
    generalize dependent (n mod 10)%N. intros m H. unfold is_decimal_digit.
    rewrite andb_true_iff, !N.leb_le. lia. }
  destruct (n <? 10)%N; [exact Hacc' | apply IH, Hacc'].
Qed.

Lemma digits_fuel_head (fuel : nat) :
  forall (n : N) (acc : str),
  n <> 0%N ->
  (n < 10 ^ N.of_nat fuel)%N ->
  exists c rest, digits_fuel fuel n acc = c :: rest /\ c <> 48%N.
Proof.
  induction fuel as [|fuel IH]; intros n acc Hn Hlt.
  - cbn in Hlt. lia.
  - cbn [digits_fuel]. destruct (N.ltb_spec n 10) as [Hsmall|Hbig].
    + exists (48 + n mod 10)%N, acc. split; [reflexivity|].
      rewrite N.mod_small by assumption. lia.
    + apply IH.
      * intros Hq. pose proof (N.div_mod n 10 ltac:(lia)) as Hdm.
        pose proof (N.mod_lt n 10 ltac:(discriminate)) as Hm.
        rewrite Hq in Hdm. lia.
      * apply N.Div0.div_lt_upper_bound.
        rewrite Nat2N.inj_succ, N.pow_succ_r' in Hlt. exact Hlt.
Qed.

Lemma str_of_index_numeral (i : nat) :
  decimal_numeral (str_of_index (Z.of_nat i)) i.
Proof.
  assert (Hv : decimal_value (str_of_index (Z.of_nat i)) = N.of_nat i).
  { pose proof (str_of_index_value (Z.of_nat i) ltac:(lia)) as H. lia. }
  assert (Hd : Forall (fun c => is_decimal_digit c = true)
                 (str_of_index (Z.of_nat i)))
    by (apply digits_fuel_digits; constructor).
  unfold decimal_numeral. destruct i as [|i].
  - split; [discriminate|]. split; [exact Hd|]. split; [|exact Hv].
    intros _. reflexivity.
  - destruct (digits_fuel_head _ (Z.to_N (Z.of_nat (S i))) []
                ltac:(lia) (str_of_index_fuel _)) as (c & rest & E & Hc).
    fold (str_of_index (Z.of_nat (S i))) in E. rewrite E in *.
    split; [discriminate|]. split; [exact Hd|]. split; [|exact Hv].
    cbn [head]. intros H. congruence.
Qed.

(** X22: in the lines [build_tree] writes for a list, the text between the
    brackets of an item is the decimal numeral of its position, counted
    from 0: digits only, no zero in front but for position 0, and of the
    value of the position; so two positions never get the same label. *)
Theorem build_tree_list_labels (d : Z) (init : list value) (v : value) :
  exists label : nat -> str,
    (forall i, decimal_numeral (label i) i)
    /\ (forall i j, i <> j -> label i <> label j)
    /\ build_tree (VList (init ++ [v])) d
       = List.concat
           (imap
              (fun i x =>
                 (str_mul PIPE (d - 1) ++ u "├── [" ++ label i ++ u "]")
                 :: match x with
                    | VScalar _ => [str_mul PIPE d ++ u "└── value"]
                    | y => build_tree y (d + 1)
                    end) init)
         ++ (str_mul PIPE (d - 1) ++ u "└── ["
             ++ label (length init) ++ u "]")
            :: match v with
               | VScalar _ => [str_mul PIPE d ++ u "└── value"]
               | y => build_tree y (d + 1)
               end.
Proof.
  exists (fun i => str_of_index (Z.of_nat i)).
  split; [exact str_of_index_numeral|]. split.
  - intros i j Hij H. apply Hij.
    destruct (str_of_index_numeral i) as (_ & _ & _ & Hi).
    destruct (str_of_index_numeral j) as (_ & _ & _ & Hj).
    rewrite H in Hi. lia.
  - rewrite build_tree_VList, (list_rows_final d _ init v 0%nat).
    + rewrite length_app. cbn [length].
      replace (Z.of_nat (length init + 1) - 1) with (Z.of_nat (length init))
        by lia.
      apply (f_equal2 (@app str)); [|destruct v; reflexivity].
      f_equal.
    + rewrite length_app. cbn [length]. lia.
Qed.
